(** * eqsat.py: tokenizer, recursive-descent parser, rewrite pass and
      saturation driver of the expression optimizer.

    The development follows the layout of [eqsat.py]:

    - characters and strings ([isdigit], [isalpha], [int], [str]);
    - the tokenizer ([tokenize], a regular-expression scan);
    - the parser ([parse_factor], [parse_term], [parse_sum],
      [parse_expression]);
    - the printer and the cost model;
    - the object store: [ASTNode] objects live in a heap and are referred
      to by address, because [rewrite] assigns to [node.left] and
      [node.right] and the distributive rule makes one object the child
      of two parents;
    - [rewrite], [copy.deepcopy], [__eq__] and [saturation] on the store;
    - the main run, and the body of the test loop of [test_cases.py];
    - the term-level reading of the store ([repr]) and the reduction
      relation used to reason about passes.

    Characters are bytes: the input alphabet of the program is ASCII.
    Python integers are unbounded ([N]); recursion depth is unbounded.
    Every recursive Python function takes a [fuel] argument bounding its
    call depth (or its iteration count, for [while] loops); running out
    of fuel is the outcome [OutOfFuel], distinct from every Python
    exception. *)

From Stdlib Require Import String Ascii NArith ZArith Lia DecimalString Decimal
  DecimalN DecimalPos.
From stdpp Require Import base option list relations gmap strings.

Local Open Scope string_scope.

(** ** Outcomes

    A call returns a value, raises an exception, or is cut short by the
    fuel.  [InvalidRef] is the outcome of following an address that is
    not allocated; no Python reference is ever in that state. *)

Inductive exn : Type :=
| IndexError
| ValueError (msg : string)
| AttributeError
| InvalidRef.

Inductive result (A : Type) : Type :=
| Ok (a : A)
| Raise (e : exn)
| OutOfFuel.

Arguments Ok {A} a.
Arguments Raise {A} e.
Arguments OutOfFuel {A}.

#[global] Instance result_ret : MRet result := fun A a => Ok a.
#[global] Instance result_bind : MBind result := fun A B k m =>
  match m with
  | Ok a => k a
  | Raise e => Raise e
  | OutOfFuel => OutOfFuel
  end.

(** ** Characters and strings *)

Definition is_digit (c : ascii) : bool :=
  let n := N_of_ascii c in ((48 <=? n) && (n <=? 57))%N.

Definition is_alpha (c : ascii) : bool :=
  let n := N_of_ascii c in
  (((65 <=? n) && (n <=? 90)) || ((97 <=? n) && (n <=? 122)))%N.

(** The single-character alternative [[+*/()-]] of the token pattern. *)
Definition is_punct (c : ascii) : bool :=
  let n := N_of_ascii c in
  ((n =? 43) || (n =? 42) || (n =? 47) || (n =? 40) || (n =? 41) || (n =? 45))%N.

Fixpoint all_chars (p : ascii -> bool) (s : string) : bool :=
  match s with
  | EmptyString => true
  | String c s' => p c && all_chars p s'
  end.

Definition nonempty (s : string) : bool :=
  match s with EmptyString => false | String _ _ => true end.

(** [str.isdigit] and [str.isalpha]: every character is in the class and
    the string is not empty. *)
Definition isdigit (s : string) : bool := nonempty s && all_chars is_digit s.
Definition isalpha (s : string) : bool := nonempty s && all_chars is_alpha s.

(** [int(s)] and [str(n)].  The program calls [int] only on strings that
    passed [isdigit], and [str] only on sums and products of such
    numbers: on these [int] reads a decimal numeral, and anything else is
    a ValueError here. *)
Definition int (s : string) : result N :=
  if isdigit s then
    match NilEmpty.uint_of_string s with
    | Some u => Ok (N.of_uint u)
    | None => Raise (ValueError "invalid literal for int()")
    end
  else Raise (ValueError "invalid literal for int()").

Definition str (n : N) : string := NilZero.string_of_uint (N.to_uint n).

(** ** Tokenizer

    [re.findall(r'\d+|[a-zA-Z]+|[+*/()-]', expr)]: at each position the
    alternatives are tried in order, a run is taken as long as it goes,
    and a character that starts no alternative is skipped. *)

Fixpoint take_while (p : ascii -> bool) (s : string) : string :=
  match s with
  | EmptyString => EmptyString
  | String c s' => if p c then String c (take_while p s') else EmptyString
  end.

Fixpoint drop_while (p : ascii -> bool) (s : string) : string :=
  match s with
  | EmptyString => EmptyString
  | String c s' => if p c then drop_while p s' else s
  end.

Fixpoint findall (fuel : nat) (expr : string) : list string :=
  match fuel with
  | 0 => []
  | S fuel =>
    match expr with
    | EmptyString => []
    | String c rest =>
      if is_digit c then
        String c (take_while is_digit rest) :: findall fuel (drop_while is_digit rest)
      else if is_alpha c then
        String c (take_while is_alpha rest) :: findall fuel (drop_while is_alpha rest)
      else if is_punct c then
        String c EmptyString :: findall fuel rest
      else findall fuel rest
    end
  end.

(** One unit of fuel per scanned position is enough: each step consumes
    at least one character. *)
Definition tokenize (expr : string) : list string :=
  findall (String.length expr) expr.

(** ** Expression trees as terms

    The parser only constructs nodes: it never assigns to a field of a
    node it has built and never uses a node twice.  Its result is
    therefore denoted by a term; [store] below materialises a term as
    objects when it is handed to the code that mutates. *)

Inductive tree : Type :=
| Leaf (value : string)
| Node (value : string) (left right : tree).

Definition root (t : tree) : string :=
  match t with Leaf v => v | Node v _ _ => v end.

(** ** Parser *)

Section Parser.
Variable tokens : list string.

(** [i < len(tokens) and tokens[i] == op] *)
Definition at_op (i : nat) (op : string) : bool :=
  (i <? length tokens)%nat &&
  match tokens !! i with Some tok => String.eqb tok op | None => false end.

Fixpoint parse_factor (fuel i : nat) {struct fuel} : result (tree * nat) :=
  match fuel with
  | 0 => OutOfFuel
  | S fuel =>
    match tokens !! i with
    | None => Raise IndexError
    | Some token =>
      if isdigit token || isalpha token then Ok (Leaf token, i + 1)
      else if String.eqb token "(" then
        '(node, j) ← parse_sum fuel (i + 1);
        Ok (node, j + 1)
      else Raise (ValueError ("Unexpected token: " ++ token))
    end
  end
with parse_term (fuel i : nat) {struct fuel} : result (tree * nat) :=
  match fuel with
  | 0 => OutOfFuel
  | S fuel =>
    '(node, i) ← parse_factor fuel i;
    term_loop fuel node i
  end
with term_loop (fuel : nat) (node : tree) (i : nat) {struct fuel}
  : result (tree * nat) :=
  match fuel with
  | 0 => OutOfFuel
  | S fuel =>
    if at_op i "*" then
      '(rhs, i) ← parse_factor fuel (i + 1);
      term_loop fuel (Node "*" node rhs) i
    else Ok (node, i)
  end
with parse_sum (fuel i : nat) {struct fuel} : result (tree * nat) :=
  match fuel with
  | 0 => OutOfFuel
  | S fuel =>
    '(node, i) ← parse_term fuel i;
    sum_loop fuel node i
  end
with sum_loop (fuel : nat) (node : tree) (i : nat) {struct fuel}
  : result (tree * nat) :=
  match fuel with
  | 0 => OutOfFuel
  | S fuel =>
    if at_op i "+" then
      '(rhs, i) ← parse_term fuel (i + 1);
      sum_loop fuel (Node "+" node rhs) i
    else Ok (node, i)
  end.

Definition parse_expression (fuel : nat) : result tree :=
  '(node, _) ← parse_sum fuel 0;
  Ok node.
End Parser.

(** ** Printer and cost model, on terms *)

Fixpoint print_ast (node : tree) : string :=
  match node with
  | Leaf v => v
  | Node v l r => "(" ++ print_ast l ++ " " ++ v ++ " " ++ print_ast r ++ ")"
  end.

Fixpoint cost (node : tree) : nat :=
  match node with
  | Leaf _ => 1
  | Node _ l r => 1 + cost l + cost r
  end.

(** ** The object store

    An [ASTNode] object is a cell of the heap; a reference is its
    address.  [left] and [right] hold a reference or [None].  A cell is
    [None] while the object has no attributes yet, which is the state of
    a copy between its creation and the filling of its [__dict__]. *)

Record ASTNode : Type := mkNode {
  value : string;
  left : option nat;
  right : option nat
}.

Abbreviation heap := (list (option ASTNode)).

(** The attributes of the object at [a], when it has them. *)
Definition cell (h : heap) (a : nat) : option ASTNode :=
  match h !! a with
  | Some (Some c) => Some c
  | _ => None
  end.

Definition deref (h : heap) (a : nat) : result ASTNode :=
  match h !! a with
  | Some (Some c) => Ok c
  | Some None => Raise AttributeError
  | None => Raise InvalidRef
  end.

(** [o.f] where [o] may be [None]. *)
Definition attr {A : Type} (h : heap) (o : option nat) (f : ASTNode -> A)
  : result A :=
  match o with
  | None => Raise AttributeError
  | Some a => c ← deref h a; Ok (f c)
  end.

Definition some_ref (o : option nat) : result nat :=
  match o with
  | Some a => Ok a
  | None => Raise AttributeError
  end.

(** [ASTNode(value, left, right)]: a fresh object. *)
Definition new (h : heap) (c : ASTNode) : nat * heap :=
  (length h, (h ++ [Some c])%list).

(** [object.__new__(ASTNode)]: a fresh object without attributes. *)
Definition new_empty (h : heap) : nat * heap := (length h, (h ++ [None])%list).

(** [node.left = l] and [node.right = r] *)
Definition set_left (h : heap) (node l : nat) : result heap :=
  c ← deref h node;
  Ok (<[node := Some (mkNode (value c) (Some l) (right c))]> h).

Definition set_right (h : heap) (node r : nat) : result heap :=
  c ← deref h node;
  Ok (<[node := Some (mkNode (value c) (left c) (Some r))]> h).

(** The parser's result, built as objects: children before their parent. *)
Fixpoint store (t : tree) (h : heap) : nat * heap :=
  match t with
  | Leaf v => new h (mkNode v None None)
  | Node v l r =>
    let '(a, h) := store l h in
    let '(b, h) := store r h in
    new h (mkNode v (Some a) (Some b))
  end.

(** ** Rewrite rules *)

(** [b and e], where [e] is evaluated only when [b] holds. *)
Definition py_and (b : bool) (e : result bool) : result bool :=
  if b then e else Ok false.

(** The distributive rule and the final [return node]. *)
Definition distribute (h : heap) (node : nat) (c : ASTNode)
  : result (nat * heap) :=
  b ← py_and (String.eqb (value c) "*")
        (rv ← attr h (right c) value; Ok (String.eqb rv "+"));
  if b : bool then
    let a := left c in
    b ← attr h (right c) left;
    c ← attr h (right c) right;
    let '(ab, h) := new h (mkNode "*" a b) in
    let '(ac, h) := new h (mkNode "*" a c) in
    Ok (new h (mkNode "+" (Some ab) (Some ac)))
  else Ok (node, h).

(** The rules examined at [node] once its children are rewritten. *)
Definition rules (h : heap) (node : nat) : result (nat * heap) :=
  c ← deref h node;
  (* x + 0 -> x *)
  b ← py_and (String.eqb (value c) "+")
        (rv ← attr h (right c) value; Ok (String.eqb rv "0"));
  if b : bool then l ← some_ref (left c); Ok (l, h) else
  b ← py_and (String.eqb (value c) "+")
        (lv ← attr h (left c) value; Ok (String.eqb lv "0"));
  if b : bool then r ← some_ref (right c); Ok (r, h) else
  (* x * 1 -> x *)
  b ← py_and (String.eqb (value c) "*")
        (rv ← attr h (right c) value; Ok (String.eqb rv "1"));
  if b : bool then l ← some_ref (left c); Ok (l, h) else
  b ← py_and (String.eqb (value c) "*")
        (lv ← attr h (left c) value; Ok (String.eqb lv "1"));
  if b : bool then r ← some_ref (right c); Ok (r, h) else
  (* x * 0 -> 0 *)
  b ← py_and (String.eqb (value c) "*")
        (lv ← attr h (left c) value;
         rv ← attr h (right c) value;
         Ok (String.eqb "0" lv || String.eqb "0" rv));
  if b : bool then Ok (new h (mkNode "0" None None)) else
  (* constant folding *)
  lv ← attr h (left c) value;
  b ← py_and (isdigit lv) (rv ← attr h (right c) value; Ok (isdigit rv));
  if b : bool then
    if String.eqb (value c) "+" then
      rv ← attr h (right c) value;
      x ← int lv;
      y ← int rv;
      Ok (new h (mkNode (str (x + y)) None None))
    else if String.eqb (value c) "*" then
      rv ← attr h (right c) value;
      x ← int lv;
      y ← int rv;
      Ok (new h (mkNode (str (x * y)) None None))
    else distribute h node c
  else distribute h node c.

Fixpoint rewrite (fuel : nat) (h : heap) (node : nat) {struct fuel}
  : result (nat * heap) :=
  match fuel with
  | 0 => OutOfFuel
  | S fuel =>
    c ← deref h node;
    match left c with
    | None => Ok (node, h)
    | Some l =>
      '(l', h) ← rewrite fuel h l;
      h ← set_left h node l';
      c ← deref h node;
      r ← some_ref (right c);
      '(r', h) ← rewrite fuel h r;
      h ← set_right h node r';
      rules h node
    end
  end.

(** ** [copy.deepcopy]

    [memo] maps the address of an object already copied (or being copied)
    to the address of its copy, so sharing inside the copied structure is
    preserved.  The copy is created empty, recorded in [memo], and filled
    once its attribute values are copied; nothing reads it in between.
    Strings and [None] are copied as themselves. *)

Fixpoint deepcopy (fuel : nat) (memo : gmap nat nat) (h : heap) (x : nat)
  {struct fuel} : result (nat * gmap nat nat * heap) :=
  match fuel with
  | 0 => OutOfFuel
  | S fuel =>
    match memo !! x with
    | Some y => Ok (y, memo, h)
    | None =>
      c ← deref h x;
      let '(y, h) := new_empty h in
      let memo := <[x := y]> memo in
      '(l, memo, h) ←
        match left c with
        | None => Ok (None, memo, h)
        | Some l => '(l', memo, h) ← deepcopy fuel memo h l; Ok (Some l', memo, h)
        end;
      '(r, memo, h) ←
        match right c with
        | None => Ok (None, memo, h)
        | Some r => '(r', memo, h) ← deepcopy fuel memo h r; Ok (Some r', memo, h)
        end;
      Ok (y, memo, <[y := Some (mkNode (value c) l r)]> h)
    end
  end.

(** ** [ASTNode.__eq__] *)

Fixpoint node_eq (fuel : nat) (h : heap) (self other : nat) {struct fuel}
  : result bool :=
  match fuel with
  | 0 => OutOfFuel
  | S fuel =>
    a ← deref h self;
    b ← deref h other;
    let child_eq (x y : option nat) : result bool :=
      match x, y with
      | None, None => Ok true
      | Some x, Some y => node_eq fuel h x y
      | _, _ => Ok false
      end in
    py_and (String.eqb (value a) (value b))
      (bl ← child_eq (left a) (left b);
       py_and bl (child_eq (right a) (right b)))
  end.

(** ** Saturation *)

(** [prev != current], where [prev] is [None] before the first pass. *)
Definition differs (fuel : nat) (h : heap) (prev : option nat) (current : nat)
  : result bool :=
  match prev with
  | None => Ok true
  | Some p => b ← node_eq fuel h p current; Ok (negb b)
  end.

(** The [while] loop of [saturation]: [n] bounds the number of passes,
    [fuel] the depth of the calls made by each pass. *)
Fixpoint sat_loop (n fuel : nat) (h : heap) (prev : option nat) (current : nat)
  {struct n} : result (nat * heap) :=
  match n with
  | 0 => OutOfFuel
  | S n =>
    d ← differs fuel h prev current;
    if d : bool then
      '(p, _, h) ← deepcopy fuel ∅ h current;
      '(current, h) ← rewrite fuel h current;
      sat_loop n fuel h (Some p) current
    else Ok (current, h)
  end.

Definition saturation (fuel : nat) (h : heap) (ast : nat) : result (nat * heap) :=
  '(current, _, h) ← deepcopy fuel ∅ h ast;
  sat_loop fuel fuel h None current.

(** ** Printer and cost model, on objects *)

Module Obj.

Fixpoint print_ast (fuel : nat) (h : heap) (node : nat) {struct fuel}
  : result string :=
  match fuel with
  | 0 => OutOfFuel
  | S fuel =>
    c ← deref h node;
    match left c with
    | None => Ok (value c)
    | Some l =>
      pl ← print_ast fuel h l;
      r ← some_ref (right c);
      pr ← print_ast fuel h r;
      Ok ("(" ++ pl ++ " " ++ value c ++ " " ++ pr ++ ")")
    end
  end.

Fixpoint cost (fuel : nat) (h : heap) (node : nat) {struct fuel}
  : result nat :=
  match fuel with
  | 0 => OutOfFuel
  | S fuel =>
    c ← deref h node;
    match left c with
    | None => Ok 1
    | Some l =>
      cl ← cost fuel h l;
      r ← some_ref (right c);
      cr ← cost fuel h r;
      Ok (1 + cl + cr)
    end
  end.

End Obj.

(** ** The main run: tokenize, parse, saturate, print, measure *)

Record report : Type := mkReport {
  original : string;
  optimized : string;
  cost_before : nat;
  cost_after : nat
}.

Definition run (fuel : nat) (expr : string) : result report :=
  let tokens := tokenize expr in
  ast ← parse_expression tokens fuel;
  let '(a, h) := store ast [] in
  po ← Obj.print_ast fuel h a;
  '(opt, h) ← saturation fuel h a;
  pn ← Obj.print_ast fuel h opt;
  cb ← Obj.cost fuel h a;
  ca ← Obj.cost fuel h opt;
  Ok (mkReport po pn cb ca).

(** ** One test of [run_tests] (test_cases.py)

    The body of the loop of [run_tests] for one expression.  What it
    writes to the result file is reduced to the kind of line that closes
    the entry: one of the three verdicts, or the error line of the
    [except] clause. *)

Inductive verdict : Type :=
| Optimized (reduction : nat)   (* OPTIMIZED - Cost reduced by ... *)
| Transformed                   (* TRANSFORMED - Cost unchanged *)
| NoChange                      (* NO CHANGE *)
| Error (e : exn).              (* ERROR: ... *)

Definition try_test (fuel : nat) (expr : string) : result verdict :=
  let tokens := tokenize expr in
  ast ← parse_expression tokens fuel;
  let '(a, h) := store ast [] in
  original_str ← Obj.print_ast fuel h a;
  original_cost ← Obj.cost fuel h a;
  '(optimized, h) ← saturation fuel h a;
  optimized_str ← Obj.print_ast fuel h optimized;
  optimized_cost ← Obj.cost fuel h optimized;
  (* if original_cost > optimized_cost: ... elif original_str !=
     optimized_str: ... else: ... *)
  if (optimized_cost <? original_cost)%nat
  then Ok (Optimized (original_cost - optimized_cost))
  else if negb (String.eqb original_str optimized_str) then Ok Transformed
  else Ok NoChange.

(** [try: ... except Exception as e: ...] *)
Definition run_test (fuel : nat) (expr : string) : result verdict :=
  match try_test fuel expr with
  | Ok v => Ok v
  | Raise e => Ok (Error e)
  | OutOfFuel => OutOfFuel
  end.

(** * Vocabulary of the proofs *)

Local Open Scope list_scope.

(** ** The rules on terms

    [contract v l r] is what the rules of [rewrite] make of a node [v]
    whose rewritten children read as [l] and [r]: the tests of [rules], in
    the same order, on the root values of the children. *)

Definition to_N (s : string) : N :=
  match int s with Ok n => n | _ => 0%N end.

Definition expand (v : string) (l r : tree) : tree :=
  match r with
  | Node rv b c =>
    if String.eqb v "*" && String.eqb rv "+"
    then Node "+" (Node "*" l b) (Node "*" l c)
    else Node v l r
  | Leaf _ => Node v l r
  end.

Definition contract (v : string) (l r : tree) : tree :=
  if String.eqb v "+" && String.eqb (root r) "0" then l
  else if String.eqb v "+" && String.eqb (root l) "0" then r
  else if String.eqb v "*" && String.eqb (root r) "1" then l
  else if String.eqb v "*" && String.eqb (root l) "1" then r
  else if String.eqb v "*" &&
          (String.eqb "0" (root l) || String.eqb "0" (root r)) then Leaf "0"
  else if isdigit (root l) && isdigit (root r) then
    if String.eqb v "+" then Leaf (str (to_N (root l) + to_N (root r)))
    else if String.eqb v "*" then Leaf (str (to_N (root l) * to_N (root r)))
    else expand v l r
  else expand v l r.

(** One rule application somewhere in a term, and any number of them. *)
Inductive step : tree -> tree -> Prop :=
| step_here v l r : step (Node v l r) (contract v l r)
| step_left v l l' r : step l l' -> step (Node v l r) (Node v l' r)
| step_right v l r r' : step r r' -> step (Node v l r) (Node v l r').

Definition red : tree -> tree -> Prop := rtc step.

(** The trees the parser builds: atoms at the leaves, [+] and [*] inside. *)
Fixpoint shape (t : tree) : Prop :=
  match t with
  | Leaf v => isdigit v || isalpha v = true
  | Node v l r => (v = "+" \/ v = "*") /\ shape l /\ shape r
  end.

(** A term on which no rule fires anywhere. *)
Fixpoint normal (t : tree) : Prop :=
  match t with
  | Leaf _ => True
  | Node v l r => normal l /\ normal r /\ contract v l r = Node v l r
  end.

(** A weight that every rule lowers: the distributive rule too, which
    raises the node count. *)
Fixpoint weight (t : tree) : nat :=
  match t with
  | Leaf _ => 3
  | Node v l r =>
    if String.eqb v "*" then weight l * weight r
    else weight l + weight r + 1
  end.

(** ** Reading the store as terms *)

(** [repr h a t]: the objects reachable from [a] unfold to the term [t].
    An object shared by two parents is read once under each. *)
Fixpoint repr (h : heap) (a : nat) (t : tree) : Prop :=
  match t with
  | Leaf v => cell h a = Some (mkNode v None None)
  | Node v tl tr =>
    exists l r, cell h a = Some (mkNode v (Some l) (Some r)) /\
                repr h l tl /\ repr h r tr
  end.

(** [child h x y]: [y] is [x.left] or [x.right]; [anc h x y]: [y] lies
    strictly under [x]. *)
Definition child (h : heap) (x y : nat) : Prop :=
  exists c, cell h x = Some c /\ (left c = Some y \/ right c = Some y).

Definition anc (h : heap) : nat -> nat -> Prop := tc (child h).

(** [evolves h h']: every term read in [h] is read in [h'] as one of its
    reducts. *)
Definition evolves (h h' : heap) : Prop :=
  forall a t, repr h a t -> exists t', repr h' a t' /\ red t t'.

(** What one call of [rewrite] does, read on terms.  The object passed in
    reads afterwards as a reduct [t1] of what it read before, the object
    returned as a reduct [t'] of [t1]; whatever else the store held reads
    as a reduct of what it was; no object above [node] is written; and a
    call that returns the term it was given was given a normal term. *)
Definition rewrite_post (fuel : nat) (h : heap) (node : nat) (t : tree) : Prop :=
  exists node' h' t1 t',
    rewrite fuel h node = Ok (node', h') /\
    evolves h h' /\
    repr h' node t1 /\ repr h' node' t' /\
    red t t1 /\ red t1 t' /\
    (forall x, anc h x node -> h' !! x = h !! x) /\
    (t' = t -> normal t).

(** ** What a call may write *)

(** [keeps h h']: [h'] is [h] with cells added after it. *)
Definition keeps (h h' : heap) : Prop :=
  forall a, a < length h -> h' !! a = h !! a.

(** [within Q h]: the objects at the addresses in [Q] refer only to
    objects at addresses in [Q], all allocated. *)
Definition within (Q : nat -> Prop) (h : heap) : Prop :=
  forall a c k, Q a -> cell h a = Some c ->
                left c = Some k \/ right c = Some k -> Q k /\ k < length h.

(** The three kinds of result of the rules at a node with attributes [c]:
    an existing object and the same store; a fresh leaf; the three fresh
    nodes of the distributive rule. *)
Definition rules_result (h : heap) (c : ASTNode) (node a : nat) (h' : heap)
  : Prop :=
  (h' = h /\ (a = node \/ left c = Some a \/ right c = Some a)) \/
  (exists v, a = length h /\ h' = h ++ [Some (mkNode v None None)]) \/
  (exists r rc, right c = Some r /\ cell h r = Some rc /\
     a = length h + 2 /\
     h' = h ++ [Some (mkNode "*" (left c) (left rc));
                Some (mkNode "*" (left c) (right rc));
                Some (mkNode "+" (Some (length h)) (Some (length h + 1)))]).

(** ** Invariants of [deepcopy] *)

(** An entry of [memo] is either finished, and its copy reads as its
    source, or still being filled, and its source weighs more than [k]:
    it lies above the object being copied, not under it. *)
Definition memo_ok (h0 h : heap) (k : nat) (memo : gmap nat nat) : Prop :=
  forall a b, memo !! a = Some b ->
  forall u, repr h0 a u -> repr h b u \/ k < weight u.

Definition finished (h0 h : heap) (a b : nat) : Prop :=
  forall u, repr h0 a u -> repr h b u.

(** The copies made by [deepcopy] lie above [m0] and refer to each other
    only. *)
Definition copy_inv (m0 : nat) (memo : gmap nat nat) (h : heap) : Prop :=
  m0 <= length h /\
  (forall a b, memo !! a = Some b -> m0 <= b < length h) /\
  within (fun a => m0 <= a) h.

(** ** Printed trees as token lists *)

(** What may follow an atom without being lexed into it. *)
Definition delimited (rest : string) : Prop :=
  match rest with
  | EmptyString => True
  | String c _ => is_digit c = false /\ is_alpha c = false
  end.

(** The tokens of a printed tree. *)
Fixpoint flat (t : tree) : list string :=
  match t with
  | Leaf v => [v]
  | Node v l r => ("(" :: flat l ++ v :: flat r ++ [")"])%list
  end.

(** Call depth that parsing the printed form of [t] takes. *)
Fixpoint need (t : tree) : nat :=
  match t with
  | Leaf _ => 1
  | Node _ l r => 4 + Nat.max (need l) (need r)
  end.

(** The tokens of a group whose closing parenthesis is missing. *)
Definition unclosed (v : string) (l r : tree) : list string :=
  "(" :: flat l ++ v :: flat r.

(** The text of a printed operator tree without its last character, the
    closing parenthesis. *)
Definition print_unclosed (v : string) (l r : tree) : string :=
  ("(" ++ print_ast l ++ " " ++ v ++ " " ++ print_ast r)%string.

(** ** Sums under products *)

Definition is_sum (t : tree) : bool :=
  match t with
  | Node v _ _ => String.eqb v "+"
  | Leaf _ => false
  end.

(** The pattern of the distributive rule somewhere in [t]: a [*] node
    whose right child is a [+] node. *)
Fixpoint product_over_sum (t : tree) : bool :=
  match t with
  | Leaf _ => false
  | Node v l r =>
    (String.eqb v "*" && is_sum r) || product_over_sum l || product_over_sum r
  end.

Fixpoint has_sum (t : tree) : bool :=
  match t with
  | Leaf _ => false
  | Node v l r => String.eqb v "+" || has_sum l || has_sum r
  end.

(** A [+] node anywhere inside the right operand of a [*] node. *)
Fixpoint sum_under_product (t : tree) : bool :=
  match t with
  | Leaf _ => false
  | Node v l r =>
    (String.eqb v "*" && has_sum r) || sum_under_product l || sum_under_product r
  end.

(** ** The rule list of the specification

    These definitions follow the wording of section 4.3 of the
    specification, not the code: seven rules, each a guard on the
    operator and the (rewritten) children with a replacement, tried in
    the order given, the first match winning.  A literal is a leaf. *)

Definition is_literal (s : string) (t : tree) : bool :=
  match t with
  | Leaf w => String.eqb w s
  | Node _ _ _ => false
  end.

Definition spec_rule : Type := string -> tree -> tree -> option tree.

(** 1. [x + 0 -> x] (right child is literal "0") *)
Definition spec_add_zero_right : spec_rule := fun v x r =>
  if String.eqb v "+" && is_literal "0" r then Some x else None.

(** 2. [0 + x -> x] (left child is literal "0") *)
Definition spec_add_zero_left : spec_rule := fun v l x =>
  if String.eqb v "+" && is_literal "0" l then Some x else None.

(** 3. [x * 1 -> x] (right child is literal "1") *)
Definition spec_mul_one_right : spec_rule := fun v x r =>
  if String.eqb v "*" && is_literal "1" r then Some x else None.

(** 4. [1 * x -> x] (left child is literal "1") *)
Definition spec_mul_one_left : spec_rule := fun v l x =>
  if String.eqb v "*" && is_literal "1" l then Some x else None.

(** 5. [x * 0 -> 0], [0 * x -> 0] (either child is literal "0"; the
    result is a fresh leaf "0") *)
Definition spec_mul_zero : spec_rule := fun v l r =>
  if String.eqb v "*" && (is_literal "0" l || is_literal "0" r)
  then Some (Leaf "0") else None.

(** 6. Constant folding: the operator is [+] or [*] and both children are
    literal leaves; the result is the leaf of the decimal string of the
    sum or product. *)
Definition spec_fold : spec_rule := fun v l r =>
  match l, r with
  | Leaf a, Leaf b =>
    if isdigit a && isdigit b then
      if String.eqb v "+" then Some (Leaf (str (to_N a + to_N b)))
      else if String.eqb v "*" then Some (Leaf (str (to_N a * to_N b)))
      else None
    else None
  | _, _ => None
  end.

(** 7. Distributive expansion: the operator is [*] and the right child is
    a [+] operator node with children [b] and [c]. *)
Definition spec_distribute : spec_rule := fun v a r =>
  match r with
  | Node w b c =>
    if String.eqb v "*" && String.eqb w "+"
    then Some (Node "+" (Node "*" a b) (Node "*" a c))
    else None
  | Leaf _ => None
  end.

Definition spec_priority : list spec_rule :=
  [spec_add_zero_right; spec_add_zero_left; spec_mul_one_right;
   spec_mul_one_left; spec_mul_zero; spec_fold; spec_distribute].

Fixpoint first_match (rules : list spec_rule) (v : string) (l r : tree)
  : option tree :=
  match rules with
  | [] => None
  | rule :: rest =>
    match rule v l r with
    | Some t => Some t
    | None => first_match rest v l r
    end
  end.

(** The node after the rules: the first match, or the node as it is. *)
Definition spec_contract (v : string) (l r : tree) : tree :=
  match first_match spec_priority v l r with
  | Some t => t
  | None => Node v l r
  end.

(** ** Fuel *)

(** A run that ended: with a value or with an exception. *)
Definition settled {A : Type} (r : result A) : Prop := r <> OutOfFuel.

(** ** Two small inputs *)

(** The tree of "x+0". *)
Definition demo_sum : tree := Node "+" (Leaf "x") (Leaf "0").

(** The tree of "a*(b+c)", and the store that holds it: the leaves at
    0, 1, 2, the sum at 3, the product at 4. *)
Definition demo_product : tree :=
  Node "*" (Leaf "a") (Node "+" (Leaf "b") (Leaf "c")).

Definition demo_heap : heap := snd (store demo_product []).

(** ** Tokens *)

(** A character that starts an alternative of the token pattern. *)
Definition is_token_char (c : ascii) : bool :=
  is_digit c || is_alpha c || is_punct c.

(** The three kinds of token: a run of digits, a run of letters, one
    punctuation character. *)
Definition is_punct_token (tok : string) : bool :=
  match tok with
  | String c EmptyString => is_punct c
  | _ => false
  end.

Definition token_ok (tok : string) : bool :=
  isdigit tok || isalpha tok || is_punct_token tok.


Fixpoint filter_chars (p : ascii -> bool) (s : string) : string :=
  match s with
  | EmptyString => EmptyString
  | String c s' => if p c then String c (filter_chars p s') else filter_chars p s'
  end.

(** ["".join(tokens)] and [" ".join(tokens)] *)
Fixpoint join_empty (tokens : list string) : string :=
  match tokens with
  | [] => ""
  | tok :: rest => (tok ++ join_empty rest)%string
  end.

Fixpoint join_space (tokens : list string) : string :=
  match tokens with
  | [] => ""
  | [tok] => tok
  | tok :: rest => (tok ++ " " ++ join_space rest)%string
  end.

(** ** The token list under the parser *)

(** The operands of a tree, from left to right. *)
Fixpoint leaves (t : tree) : list string :=
  match t with
  | Leaf v => [v]
  | Node _ l r => leaves l ++ leaves r
  end.

(** The tokens at the positions [i .. j-1]. *)
Definition slice (tokens : list string) (i j : nat) : list string :=
  take (j - i) (drop i tokens).

(** The exceptions of the parser: an index past the end of the token
    list, or a token that starts no factor. *)
Definition parse_error (tokens : list string) (e : exn) : Prop :=
  e = IndexError \/
  exists tok, tok ∈ tokens /\ isdigit tok || isalpha tok = false /\
              tok <> "(" /\ e = ValueError ("Unexpected token: " ++ tok).

(** ** Sums of products *)

(** A product [f * g1 * ... * gn] of factors, each an atom or a printed
    group, and a sum [p + q1 + ... + qn] of such products, written
    without parentheses around them; with the trees a left-associative
    reading with [*] above [+] gives them. *)
Definition product : Type := (tree * list tree)%type.

Definition product_tokens (p : product) : list string :=
  flat p.1 ++ flat_map (fun g => "*" :: flat g) p.2.

Definition product_tree (p : product) : tree := foldl (Node "*") p.1 p.2.

Definition sum_tokens (p : product) (qs : list product) : list string :=
  product_tokens p ++ flat_map (fun q => "+" :: product_tokens q) qs.

Definition sum_tree (p : product) (qs : list product) : tree :=
  foldl (fun acc q => Node "+" acc (product_tree q)) (product_tree p) qs.

Definition product_ok (p : product) : Prop := shape p.1 /\ Forall shape p.2.

(** The token after a place is not [op]. *)
Definition not_next (op : string) (post : list string) : Prop :=
  match post with
  | [] => True
  | tok :: _ => tok <> op
  end.

(** ** Values and identifiers *)

(** The value of a tree when its identifiers stand for the integers
    [env] gives them: a literal is its number, [+] adds, [*] multiplies.
    The parser builds no other operator; one would be read as [*]. *)
Fixpoint eval (env : string -> Z) (t : tree) : Z :=
  match t with
  | Leaf v => if isdigit v then Z.of_N (to_N v) else env v
  | Node v l r =>
    if String.eqb v "+" then (eval env l + eval env r)%Z
    else (eval env l * eval env r)%Z
  end.


(** The identifiers of a tree, from left to right. *)
Fixpoint identifiers (t : tree) : list string :=
  match t with
  | Leaf v => if isdigit v then [] else [v]
  | Node _ l r => identifiers l ++ identifiers r
  end.

(** ** A pass on a tree without sharing *)

(** One pass on a term: the children first, then the rules at the node,
    once. *)
Fixpoint pass (t : tree) : tree :=
  match t with
  | Leaf v => Leaf v
  | Node v l r => contract v (pass l) (pass r)
  end.

(** The tree after a pass over its children only. *)
Definition children_passed (t : tree) : tree :=
  match t with
  | Leaf v => Leaf v
  | Node v l r => Node v (pass l) (pass r)
  end.

(** [tree_at h a t lo hi]: the objects of [t] under [a] lie at addresses
    between [lo] and [hi], the left subtree below the right subtree and
    both below their parent: no object is reached twice. *)
Fixpoint tree_at (h : heap) (a : nat) (t : tree) (lo hi : nat) : Prop :=
  lo <= a < hi /\
  match t with
  | Leaf v => cell h a = Some (mkNode v None None)
  | Node v tl tr =>
    exists l r mid, cell h a = Some (mkNode v (Some l) (Some r)) /\
                    tree_at h l tl lo mid /\ tree_at h r tr mid a
  end.

(** The objects reachable from [a], and every address not yet in use. *)
Definition reach (h : heap) (a : nat) (x : nat) : Prop :=
  rtc (child h) a x \/ length h <= x.

(** * Reasoning *)

(** ** Cells *)

Lemma deref_cell (h : heap) a c : cell h a = Some c -> deref h a = Ok c.
Proof.
  unfold cell, deref. destruct (h !! a) as [[?|]|]; congruence.
Qed.

Lemma cell_lt (h : heap) a c : cell h a = Some c -> a < length h.
Proof.
  unfold cell. destruct (h !! a) eqn:E; [|discriminate].
  intros _. eapply lookup_lt_Some, E.
Qed.

Lemma cell_ext (h h' : heap) a : h !! a = h' !! a -> cell h a = cell h' a.
Proof. unfold cell. intros ->. reflexivity. Qed.

Lemma cell_app (h ext : heap) a c :
  cell h a = Some c -> cell (h ++ ext) a = Some c.
Proof.
  intros H. rewrite <- H. apply cell_ext, lookup_app_l.
  eapply cell_lt, H.
Qed.

Lemma cell_insert_eq (h : heap) a c :
  a < length h -> cell (<[a := Some c]> h) a = Some c.
Proof. intros H. unfold cell. rewrite list_lookup_insert_eq; auto. Qed.

Lemma cell_insert_ne (h : heap) a b o :
  b <> a -> cell (<[a := o]> h) b = cell h b.
Proof. intros H. apply cell_ext, list_lookup_insert_ne. auto. Qed.

(** ** Strings *)

Lemma all_digits_string_of_uint (d : uint) :
  all_chars is_digit (NilEmpty.string_of_uint d) = true.
Proof. induction d; simpl; auto. Qed.

Lemma isdigit_str (n : N) : isdigit (str n) = true.
Proof.
  unfold str, isdigit, NilZero.string_of_uint.
  destruct (N.to_uint n) eqn:E; try reflexivity;
    simpl; apply all_digits_string_of_uint.
Qed.

Lemma uint_of_digit (c : ascii) (u : uint) :
  is_digit c = true -> exists u', uint_of_char c (Some u) = Some u'.
Proof.
  destruct c as [[] [] [] [] [] [] [] []]; intros H;
    try discriminate H; simpl; eauto.
Qed.

Lemma uint_of_digits (s : string) :
  all_chars is_digit s = true -> exists u, NilEmpty.uint_of_string s = Some u.
Proof.
  induction s as [|c s IH]; simpl; intros H; [eauto|].
  apply andb_prop in H as [Hc Hs].
  destruct (IH Hs) as [u ->]. apply uint_of_digit, Hc.
Qed.

Lemma int_isdigit (s : string) : isdigit s = true -> exists n, int s = Ok n.
Proof.
  intros H. unfold int. rewrite H.
  unfold isdigit in H. apply andb_prop in H as [_ H].
  destruct (uint_of_digits s H) as [u ->]. eauto.
Qed.

(** A literal or an identifier is not an operator symbol. *)
Lemma atom_not_op (v : string) :
  isdigit v || isalpha v = true -> v <> "+" /\ v <> "*".
Proof. intros H; split; intros ->; discriminate H. Qed.

(** ** The rules on terms lower the weight and keep the shape *)

Lemma weight_ge (t : tree) : 3 <= weight t.
Proof.
  induction t as [|v l IHl r IHr]; simpl; [lia|].
  destruct (String.eqb v "*"); nia.
Qed.

Lemma weight_children v l r :
  weight l < weight (Node v l r) /\ weight r < weight (Node v l r).
Proof.
  pose proof (weight_ge l). pose proof (weight_ge r).
  simpl. destruct (String.eqb v "*"); nia.
Qed.

Lemma cost_le_weight (t : tree) : cost t <= weight t.
Proof.
  induction t as [|v l IHl r IHr]; simpl; [lia|].
  pose proof (weight_ge l). pose proof (weight_ge r).
  destruct (String.eqb v "*"); nia.
Qed.

Lemma expand_weight v l r :
  weight (expand v l r) <= weight (Node v l r) /\
  (weight (expand v l r) = weight (Node v l r) -> expand v l r = Node v l r).
Proof.
  unfold expand. destruct r as [rv|rv b c]; [split; auto|].
  destruct (String.eqb v "*") eqn:Ev; simpl; [|split; auto].
  destruct (String.eqb rv "+") eqn:Er; simpl; [|split; auto].
  apply String.eqb_eq in Er as ->. simpl. rewrite Ev. simpl.
  pose proof (weight_ge l). pose proof (weight_ge b). pose proof (weight_ge c).
  split; [nia|intros; nia].
Qed.

Lemma contract_weight v l r :
  weight (contract v l r) <= weight (Node v l r) /\
  (weight (contract v l r) = weight (Node v l r) -> contract v l r = Node v l r).
Proof.
  pose proof (weight_ge l). pose proof (weight_ge r).
  pose proof (expand_weight v l r) as He.
  unfold contract.
  repeat match goal with
  | |- context [if ?b then _ else _] => destruct b eqn:?
  end; try exact He;
  simpl in *; destruct (String.eqb v "*") eqn:Ev; simpl in *;
    try discriminate; split; try nia; intros; nia.
Qed.

Lemma step_weight t t' :
  step t t' -> weight t' <= weight t /\ (weight t' = weight t -> t' = t).
Proof.
  induction 1 as [v l r|v l l' r _ [IH1 IH2]|v l r r' _ [IH1 IH2]].
  - apply contract_weight.
  - pose proof (weight_ge r). pose proof (weight_ge l').
    simpl. destruct (String.eqb v "*"); split; try nia;
      intros; f_equal; apply IH2; nia.
  - pose proof (weight_ge l). pose proof (weight_ge r').
    simpl. destruct (String.eqb v "*"); split; try nia;
      intros; f_equal; apply IH2; nia.
Qed.

Lemma red_weight t t' :
  red t t' -> weight t' <= weight t /\ (weight t' = weight t -> t' = t).
Proof.
  induction 1 as [t|t u w Hs _ [IH1 IH2]]; [auto|].
  destruct (step_weight _ _ Hs) as [H1 H2].
  split; [lia|]. intros E.
  assert (u = t) by (apply H2; lia). subst u. apply IH2. lia.
Qed.

Lemma red_weight_le t t' : red t t' -> weight t' <= weight t.
Proof. intros H. apply (red_weight _ _ H). Qed.

Lemma red_trans t u w : red t u -> red u w -> red t w.
Proof. apply rtc_trans. Qed.

Lemma red_node v l l' r r' :
  red l l' -> red r r' -> red (Node v l r) (Node v l' r').
Proof.
  intros Hl Hr. apply red_trans with (Node v l' r).
  - clear Hr. induction Hl; [apply rtc_refl|].
    eapply rtc_l; [apply step_left|]; eauto.
  - clear Hl. induction Hr; [apply rtc_refl|].
    eapply rtc_l; [apply step_right|]; eauto.
Qed.

Lemma red_contract v l r : red (Node v l r) (contract v l r).
Proof. apply rtc_once, step_here. Qed.

(** A round trip of reductions changes nothing. *)
Lemma red_cycle t u : red t u -> red u t -> u = t.
Proof.
  intros H1 H2. apply (red_weight _ _ H1).
  apply red_weight_le in H1, H2. lia.
Qed.

Lemma expand_shape v l r : shape (Node v l r) -> shape (expand v l r).
Proof.
  intros (Hv & Hl & Hr). unfold expand.
  destruct r as [rv|rv b c]; [simpl; auto|].
  destruct (String.eqb v "*" && String.eqb rv "+"); [|simpl; auto].
  destruct Hr as (_ & Hb & Hc). simpl. auto 10.
Qed.

Lemma contract_shape v l r : shape (Node v l r) -> shape (contract v l r).
Proof.
  intros H. pose proof (expand_shape v l r H) as He.
  destruct H as (Hv & Hl & Hr). unfold contract.
  repeat match goal with
  | |- context [if ?b then _ else _] => destruct b
  end; auto; simpl; try rewrite isdigit_str; reflexivity.
Qed.

Lemma step_shape t t' : step t t' -> shape t -> shape t'.
Proof.
  induction 1; intros Hs; [apply contract_shape, Hs| |];
    destruct Hs as (? & ? & ?); simpl; auto.
Qed.

Lemma red_shape t t' : red t t' -> shape t -> shape t'.
Proof. induction 1; eauto using step_shape. Qed.

Lemma normal_step t t' : normal t -> step t t' -> t' = t.
Proof.
  intros Hn Hs. induction Hs as [v l r|v l l' r _ IH|v l r r' _ IH];
    destruct Hn as (Hl & Hr & Hc); [exact Hc| |]; f_equal; auto.
Qed.

Lemma normal_red t t' : normal t -> red t t' -> t' = t.
Proof.
  intros Hn Hr. induction Hr as [t|t u w Hs _ IH]; [reflexivity|].
  assert (u = t) by (eapply normal_step; eauto). subst u. auto.
Qed.

(** ** Reading the store as terms *)

Lemma repr_fun h a t t' : repr h a t -> repr h a t' -> t = t'.
Proof.
  revert a t'. induction t as [v|v tl IHl tr IHr]; intros a [v'|v' tl' tr'];
    simpl; intros H H'.
  - congruence.
  - destruct H' as (? & ? & ? & _). congruence.
  - destruct H as (? & ? & ? & _). congruence.
  - destruct H as (l & r & Hc & Hl & Hr), H' as (l' & r' & Hc' & Hl' & Hr').
    rewrite Hc in Hc'. injection Hc' as <- <- <-.
    f_equal; eauto.
Qed.

Lemma repr_root h a t :
  repr h a t -> exists c, cell h a = Some c /\ value c = root t.
Proof. destruct t; simpl; [|intros (? & ? & ? & _)]; eauto. Qed.

Lemma repr_lt h a t : repr h a t -> a < length h.
Proof.
  intros H. destruct (repr_root _ _ _ H) as (c & Hc & _).
  eapply cell_lt, Hc.
Qed.

(** A store that keeps every cell of [h] keeps every reading of [h]. *)
Lemma repr_incl (h h' : heap) a t :
  (forall x c, cell h x = Some c -> cell h' x = Some c) ->
  repr h a t -> repr h' a t.
Proof.
  intros Hi. revert a. induction t as [v|v tl IHl tr IHr]; simpl; intros a.
  - apply Hi.
  - intros (l & r & Hc & Hl & Hr). exists l, r. auto.
Qed.

Lemma repr_app (h ext : heap) a t : repr h a t -> repr (h ++ ext) a t.
Proof. apply repr_incl. intros x c. apply cell_app. Qed.

(** Writing to an object that weighs more than [u] does not change [u]:
    that object cannot lie under it. *)
Lemma repr_insert_frame (h : heap) x tx c a u :
  repr h x tx -> weight u < weight tx ->
  repr h a u -> repr (<[x := c]> h) a u.
Proof.
  intros Hx. revert a. induction u as [v|v ul IHl ur IHr]; intros a Hw Ha.
  - assert (a <> x) by (intros ->; pose proof (repr_fun _ _ _ _ Hx Ha); subst; lia).
    simpl. rewrite cell_insert_ne by auto. exact Ha.
  - assert (a <> x) by (intros ->; pose proof (repr_fun _ _ _ _ Hx Ha); subst; lia).
    destruct Ha as (l & r & Hc & Hl & Hr).
    destruct (weight_children v ul ur).
    exists l, r. rewrite cell_insert_ne by auto.
    split; [exact Hc|]. split; [apply IHl|apply IHr]; auto; lia.
Qed.

Lemma child_weight h x y tx :
  child h x y -> repr h x tx ->
  exists ty, repr h y ty /\ weight ty < weight tx.
Proof.
  intros (c & Hc & Hy) Hx. destruct tx as [v|v tl tr]; simpl in Hx.
  - rewrite Hx in Hc. injection Hc as <-. simpl in Hy. destruct Hy; discriminate.
  - destruct Hx as (l & r & Hc' & Hl & Hr). rewrite Hc' in Hc.
    injection Hc as <-. destruct (weight_children v tl tr).
    simpl in Hy. destruct Hy as [[= <-]|[= <-]]; eauto.
Qed.

Lemma anc_weight h x y tx :
  anc h x y -> repr h x tx ->
  exists ty, repr h y ty /\ weight ty < weight tx.
Proof.
  intros Ha. revert tx. induction Ha as [x y Hc|x y z Hc _ IH]; intros tx Hx.
  - eapply child_weight; eauto.
  - destruct (child_weight _ _ _ _ Hc Hx) as (ty & Hy & Hw).
    destruct (IH _ Hy) as (tz & Hz & Hw'). exists tz. split; [auto|lia].
Qed.

Lemma anc_irrefl h x t : repr h x t -> ~ anc h x x.
Proof.
  intros Hx Ha. destruct (anc_weight _ _ _ _ Ha Hx) as (t' & Hx' & Hw).
  rewrite (repr_fun _ _ _ _ Hx Hx') in Hw. lia.
Qed.

(** A path whose objects are all kept is kept. *)
Lemma anc_persist (h h' : heap) x y :
  (forall z, anc h z y -> h' !! z = h !! z) -> anc h x y -> anc h' x y.
Proof.
  intros Hk Ha. induction Ha as [x y (c & Hc & Hy)|x z y (c & Hc & Hz) Ha IH].
  - apply tc_once. exists c. split; [|exact Hy].
    rewrite (cell_ext h' h x); [exact Hc|]. apply Hk, tc_once. exists c. auto.
  - eapply tc_l; [|apply IH, Hk]. exists c. split; [|exact Hz].
    rewrite (cell_ext h' h x); [exact Hc|].
    apply Hk. eapply tc_l; [|exact Ha]. exists c. auto.
Qed.

Lemma evolves_refl h : evolves h h.
Proof. intros a t H. exists t. split; [auto|apply rtc_refl]. Qed.

Lemma evolves_trans h1 h2 h3 : evolves h1 h2 -> evolves h2 h3 -> evolves h1 h3.
Proof.
  intros H12 H23 a t H. destruct (H12 _ _ H) as (t2 & H2 & R2).
  destruct (H23 _ _ H2) as (t3 & H3 & R3). eauto using red_trans.
Qed.

Lemma evolves_app (h ext : heap) : evolves h (h ++ ext).
Proof. intros a t H. exists t. split; [apply repr_app, H|apply rtc_refl]. Qed.

(** Replacing an object by one that reads as a reduct. *)
Lemma evolves_insert (h : heap) x c tx tx' :
  repr h x tx -> repr (<[x := c]> h) x tx' -> red tx tx' ->
  evolves h (<[x := c]> h).
Proof.
  intros Hx Hx' Hred a u. revert a.
  induction u as [v|v ul IHl ur IHr]; intros a Ha;
    destruct (decide (a = x)) as [->|Hne].
  - rewrite (repr_fun _ _ _ _ Ha Hx). eauto.
  - exists (Leaf v). split; [|apply rtc_refl].
    simpl. rewrite cell_insert_ne by auto. exact Ha.
  - rewrite (repr_fun _ _ _ _ Ha Hx). eauto.
  - destruct Ha as (l & r & Hc & Hl & Hr).
    destruct (IHl _ Hl) as (ul' & Hl' & Rl), (IHr _ Hr) as (ur' & Hr' & Rr).
    exists (Node v ul' ur'). split; [|apply red_node; auto].
    exists l, r. rewrite cell_insert_ne by auto. auto.
Qed.

Lemma set_left_spec (h : heap) node v l r l' tl tr tl' :
  cell h node = Some (mkNode v (Some l) (Some r)) ->
  repr h l tl -> repr h r tr -> repr h l' tl' -> red tl tl' ->
  let h' := <[node := Some (mkNode v (Some l') (Some r))]> h in
  set_left h node l' = Ok h' /\ evolves h h' /\
  repr h' l' tl' /\ repr h' r tr /\
  cell h' node = Some (mkNode v (Some l') (Some r)).
Proof.
  intros Hc Hl Hr Hl' Hred h'.
  assert (Hx : repr h node (Node v tl tr)) by (exists l, r; auto).
  destruct (weight_children v tl tr) as [Wl Wr].
  pose proof (red_weight_le _ _ Hred) as Wl'.
  assert (Hn : cell h' node = Some (mkNode v (Some l') (Some r))).
  { apply cell_insert_eq. eapply cell_lt, Hc. }
  assert (Fl : repr h' l' tl') by (eapply repr_insert_frame; eauto; lia).
  assert (Fr : repr h' r tr) by (eapply repr_insert_frame; eauto).
  split; [unfold set_left; rewrite (deref_cell _ _ _ Hc); reflexivity|].
  split; [|auto].
  eapply evolves_insert with (tx' := Node v tl' tr); eauto.
  - exists l', r. auto.
  - apply red_node; [exact Hred|apply rtc_refl].
Qed.

Lemma set_right_spec (h : heap) node v l r r' tl tr tr' :
  cell h node = Some (mkNode v (Some l) (Some r)) ->
  repr h l tl -> repr h r tr -> repr h r' tr' -> red tr tr' ->
  let h' := <[node := Some (mkNode v (Some l) (Some r'))]> h in
  set_right h node r' = Ok h' /\ evolves h h' /\
  repr h' l tl /\ repr h' r' tr' /\
  cell h' node = Some (mkNode v (Some l) (Some r')).
Proof.
  intros Hc Hl Hr Hr' Hred h'.
  assert (Hx : repr h node (Node v tl tr)) by (exists l, r; auto).
  destruct (weight_children v tl tr) as [Wl Wr].
  pose proof (red_weight_le _ _ Hred) as Wr'.
  assert (Hn : cell h' node = Some (mkNode v (Some l) (Some r'))).
  { apply cell_insert_eq. eapply cell_lt, Hc. }
  assert (Fl : repr h' l tl) by (eapply repr_insert_frame; eauto).
  assert (Fr : repr h' r' tr') by (eapply repr_insert_frame; eauto; lia).
  split; [unfold set_right; rewrite (deref_cell _ _ _ Hc); reflexivity|].
  split; [|auto].
  eapply evolves_insert with (tx' := Node v tl tr'); eauto.
  - exists l, r'. auto.
  - apply red_node; [apply rtc_refl|exact Hred].
Qed.

(** ** The rules on objects compute [contract] *)

Lemma attr_value h a t : repr h a t -> attr h (Some a) value = Ok (root t).
Proof.
  intros H. destruct (repr_root _ _ _ H) as (c & Hc & Hv).
  unfold attr. rewrite (deref_cell _ _ _ Hc). simpl. congruence.
Qed.

Lemma int_to_N s : isdigit s = true -> int s = Ok (to_N s).
Proof.
  intros H. destruct (int_isdigit s H) as [n Hn].
  unfold to_N. rewrite Hn. reflexivity.
Qed.

Lemma lookup_new (h : heap) c : cell (h ++ [Some c]) (length h) = Some c.
Proof. unfold cell. rewrite list_lookup_middle; reflexivity. Qed.

Lemma distribute_spec (h : heap) node v l r tl tr :
  cell h node = Some (mkNode v (Some l) (Some r)) ->
  repr h l tl -> repr h r tr -> shape (Node v tl tr) ->
  exists a ext,
    distribute h node (mkNode v (Some l) (Some r)) = Ok (a, h ++ ext) /\
    repr (h ++ ext) a (expand v tl tr) /\
    (expand v tl tr = Node v tl tr -> a = node /\ ext = []).
Proof.
  intros Hc Hl Hr (Hv & Hsl & Hsr).
  unfold distribute. cbn [value left right].
  rewrite (attr_value _ _ _ Hr). unfold expand.
  destruct tr as [w|w tb tc]; simpl.
  - destruct (atom_not_op w Hsr) as [Hw _].
    apply String.eqb_neq in Hw. rewrite Hw.
    exists node, []. rewrite app_nil_r.
    destruct (String.eqb v "*"); simpl;
      (split; [reflexivity|split; [exists l, r; auto|auto]]).
  - destruct (String.eqb v "*") eqn:Ev; simpl;
      [destruct (String.eqb w "+") eqn:Ew; simpl|].
    + apply String.eqb_eq in Ew as ->.
      destruct Hr as (rb & rc & Hcr & Hb & Hc').
      unfold attr. rewrite (deref_cell _ _ _ Hcr). simpl.
      eexists _, [_; _; _].
      split.
      { unfold new. rewrite <- !app_assoc. simpl. reflexivity. }
      rewrite !length_app. simpl.
      set (ext := [_; _; _]).
      assert (E1 : cell (h ++ ext) (length h)
                   = Some (mkNode "*" (Some l) (Some rb)))
        by (unfold cell; rewrite lookup_app_r, Nat.sub_diag by lia; reflexivity).
      assert (E2 : cell (h ++ ext) (length h + 1)
                   = Some (mkNode "*" (Some l) (Some rc))).
      { unfold cell. rewrite lookup_app_r by lia.
        replace (length h + 1 - length h) with 1 by lia. reflexivity. }
      assert (E3 : cell (h ++ ext) (length h + 2)
                   = Some (mkNode "+" (Some (length h)) (Some (length h + 1)))).
      { unfold cell. rewrite lookup_app_r by lia.
        replace (length h + 2 - length h) with 2 by lia. reflexivity. }
      split.
      { exists (length h), (length h + 1). split; [exact E3|].
        split; [exists l, rb|exists l, rc]; auto using repr_app. }
      intros [= <-]; discriminate Ev.
    + exists node, []. rewrite app_nil_r.
      split; [reflexivity|]. split; [exists l, r; auto|auto].
    + exists node, []. rewrite app_nil_r.
      split; [reflexivity|]. split; [exists l, r; auto|auto].
Qed.

Lemma rules_spec (h : heap) node v l r tl tr :
  cell h node = Some (mkNode v (Some l) (Some r)) ->
  repr h l tl -> repr h r tr -> shape (Node v tl tr) ->
  exists a ext,
    rules h node = Ok (a, h ++ ext) /\
    repr (h ++ ext) a (contract v tl tr) /\
    (contract v tl tr = Node v tl tr -> a = node /\ ext = []).
Proof.
  intros Hc Hl Hr Hs.
  destruct (distribute_spec _ _ _ _ _ _ _ Hc Hl Hr Hs)
    as (ad & extd & Ed & Rd & Sd).
  destruct (weight_children v tl tr) as [Wl Wr].
  unfold rules. rewrite (deref_cell _ _ _ Hc).
  cbn [mbind result_bind value left right some_ref].
  rewrite !(attr_value _ _ _ Hl), !(attr_value _ _ _ Hr).
  unfold contract.
  pose proof (int_to_N (root tl)) as Il. pose proof (int_to_N (root tr)) as Ir.
  assert (Hret : forall x t, repr h x t -> weight t < weight (Node v tl tr) ->
            exists a ext, Ok (x, h) = Ok (a, h ++ ext) /\ repr (h ++ ext) a t /\
                          (t = Node v tl tr -> a = node /\ ext = [])).
  { intros x t Hx Hw. exists x, []. rewrite app_nil_r.
    split; [reflexivity|]. split; [exact Hx|]. intros ->. lia. }
  assert (Hnew : forall s,
            exists a ext, Ok (new h (mkNode s None None)) = Ok (a, h ++ ext) /\
                          repr (h ++ ext) a (Leaf s) /\
                          (Leaf s = Node v tl tr -> a = node /\ ext = [])).
  { intros s. eexists _, [_]. split; [reflexivity|].
    split; [apply lookup_new|discriminate]. }
  destruct Hs as ([-> | ->] & Hsl & Hsr);
    rewrite ?String.eqb_refl;
    change (String.eqb "+" "*") with false;
    change (String.eqb "*" "+") with false;
    cbn [py_and andb mbind result_bind].
  - destruct (String.eqb (root tr) "0"); [auto|].
    destruct (String.eqb (root tl) "0"); [auto|].
    destruct (isdigit (root tl)); cbn [py_and andb mbind result_bind]; [|eauto].
    destruct (isdigit (root tr)); cbn [py_and andb mbind result_bind]; [|eauto].
    rewrite Il, Ir by reflexivity. cbn [mbind result_bind]. apply Hnew.
  - destruct (String.eqb (root tr) "1"); [auto|].
    destruct (String.eqb (root tl) "1"); [auto|].
    destruct (String.eqb "0" (root tl) || String.eqb "0" (root tr)); [apply Hnew|].
    destruct (isdigit (root tl)); cbn [py_and andb mbind result_bind]; [|eauto].
    destruct (isdigit (root tr)); cbn [py_and andb mbind result_bind]; [|eauto].
    rewrite Il, Ir by reflexivity. cbn [mbind result_bind]. apply Hnew.
Qed.

(** ** One pass on the store *)

Lemma rewrite_unfold fuel h node :
  rewrite (S fuel) h node =
  (c ← deref h node;
   match left c with
   | None => Ok (node, h)
   | Some l =>
     '(l', h) ← rewrite fuel h l;
     h ← set_left h node l';
     c ← deref h node;
     r ← some_ref (right c);
     '(r', h) ← rewrite fuel h r;
     h ← set_right h node r';
     rules h node
   end).
Proof. reflexivity. Qed.

Lemma anc_cell h x y : anc h x y -> exists c, cell h x = Some c.
Proof. intros H. destruct H as [? ? (c & Hc & _)|? ? ? (c & Hc & _) _]; eauto. Qed.

Lemma child_left h x v l r :
  cell h x = Some (mkNode v (Some l) (Some r)) -> child h x l.
Proof. intros H. eexists. split; [exact H|]. simpl. auto. Qed.

Lemma child_right h x v l r :
  cell h x = Some (mkNode v (Some l) (Some r)) -> child h x r.
Proof. intros H. eexists. split; [exact H|]. simpl. auto. Qed.

(** The call at an operator node, step by step: the left child is
    rewritten and assigned, then the right child, then the rules are
    examined on the node with its rewritten children [tl'] and [tr']. *)
Lemma rewrite_node (f : nat) :
  (forall (h : heap) node t,
      repr h node t -> shape t -> weight t <= f -> rewrite_post f h node t) ->
  forall (h : heap) node v l r tl tr,
    cell h node = Some (mkNode v (Some l) (Some r)) ->
    repr h l tl -> repr h r tr -> shape (Node v tl tr) ->
    weight (Node v tl tr) <= S f ->
    exists l' h1 r' h2 tl' tr' res ext,
      let h2' := <[node := Some (mkNode v (Some l') (Some r'))]> h2 in
      rewrite f h l = Ok (l', h1) /\
      rewrite f (<[node := Some (mkNode v (Some l') (Some r))]> h1) r
        = Ok (r', h2) /\
      repr h2' l' tl' /\ repr h2' r' tr' /\
      cell h2' node = Some (mkNode v (Some l') (Some r')) /\
      rules h2' node = Ok (res, h2' ++ ext) /\
      rewrite (S f) h node = Ok (res, h2' ++ ext) /\
      repr (h2' ++ ext) res (contract v tl' tr') /\
      (contract v tl' tr' = Node v tl' tr' -> res = node /\ ext = []) /\
      evolves h (h2' ++ ext) /\
      red tl tl' /\ red tr tr' /\
      (forall x, anc h x node -> (h2' ++ ext) !! x = h !! x) /\
      (contract v tl' tr' = Node v tl tr -> normal (Node v tl tr)).
Proof.
  intros IH h node v l r tl tr Hc Hl Hr Hs Hw.
  assert (Hn' : repr h node (Node v tl tr)) by (exists l, r; auto).
  destruct Hs as (Hv & Hsl & Hsr).
  destruct (weight_children v tl tr) as [Wl Wr].
  destruct (IH h l tl Hl Hsl ltac:(lia))
    as (l' & h1 & tl1 & tl' & E1 & Ev1 & R1a & R1b & D1a & D1b & F1 & P1).
  assert (Hc1 : cell h1 node = Some (mkNode v (Some l) (Some r))).
  { rewrite (cell_ext h1 h node); [exact Hc|].
    apply F1. eapply tc_once, child_left, Hc. }
  destruct (Ev1 _ _ Hr) as (tr1 & Hr1 & Dr1).
  destruct (set_left_spec h1 node v l r l' tl1 tr1 tl' Hc1 R1a Hr1 R1b D1b)
    as (S1 & Ev1' & Rl1' & Rr1' & Hc1').
  set (h1' := <[node := Some (mkNode v (Some l') (Some r))]> h1) in *.
  pose proof (red_weight_le _ _ Dr1) as Wr1.
  destruct (IH h1' r tr1 Rr1' (red_shape _ _ Dr1 Hsr) ltac:(lia))
    as (r' & h2 & tr2 & tr' & E2 & Ev2 & R2a & R2b & D2a & D2b & F2 & P2).
  assert (Hc2 : cell h2 node = Some (mkNode v (Some l') (Some r))).
  { rewrite (cell_ext h2 h1' node); [exact Hc1'|].
    apply F2. eapply tc_once, child_right, Hc1'. }
  destruct (Ev2 _ _ Rl1') as (tl2 & Hl2 & Dl2).
  destruct (set_right_spec h2 node v l' r r' tl2 tr2 tr' Hc2 Hl2 R2a R2b D2b)
    as (S2 & Ev2' & Rl2' & Rr2' & Hc2').
  set (h2' := <[node := Some (mkNode v (Some l') (Some r'))]> h2) in *.
  assert (Dl : red tl tl2) by eauto using red_trans.
  assert (Dr : red tr tr') by eauto using red_trans.
  assert (Hs5 : shape (Node v tl2 tr')).
  { split; [exact Hv|]. split; eapply red_shape; eauto. }
  destruct (rules_spec h2' node v l' r' tl2 tr' Hc2' Rl2' Rr2' Hs5)
    as (a & ext & E5 & R5 & I5).
  exists l', h1, r', h2, tl2, tr', a, ext. cbv zeta. fold h1' h2'.
  split; [exact E1|]. split; [exact E2|]. split; [exact Rl2'|].
  split; [exact Rr2'|]. split; [exact Hc2'|]. split; [exact E5|].
  split.
  { rewrite rewrite_unfold.
    rewrite (deref_cell _ _ _ Hc). cbn [mbind result_bind left].
    rewrite E1. cbn [mbind result_bind]. rewrite S1. cbn [mbind result_bind].
    rewrite (deref_cell _ _ _ Hc1'). cbn [mbind result_bind right some_ref].
    rewrite E2. cbn [mbind result_bind]. rewrite S2. cbn [mbind result_bind].
    exact E5. }
  split; [exact R5|]. split; [exact I5|].
  split.
  { apply evolves_trans with h1; [exact Ev1|].
    apply evolves_trans with h1'; [exact Ev1'|].
    apply evolves_trans with h2; [exact Ev2|].
    apply evolves_trans with h2'; [exact Ev2'|apply evolves_app]. }
  split; [exact Dl|]. split; [exact Dr|].
  split.
  - intros x Hx.
    assert (Hne : x <> node)
      by (intros ->; apply (anc_irrefl h node _ Hn' Hx)).
    assert (K1 : forall z, anc h z node -> h1 !! z = h !! z).
    { intros z Hz. apply F1. eapply tc_r; [exact Hz|]. eapply child_left, Hc. }
    assert (A1 : anc h1 x node) by (eapply anc_persist; eauto).
    assert (N1 : repr h1 node (Node v tl1 tr1)) by (exists l, r; auto).
    assert (K1' : forall z, anc h1 z node -> h1' !! z = h1 !! z).
    { intros z Hz. apply list_lookup_insert_ne.
      intros <-. apply (anc_irrefl h1 node _ N1 Hz). }
    assert (A1' : anc h1' x node) by (eapply anc_persist; eauto).
    assert (K2 : h2 !! x = h1' !! x).
    { apply F2. eapply tc_r; [exact A1'|]. eapply child_right, Hc1'. }
    assert (K2' : h2' !! x = h2 !! x) by (apply list_lookup_insert_ne; auto).
    destruct (anc_cell _ _ _ Hx) as (c & Hcx). apply cell_lt in Hcx.
    assert (Hfin : h2' !! x = h !! x)
      by (rewrite K2', K2, K1', K1; auto).
    rewrite <- Hfin. apply lookup_app_l.
    apply lookup_lt_is_Some. rewrite Hfin. apply lookup_lt_is_Some, Hcx.
  - intros E.
    assert (ET : Node v tl2 tr' = Node v tl tr).
    { apply red_cycle; [apply red_node; assumption|].
      rewrite <- E. apply red_contract. }
    injection ET as -> ->.
    assert (tl' = tl) by (apply red_cycle; eauto using red_trans).
    assert (tr1 = tr) by (apply red_cycle; eauto using red_trans).
    subst. simpl. auto.
Qed.

Lemma rewrite_spec (fuel : nat) :
  forall (h : heap) node t,
    repr h node t -> shape t -> weight t <= fuel -> rewrite_post fuel h node t.
Proof.
  induction fuel as [|f IH]; intros h node t Hn Hs Hw.
  { pose proof (weight_ge t). lia. }
  destruct t as [v|v tl tr].
  - simpl in Hn. exists node, h, (Leaf v), (Leaf v).
    rewrite rewrite_unfold, (deref_cell _ _ _ Hn). simpl.
    repeat split; auto using evolves_refl; apply rtc_refl.
  - assert (Hn' := Hn). destruct Hn' as (l & r & Hc & Hl & Hr).
    destruct (rewrite_node f IH h node v l r tl tr Hc Hl Hr Hs Hw)
      as (l' & h1 & r' & h2 & tl' & tr' & res & ext & _ & _ & Rl & Rr & Hc'
          & _ & E & Rres & _ & Ev & Dl & Dr & F & P).
    exists res, (<[node := Some (mkNode v (Some l') (Some r'))]> h2 ++ ext),
           (Node v tl' tr'), (contract v tl' tr').
    split; [exact E|]. split; [exact Ev|].
    split; [apply repr_app; exists l', r'; auto|].
    split; [exact Rres|]. split; [apply red_node; assumption|].
    split; [apply red_contract|]. split; [exact F|exact P].
Qed.

(** ** [deepcopy] *)

Lemma keeps_refl h : keeps h h.
Proof. intros a _. reflexivity. Qed.

Lemma keeps_length h h' : keeps h h' -> length h <= length h'.
Proof.
  intros H. destruct (decide (length h = 0)) as [|Hn]; [lia|].
  assert (Ha : length h - 1 < length h) by lia.
  pose proof (H _ Ha) as E.
  destruct (lookup_lt_is_Some_2 h _ Ha) as [c Hc]. rewrite Hc in E.
  apply lookup_lt_Some in E. lia.
Qed.

Lemma keeps_trans h1 h2 h3 : keeps h1 h2 -> keeps h2 h3 -> keeps h1 h3.
Proof.
  intros H12 H23 a Ha. pose proof (keeps_length _ _ H12).
  rewrite H23 by lia. auto.
Qed.

Lemma keeps_app (h ext : heap) : keeps h (h ++ ext).
Proof. intros a Ha. apply lookup_app_l, Ha. Qed.

Lemma keeps_cell h h' a c : keeps h h' -> cell h a = Some c -> cell h' a = Some c.
Proof.
  intros Hk Hc. rewrite <- Hc. apply cell_ext, Hk. eapply cell_lt, Hc.
Qed.

Lemma repr_keeps h h' a t : keeps h h' -> repr h a t -> repr h' a t.
Proof. intros Hk. apply repr_incl. intros x c. apply keeps_cell, Hk. Qed.

Lemma evolves_keeps h h' : keeps h h' -> evolves h h'.
Proof.
  intros Hk a t H. exists t. split; [eapply repr_keeps; eauto|apply rtc_refl].
Qed.

(** Filling an object that had no attributes changes no reading. *)
Lemma repr_insert_none (h : heap) y o a u :
  h !! y = Some None -> repr h a u -> repr (<[y := o]> h) a u.
Proof.
  intros Hy. apply repr_incl. intros x c Hc.
  rewrite cell_insert_ne; [exact Hc|].
  intros ->. unfold cell in Hc. rewrite Hy in Hc. discriminate.
Qed.

Lemma deepcopy_unfold fuel memo (h : heap) x :
  deepcopy (S fuel) memo h x =
  match memo !! x with
  | Some y => Ok (y, memo, h)
  | None =>
    c ← deref h x;
    let '(y, h) := new_empty h in
    let memo := <[x := y]> memo in
    '(l, memo, h) ←
      match left c with
      | None => Ok (None, memo, h)
      | Some l => '(l', memo, h) ← deepcopy fuel memo h l; Ok (Some l', memo, h)
      end;
    '(r, memo, h) ←
      match right c with
      | None => Ok (None, memo, h)
      | Some r => '(r', memo, h) ← deepcopy fuel memo h r; Ok (Some r', memo, h)
      end;
    Ok (y, memo, <[y := Some (mkNode (value c) l r)]> h)
  end.
Proof. reflexivity. Qed.

Lemma memo_ok_insert h0 h h1 k k' memo x y t :
  memo_ok h0 h k memo -> keeps h h1 -> repr h0 x t ->
  k' < weight t -> k' <= k -> memo_ok h0 h1 k' (<[x := y]> memo).
Proof.
  intros Hm Hk Hx Hw Hle a b E u Hu.
  destruct (decide (x = a)) as [->|Hne].
  - right. rewrite (repr_fun _ _ _ _ Hu Hx). exact Hw.
  - rewrite lookup_insert_ne in E by auto.
    destruct (Hm _ _ E _ Hu) as [H|H]; [left|right; lia].
    eapply repr_keeps; eauto.
Qed.

Lemma memo_ok_step h0 h1 h2 k memo1 memo2 :
  memo_ok h0 h1 k memo1 -> keeps h1 h2 ->
  (forall a b, memo2 !! a = Some b ->
               memo1 !! a = Some b \/ finished h0 h2 a b) ->
  memo_ok h0 h2 k memo2.
Proof.
  intros Hm Hk Hp a b E u Hu. destruct (Hp _ _ E) as [E1|Hf]; [|left; auto].
  destruct (Hm _ _ E1 _ Hu) as [H|H]; [left|right; auto].
  eapply repr_keeps; eauto.
Qed.

Lemma deepcopy_spec (h0 : heap) (fuel : nat) :
  forall t x memo (h : heap),
    repr h0 x t -> keeps h0 h -> memo_ok h0 h (weight t) memo ->
    weight t <= fuel ->
    exists y memo' h',
      deepcopy fuel memo h x = Ok (y, memo', h') /\
      keeps h h' /\ repr h' y t /\
      (forall a b, memo' !! a = Some b ->
                   memo !! a = Some b \/ finished h0 h' a b).
Proof.
  induction fuel as [|f IH]; intros t x memo h Hx Hk Hm Hw.
  { pose proof (weight_ge t). lia. }
  rewrite deepcopy_unfold. destruct (memo !! x) as [y|] eqn:Em.
  { exists y, memo, h. split; [reflexivity|]. split; [apply keeps_refl|].
    split; [|auto]. destruct (Hm _ _ Em _ Hx) as [H|H]; [exact H|lia]. }
  destruct (repr_root _ _ _ Hx) as (c & Hc & _).
  rewrite (deref_cell _ _ _ (keeps_cell _ _ _ _ Hk Hc)).
  unfold new_empty. cbn [mbind result_bind].
  set (y := length h). set (h1 := h ++ [None]). set (memo1 := <[x:=y]> memo).
  assert (K1 : keeps h h1) by apply keeps_app.
  assert (Hy1 : h1 !! y = Some None) by (apply list_lookup_middle; reflexivity).
  assert (Ly1 : y < length h1) by (eapply lookup_lt_Some, Hy1).
  assert (Hfin : forall (h3 : heap) o, keeps h1 h3 -> keeps h (<[y := o]> h3)).
  { intros h3 o K3 a Ha. rewrite list_lookup_insert_ne by (unfold y; lia).
    rewrite K3 by lia. apply K1, Ha. }
  assert (Hmemo : forall (h3 : heap) o (memo3 : gmap nat nat),
            keeps h1 h3 -> repr (<[y := o]> h3) y t ->
            (forall a b, memo3 !! a = Some b ->
                         memo1 !! a = Some b \/ finished h0 h3 a b) ->
            forall a b, memo3 !! a = Some b ->
                        memo !! a = Some b \/ finished h0 (<[y := o]> h3) a b).
  { intros h3 o memo3 K3 Ry Hp a b E.
    assert (Hy3 : h3 !! y = Some None) by (rewrite K3; auto).
    destruct (Hp _ _ E) as [E1|Hf].
    - unfold memo1 in E1. destruct (decide (x = a)) as [->|Hne].
      + rewrite lookup_insert_eq in E1. injection E1 as <-.
        right. intros u Hu. rewrite (repr_fun _ _ _ _ Hu Hx). exact Ry.
      + rewrite lookup_insert_ne in E1 by auto. auto.
    - right. intros u Hu. apply repr_insert_none; auto. }
  destruct t as [v|v tl tr].
  - simpl in Hx. rewrite Hx in Hc. injection Hc as <-.
    cbn [left right value mbind result_bind].
    assert (Ry : repr (<[y := Some (mkNode v None None)]> h1) y (Leaf v))
      by (apply cell_insert_eq, Ly1).
    eexists y, memo1, _. split; [reflexivity|].
    split; [apply Hfin, keeps_refl|]. split; [exact Ry|].
    apply (Hmemo h1 _ memo1 (keeps_refl _) Ry). auto.
  - assert (Hx' := Hx). destruct Hx as (l & r & Hc' & Hl & Hr).
    rewrite Hc' in Hc. injection Hc as <-.
    cbn [left right value].
    destruct (weight_children v tl tr) as [Wl Wr].
    destruct (IH tl l memo1 h1 Hl (keeps_trans _ _ _ Hk K1)
                (memo_ok_insert _ _ _ _ _ _ _ y _ Hm K1 Hx' Wl ltac:(lia))
                ltac:(lia))
      as (l' & memo2 & h2 & E1 & K2 & Rl & P2).
    rewrite E1. cbn [mbind result_bind].
    assert (M2 : memo_ok h0 h2 (weight tr) memo2).
    { eapply memo_ok_step; [|exact K2|exact P2].
      apply (memo_ok_insert _ _ _ _ _ _ _ y _ Hm K1 Hx' Wr). lia. }
    destruct (IH tr r memo2 h2 Hr
                (keeps_trans _ _ _ Hk (keeps_trans _ _ _ K1 K2)) M2 ltac:(lia))
      as (r' & memo3 & h3 & E2 & K3 & Rr & P3).
    rewrite E2. cbn [mbind result_bind].
    assert (K13 : keeps h1 h3) by (eapply keeps_trans; eauto).
    assert (Hy3 : h3 !! y = Some None) by (rewrite K13; auto).
    assert (Ry : repr (<[y := Some (mkNode v (Some l') (Some r'))]> h3) y
                   (Node v tl tr)).
    { exists l', r'. split.
      - apply cell_insert_eq. apply lookup_lt_Some in Hy3. exact Hy3.
      - split; apply repr_insert_none; auto.
        apply (repr_keeps h2 h3 _ _ K3 Rl). }
    eexists y, memo3, _. split; [reflexivity|].
    split; [apply Hfin, K13|]. split; [exact Ry|].
    apply (Hmemo h3 _ memo3 K13 Ry).
    intros a b E. destruct (P3 _ _ E) as [E'|Hf]; [|auto].
    destruct (P2 _ _ E') as [E''|Hf]; [auto|].
    right. intros u Hu. apply (repr_keeps h2 h3 _ _ K3), Hf, Hu.
Qed.

Lemma deepcopy_top (h : heap) x t fuel :
  repr h x t -> weight t <= fuel ->
  exists y memo' h',
    deepcopy fuel ∅ h x = Ok (y, memo', h') /\ keeps h h' /\ repr h' y t.
Proof.
  intros Hx Hw.
  destruct (deepcopy_spec h fuel t x ∅ h Hx (keeps_refl h)) as
    (y & memo' & h' & E & K & R & _); [|exact Hw|eauto 10].
  intros a b E. rewrite lookup_empty in E. discriminate.
Qed.

(** ** What a call may write

    These facts need no reading of the store as terms: they hold of every
    call that returns. *)

Lemma deref_Ok (h : heap) a c : deref h a = Ok c -> cell h a = Some c.
Proof.
  unfold deref, cell. destruct (h !! a) as [[?|]|]; congruence.
Qed.

Lemma attr_Ok {A : Type} (h : heap) o (f : ASTNode -> A) x :
  attr h o f = Ok x -> exists a c, o = Some a /\ cell h a = Some c /\ x = f c.
Proof.
  unfold attr. destruct o as [a|]; [|discriminate].
  destruct (deref h a) as [c| |] eqn:E; try discriminate.
  intros [= <-]. apply deref_Ok in E. eauto.
Qed.

Lemma some_ref_Ok o a : some_ref o = Ok a -> o = Some a.
Proof. destruct o; simpl; congruence. Qed.

(** Case analysis on the computation at the head of [H : e = Ok _]. *)
Ltac case_result H :=
  lazymatch type of H with
  | mbind _ ?m = _ =>
    destruct m eqn:?; cbn [mbind result_bind] in H; try discriminate H
  | (if ?b then _ else _) = _ => destruct b
  end.

Lemma distribute_outcome (h : heap) node c a h' :
  distribute h node c = Ok (a, h') -> rules_result h c node a h'.
Proof.
  unfold distribute. intros H.
  destruct (py_and _ _) as [[|]| |]; cbn [mbind result_bind] in H;
    try discriminate H.
  - destruct (attr h (right c) left) as [b| |] eqn:Eb;
      cbn [mbind result_bind] in H; try discriminate H.
    destruct (attr h (right c) right) as [d| |] eqn:Ed;
      cbn [mbind result_bind] in H; try discriminate H.
    apply attr_Ok in Eb as (r & rc & Er & Hr & ->).
    apply attr_Ok in Ed as (r' & rc' & Er' & Hr' & ->).
    rewrite Er in Er'. injection Er' as <-. rewrite Hr in Hr'. injection Hr' as <-.
    unfold new in H. injection H as <- <-.
    right. right. exists r, rc.
    rewrite !length_app. simpl. rewrite <- !app_assoc. simpl.
    repeat split; auto; lia.
  - injection H as <- <-. left. auto.
Qed.

Lemma rules_outcome (h : heap) node a h' :
  rules h node = Ok (a, h') ->
  exists c, cell h node = Some c /\ rules_result h c node a h'.
Proof.
  unfold rules. intros H.
  destruct (deref h node) as [c| |] eqn:Ec; cbn [mbind result_bind] in H;
    try discriminate H.
  apply deref_Ok in Ec. exists c. split; [exact Ec|].
  assert (Hnew : forall v, Ok (new h (mkNode v None None)) = Ok (a, h') ->
                           rules_result h c node a h').
  { intros v [= <- <-]. right. left. eauto. }
  assert (Hret : forall x, Ok (x, h) = Ok (a, h') ->
                           left c = Some x \/ right c = Some x ->
                           rules_result h c node a h').
  { intros x [= <- <-] Hx. left. auto. }
  pose proof (distribute_outcome h node c a h') as Hdist.
  repeat (first [ apply Hdist in H; exact H
                | apply Hnew in H; exact H
                | eapply Hret in H; [exact H | solve [auto using some_ref_Ok]]
                | case_result H ]).
Qed.

Lemma within_insert (Q : nat -> Prop) (h : heap) node c :
  within Q h ->
  (forall k, left c = Some k \/ right c = Some k -> Q k /\ k < length h) ->
  within Q (<[node := Some c]> h).
Proof.
  intros Hw Hc a c' k Qa Ha Hk. rewrite length_insert.
  destruct (decide (a = node)) as [->|Hne].
  - assert (node < length h).
    { apply cell_lt in Ha. rewrite length_insert in Ha. exact Ha. }
    rewrite cell_insert_eq in Ha by auto. injection Ha as <-. auto.
  - rewrite cell_insert_ne in Ha by auto. eauto.
Qed.

Lemma within_app (Q : nat -> Prop) (h ext : heap) :
  within Q h ->
  (forall i c k, ext !! i = Some (Some c) ->
                 left c = Some k \/ right c = Some k ->
                 Q k /\ k < length h + length ext) ->
  within Q (h ++ ext).
Proof.
  intros Hw He a c k Qa Ha Hk. rewrite length_app.
  destruct (decide (a < length h)) as [Hlt|Hge].
  - unfold cell in Ha. rewrite lookup_app_l in Ha by auto.
    destruct (Hw a c k Qa) as [? ?]; auto. split; [auto|lia].
  - unfold cell in Ha. rewrite lookup_app_r in Ha by lia.
    destruct (ext !! (a - length h)) as [[c'|]|] eqn:E; try discriminate.
    injection Ha as ->. eauto.
Qed.

Lemma rules_frame (Q : nat -> Prop) (h : heap) node a h' :
  rules h node = Ok (a, h') ->
  within Q h -> Q node -> (forall x, length h <= x -> Q x) ->
  within Q h' /\ Q a /\ a < length h' /\ keeps h h'.
Proof.
  intros H Hw Qn Qnew.
  destruct (rules_outcome _ _ _ _ H) as (c & Hc & Hres).
  pose proof (cell_lt _ _ _ Hc) as Hlt.
  destruct Hres as [(-> & Ha)|[(v & -> & ->)|(r & rc & Er & Hr & -> & ->)]].
  - split; [exact Hw|]. split; [|split; [|apply keeps_refl]].
    + destruct Ha as [->|Ha]; [exact Qn|]. eapply Hw; eauto.
    + destruct Ha as [->|Ha]; [exact Hlt|]. eapply Hw; eauto.
  - split; [|split; [|split; [|apply keeps_app]]].
    + apply within_app; [exact Hw|].
      intros [|[|i]] c' k E Hk; try discriminate E.
      injection E as <-. simpl in Hk. destruct Hk; discriminate.
    + apply Qnew. lia.
    + rewrite length_app. simpl. lia.
  - assert (Qr : Q r /\ r < length h) by (eapply Hw; eauto).
    split; [|split; [|split; [|apply keeps_app]]].
    + apply within_app; [exact Hw|].
      intros [|[|[|i]]] c' k E Hk; try discriminate E;
        injection E as <-; simpl in Hk; simpl.
      * destruct Hk as [Hk|Hk].
        -- destruct (Hw node c k Qn Hc) as [? ?]; auto. split; [auto|lia].
        -- destruct (Hw r rc k (proj1 Qr) Hr) as [? ?]; auto. split; [auto|lia].
      * destruct Hk as [Hk|Hk].
        -- destruct (Hw node c k Qn Hc) as [? ?]; auto. split; [auto|lia].
        -- destruct (Hw r rc k (proj1 Qr) Hr) as [? ?]; auto. split; [auto|lia].
      * destruct Hk as [[= <-]|[= <-]]; (split; [apply Qnew|]; lia).
    + apply Qnew. lia.
    + rewrite length_app. simpl. lia.
Qed.

Lemma set_left_Ok (h : heap) node l h' :
  set_left h node l = Ok h' ->
  exists c, cell h node = Some c /\
            h' = <[node := Some (mkNode (value c) (Some l) (right c))]> h.
Proof.
  unfold set_left. destruct (deref h node) as [c| |] eqn:E; try discriminate.
  intros [= <-]. apply deref_Ok in E. eauto.
Qed.

Lemma set_right_Ok (h : heap) node r h' :
  set_right h node r = Ok h' ->
  exists c, cell h node = Some c /\
            h' = <[node := Some (mkNode (value c) (left c) (Some r))]> h.
Proof.
  unfold set_right. destruct (deref h node) as [c| |] eqn:E; try discriminate.
  intros [= <-]. apply deref_Ok in E. eauto.
Qed.

(** A call of [rewrite] on an object of a region [Q] that is closed under
    references, and contains every address still free, writes inside [Q]
    only. *)
Lemma rewrite_frame (Q : nat -> Prop) (fuel : nat) :
  forall (h : heap) node node' h',
    rewrite fuel h node = Ok (node', h') ->
    within Q h -> Q node -> (forall x, length h <= x -> Q x) ->
    within Q h' /\ Q node' /\ node' < length h' /\
    (forall a, ~ Q a -> h' !! a = h !! a) /\ length h <= length h'.
Proof.
  induction fuel as [|f IH]; intros h node node' h' H Hw Qn Qnew;
    [discriminate|].
  rewrite rewrite_unfold in H.
  destruct (deref h node) as [c| |] eqn:Ec; cbn [mbind result_bind] in H;
    try discriminate H.
  apply deref_Ok in Ec.
  destruct (left c) as [l|] eqn:El.
  2: { injection H as <- <-. split; [exact Hw|]. split; [exact Qn|].
       split; [eapply cell_lt; eauto|]. split; [auto|lia]. }
  destruct (rewrite f h l) as [[l' h1]| |] eqn:E1;
    cbn [mbind result_bind] in H; try discriminate H.
  destruct (IH _ _ _ _ E1 Hw) as (W1 & Ql' & Ll' & F1 & L1);
    [apply (Hw node c l Qn Ec); auto|exact Qnew|].
  destruct (set_left h1 node l') as [h1'| |] eqn:S1;
    cbn [mbind result_bind] in H; try discriminate H.
  apply set_left_Ok in S1 as (c1 & Hc1 & ->).
  set (h1' := <[node := _]> h1) in *.
  assert (Len1 : length h1' = length h1) by apply length_insert.
  assert (W1' : within Q h1').
  { apply within_insert; [exact W1|].
    intros k [Hk|Hk]; simpl in Hk; [injection Hk as <-; auto|].
    apply (W1 node c1 k Qn Hc1). auto. }
  destruct (deref h1' node) as [c2| |] eqn:Ec2; cbn [mbind result_bind] in H;
    try discriminate H.
  apply deref_Ok in Ec2.
  destruct (some_ref (right c2)) as [r| |] eqn:Er;
    cbn [mbind result_bind] in H; try discriminate H.
  apply some_ref_Ok in Er.
  destruct (rewrite f h1' r) as [[r' h2]| |] eqn:E2;
    cbn [mbind result_bind] in H; try discriminate H.
  destruct (IH _ _ _ _ E2 W1') as (W2 & Qr' & Lr' & F2 & L2);
    [apply (W1' node c2 r Qn Ec2); auto|intros x Hx; apply Qnew; lia|].
  destruct (set_right h2 node r') as [h2'| |] eqn:S2;
    cbn [mbind result_bind] in H; try discriminate H.
  apply set_right_Ok in S2 as (c3 & Hc3 & ->).
  set (h2' := <[node := _]> h2) in *.
  assert (Len2 : length h2' = length h2) by apply length_insert.
  assert (W2' : within Q h2').
  { apply within_insert; [exact W2|].
    intros k [Hk|Hk]; simpl in Hk; [|injection Hk as <-; auto].
    apply (W2 node c3 k Qn Hc3). auto. }
  destruct (rules_frame Q _ _ _ _ H W2' Qn) as (W3 & Qa & La & K3);
    [intros x Hx; apply Qnew; lia|].
  split; [exact W3|]. split; [exact Qa|]. split; [exact La|].
  pose proof (keeps_length _ _ K3).
  split; [|lia].
  intros a Ha. destruct (decide (a < length h)) as [Hlt|Hge].
  - assert (a <> node) by (intros ->; auto).
    rewrite K3 by lia. unfold h2'. rewrite list_lookup_insert_ne by auto.
    rewrite F2 by auto. unfold h1'. rewrite list_lookup_insert_ne by auto.
    apply F1, Ha.
  - exfalso. apply Ha, Qnew. lia.
Qed.

Lemma copy_child_frame (m0 f : nat) :
  (forall memo (h : heap) x y memo' h',
      deepcopy f memo h x = Ok (y, memo', h') -> copy_inv m0 memo h ->
      keeps h h' /\ copy_inv m0 memo' h' /\ m0 <= y < length h') ->
  forall o memo (h : heap) o' memo' h',
    match o with
    | None => Ok (None, memo, h)
    | Some l => '(l', memo, h) ← deepcopy f memo h l; Ok (Some l', memo, h)
    end = Ok (o', memo', h') ->
    copy_inv m0 memo h ->
    keeps h h' /\ copy_inv m0 memo' h' /\
    (forall k, o' = Some k -> m0 <= k < length h').
Proof.
  intros IH o memo h o' memo' h' H Hinv. destruct o as [l|].
  - destruct (deepcopy f memo h l) as [[[l' memo2] h2]| |] eqn:E;
      cbn [mbind result_bind] in H; try discriminate H.
    injection H as <- <- <-.
    destruct (IH _ _ _ _ _ _ E Hinv) as (K & I & Hl).
    split; [exact K|]. split; [exact I|]. intros k [= <-]. exact Hl.
  - injection H as <- <- <-. split; [apply keeps_refl|].
    split; [exact Hinv|]. intros k [=].
Qed.

Lemma deepcopy_frame (m0 fuel : nat) :
  forall memo (h : heap) x y memo' h',
    deepcopy fuel memo h x = Ok (y, memo', h') -> copy_inv m0 memo h ->
    keeps h h' /\ copy_inv m0 memo' h' /\ m0 <= y < length h'.
Proof.
  induction fuel as [|f IH]; intros memo h x y memo' h' H Hinv;
    [discriminate|].
  rewrite deepcopy_unfold in H. destruct (memo !! x) as [y0|] eqn:Em.
  { injection H as <- <- <-. split; [apply keeps_refl|]. split; [exact Hinv|].
    destruct Hinv as (_ & Hm & _). eauto. }
  destruct (deref h x) as [c| |] eqn:Ec; cbn [mbind result_bind] in H;
    try discriminate H.
  unfold new_empty in H.
  set (y1 := length h) in *. set (h1 := h ++ [None]) in *.
  set (memo1 := <[x := y1]> memo) in *.
  assert (L1 : length h1 = S (length h))
    by (unfold h1; rewrite length_app; simpl; lia).
  assert (I1 : copy_inv m0 memo1 h1).
  { destruct Hinv as (Hl & Hm & Hw). split; [lia|]. split.
    - intros a b E. unfold memo1 in E.
      destruct (decide (x = a)) as [->|Hne].
      + rewrite lookup_insert_eq in E. injection E as <-. unfold y1. lia.
      + rewrite lookup_insert_ne in E by auto. apply Hm in E. lia.
    - apply within_app; [exact Hw|].
      intros [|i] c' k E; discriminate E. }
  lazymatch type of H with
  | mbind _ ?m = _ => destruct m as [[[lo memo2] h2]| |] eqn:EL
  end; cbn [mbind result_bind] in H; try discriminate H.
  destruct (copy_child_frame m0 f IH _ _ _ _ _ _ EL I1) as (K2 & I2 & Hlo).
  lazymatch type of H with
  | mbind _ ?m = _ => destruct m as [[[ro memo3] h3]| |] eqn:ER
  end; cbn [mbind result_bind] in H; try discriminate H.
  destruct (copy_child_frame m0 f IH _ _ _ _ _ _ ER I2) as (K3 & I3 & Hro).
  injection H as <- <- <-.
  pose proof (keeps_length _ _ K2). pose proof (keeps_length _ _ K3).
  destruct I3 as (Hl3 & Hm3 & Hw3). destruct Hinv as (Hl0 & _ & _).
  split; [|split; [split; [|split]|]].
  - intros a Ha. rewrite list_lookup_insert_ne by (unfold y1; lia).
    rewrite K3 by lia. rewrite K2 by lia. apply keeps_app, Ha.
  - rewrite length_insert. exact Hl3.
  - intros a b E. rewrite length_insert. eauto.
  - apply within_insert; [exact Hw3|].
    intros k [Hk|Hk]; simpl in Hk.
    + destruct (Hlo _ Hk). split; [auto|lia].
    + destruct (Hro _ Hk). split; [auto|lia].
  - rewrite length_insert. unfold y1. lia.
Qed.

(** ** [__eq__], the printer and the cost model read the term *)

Lemma node_eq_spec (fuel : nat) :
  forall (h : heap) a b ta tb,
    repr h a ta -> repr h b tb -> weight ta <= fuel ->
    exists res, node_eq fuel h a b = Ok res /\ (res = true <-> ta = tb).
Proof.
  induction fuel as [|f IH]; intros h a b ta tb Ha Hb Hw.
  { pose proof (weight_ge ta). lia. }
  destruct ta as [va|va tla tra], tb as [vb|vb tlb trb]; simpl in Ha, Hb.
  - simpl. rewrite (deref_cell _ _ _ Ha), (deref_cell _ _ _ Hb).
    cbn. destruct (String.eqb va vb) eqn:E; cbn; eexists; (split; [reflexivity|]).
    + apply String.eqb_eq in E as ->. tauto.
    + apply String.eqb_neq in E. split; [discriminate|congruence].
  - destruct Hb as (lb & rb & Hb & _).
    simpl. rewrite (deref_cell _ _ _ Ha), (deref_cell _ _ _ Hb).
    cbn. destruct (String.eqb va vb); cbn; eexists; (split; [reflexivity|]);
      split; discriminate.
  - destruct Ha as (la & ra & Ha & _).
    simpl. rewrite (deref_cell _ _ _ Ha), (deref_cell _ _ _ Hb).
    cbn. destruct (String.eqb va vb); cbn; eexists; (split; [reflexivity|]);
      split; discriminate.
  - destruct Ha as (la & ra & Ha & Hla & Hra).
    destruct Hb as (lb & rb & Hb & Hlb & Hrb).
    destruct (weight_children va tla tra) as [Wl Wr].
    destruct (IH h la lb tla tlb Hla Hlb ltac:(lia)) as (bl & El & Il).
    destruct (IH h ra rb tra trb Hra Hrb ltac:(lia)) as (br & Er & Ir).
    simpl. rewrite (deref_cell _ _ _ Ha), (deref_cell _ _ _ Hb).
    cbn. rewrite El, Er.
    destruct (String.eqb va vb) eqn:E; cbn.
    + apply String.eqb_eq in E as ->.
      destruct bl; cbn; eexists; (split; [reflexivity|]).
      * rewrite Ir. split; [intros ->; f_equal; apply Il; auto|].
        intros [= _ ->]. reflexivity.
      * split; [discriminate|]. intros [= Hl _]. apply Il, Hl.
    + apply String.eqb_neq in E. eexists. split; [reflexivity|].
      split; [discriminate|congruence].
Qed.

Lemma cost_spec (fuel : nat) :
  forall (h : heap) a t,
    repr h a t -> weight t <= fuel -> Obj.cost fuel h a = Ok (cost t).
Proof.
  induction fuel as [|f IH]; intros h a t Ha Hw.
  { pose proof (weight_ge t). lia. }
  destruct t as [v|v tl tr]; simpl in Ha.
  - simpl. rewrite (deref_cell _ _ _ Ha). reflexivity.
  - destruct Ha as (l & r & Ha & Hl & Hr).
    destruct (weight_children v tl tr) as [Wl Wr].
    simpl. rewrite (deref_cell _ _ _ Ha). cbn.
    rewrite (IH _ _ _ Hl), (IH _ _ _ Hr) by lia. reflexivity.
Qed.

Lemma print_ast_spec (fuel : nat) :
  forall (h : heap) a t,
    repr h a t -> weight t <= fuel -> Obj.print_ast fuel h a = Ok (print_ast t).
Proof.
  induction fuel as [|f IH]; intros h a t Ha Hw.
  { pose proof (weight_ge t). lia. }
  destruct t as [v|v tl tr]; simpl in Ha.
  - simpl. rewrite (deref_cell _ _ _ Ha). reflexivity.
  - destruct Ha as (l & r & Ha & Hl & Hr).
    destruct (weight_children v tl tr) as [Wl Wr].
    simpl. rewrite (deref_cell _ _ _ Ha). cbn.
    rewrite (IH _ _ _ Hl), (IH _ _ _ Hr) by lia. reflexivity.
Qed.

Lemma store_spec (t : tree) :
  forall (h : heap) a h',
    store t h = (a, h') -> keeps h h' /\ repr h' a t.
Proof.
  induction t as [v|v tl IHl tr IHr]; intros h a h' H; simpl in H.
  - injection H as <- <-. split; [apply keeps_app|apply lookup_new].
  - destruct (store tl h) as [l h1] eqn:E1.
    destruct (store tr h1) as [r h2] eqn:E2.
    injection H as <- <-.
    destruct (IHl _ _ _ E1) as [K1 R1], (IHr _ _ _ E2) as [K2 R2].
    split.
    + eauto using keeps_trans, keeps_app.
    + exists l, r. split; [apply lookup_new|].
      split; apply repr_app; [eapply repr_keeps; eauto|exact R2].
Qed.

(** ** Saturation *)

(** A reading inside a closed region survives whatever happens outside. *)
Lemma repr_region (R : nat -> Prop) (h h' : heap) :
  within R h -> (forall x, R x -> x < length h -> h' !! x = h !! x) ->
  forall t a, R a -> repr h a t -> repr h' a t.
Proof.
  intros Hw Hk. induction t as [v|v tl IHl tr IHr]; intros a Ra Ha; simpl in *.
  - rewrite <- Ha. apply cell_ext, Hk; [exact Ra|]. eapply cell_lt, Ha.
  - destruct Ha as (l & r & Hc & Hl & Hr). exists l, r.
    split; [|split].
    + rewrite <- Hc. apply cell_ext, Hk; [exact Ra|]. eapply cell_lt, Hc.
    + apply IHl; [|exact Hl]. apply (Hw a _ l Ra Hc). simpl. auto.
    + apply IHr; [|exact Hr]. apply (Hw a _ r Ra Hc). simpl. auto.
Qed.

Lemma copy_inv_fresh (h : heap) : copy_inv (length h) ∅ h.
Proof.
  split; [lia|]. split.
  - intros a b E. rewrite lookup_empty in E. discriminate.
  - intros a c k Ha Hc _. apply cell_lt in Hc. lia.
Qed.

(** The body of the loop: [prev = copy.deepcopy(current)] followed by
    [current = rewrite(current)].  [n0] is where the store of the caller
    ends. *)
Lemma pass_spec (n0 fuel : nat) (h : heap) current t :
  repr h current t -> shape t -> weight t <= fuel ->
  within (fun a => n0 <= a) h -> n0 <= current ->
  exists p memo h1 c' h2 t',
    deepcopy fuel ∅ h current = Ok (p, memo, h1) /\
    rewrite fuel h1 current = Ok (c', h2) /\
    repr h2 p t /\ repr h2 c' t' /\ red t t' /\ (t' = t -> normal t) /\
    within (fun a => n0 <= a) h2 /\ n0 <= c'.
Proof.
  intros Hc Hs Hw Hin Hn0.
  pose proof (repr_lt _ _ _ Hc) as Hlt.
  destruct (deepcopy_top h current t fuel Hc Hw) as (p & memo & h1 & E1 & K1 & Rp).
  destruct (deepcopy_frame (length h) fuel _ _ _ _ _ _ E1 (copy_inv_fresh h))
    as (_ & (_ & _ & Wm) & Hp).
  destruct (deepcopy_frame n0 fuel _ _ _ _ _ _ E1) as (_ & (L1 & _ & W1) & _).
  { split; [lia|]. split; [|exact Hin].
    intros a b E. rewrite lookup_empty in E. discriminate. }
  destruct (rewrite_spec fuel h1 current t (repr_keeps _ _ _ _ K1 Hc) Hs Hw)
    as (c' & h2 & t1 & t' & E2 & _ & _ & Rc' & D1 & D2 & _ & Pr).
  destruct (rewrite_frame (fun a => n0 <= a) fuel _ _ _ _ E2 W1 Hn0)
    as (W2 & Hc' & _); [intros x Hx; lia|].
  set (Q := fun a => (n0 <= a /\ a < length h) \/ length h1 <= a).
  destruct (rewrite_frame Q fuel _ _ _ _ E2) as (_ & _ & _ & F2 & _).
  { intros a c k [[Ha1 Ha2]|Ha] Hca Hk.
    - assert (Hca' : cell h a = Some c)
        by (rewrite <- Hca; apply cell_ext; symmetry; apply K1, Ha2).
      destruct (Hin a c k Ha1 Hca' Hk) as [? ?].
      pose proof (keeps_length _ _ K1). split; [left; lia|lia].
    - apply cell_lt in Hca. lia. }
  { left. lia. }
  { intros x Hx. right. exact Hx. }
  exists p, memo, h1, c', h2, t'.
  split; [exact E1|]. split; [exact E2|]. split.
  { apply (repr_region (fun a => length h <= a) h1 h2 Wm); [|lia|exact Rp].
    intros x Hx Hx1. apply F2. unfold Q. lia. }
  split; [exact Rc'|]. split; [eauto using red_trans|].
  split; [exact Pr|]. auto.
Qed.

Lemma sat_loop_unfold n fuel (h : heap) prev current :
  sat_loop (S n) fuel h prev current =
  (d ← differs fuel h prev current;
   if d : bool then
     '(p, _, h) ← deepcopy fuel ∅ h current;
     '(current, h) ← rewrite fuel h current;
     sat_loop n fuel h (Some p) current
   else Ok (current, h)).
Proof. reflexivity. Qed.

(** The loop, entered with a copy [p] of the tree before the last pass. *)
Lemma sat_loop_spec (n0 fuel : nat) :
  forall n (h : heap) p current tp t,
    repr h p tp -> repr h current t -> shape t ->
    red tp t -> (t = tp -> normal tp) ->
    weight tp <= fuel -> weight tp < n ->
    within (fun a => n0 <= a) h -> n0 <= current ->
    exists r h' s,
      sat_loop n fuel h (Some p) current = Ok (r, h') /\
      repr h' r s /\ red t s /\ normal s.
Proof.
  induction n as [|n IH]; intros h p current tp t Hp Hc Hs Hred Hnf Hf Hn Hin Hn0;
    [lia|].
  rewrite sat_loop_unfold. unfold differs.
  destruct (node_eq_spec fuel h p current tp t Hp Hc Hf) as (res & E & Hres).
  rewrite E. cbn [mbind result_bind].
  destruct (red_weight _ _ Hred) as [Wle Weq].
  destruct res; cbn [negb].
  - assert (tp = t) by (apply Hres; reflexivity). subst tp.
    exists current, h, t. split; [reflexivity|]. split; [exact Hc|].
    split; [apply rtc_refl|auto].
  - assert (Hne : tp <> t) by (intros Eq; apply Hres in Eq; discriminate).
    assert (Wlt : weight t < weight tp).
    { destruct (decide (weight t = weight tp)) as [Eq|]; [|lia].
      exfalso. apply Hne. symmetry. apply Weq, Eq. }
    destruct (pass_spec n0 fuel h current t Hc Hs ltac:(lia) Hin Hn0)
      as (p' & memo & h1 & c' & h2 & t' & E1 & E2 & Rp & Rc & D & Pr & W2 & Hc').
    rewrite E1. cbn [mbind result_bind]. rewrite E2. cbn [mbind result_bind].
    destruct (IH h2 p' c' t t' Rp Rc (red_shape _ _ D Hs) D Pr
                ltac:(lia) ltac:(lia) W2 Hc') as (r & h' & s & E3 & Rs & Ds & Ns).
    exists r, h', s. split; [exact E3|]. split; [exact Rs|].
    split; [eauto using red_trans|exact Ns].
Qed.

(** [saturation] returns, and what it returns reads as a normal reduct of
    the tree it was given. *)
Lemma saturation_spec (fuel : nat) (h : heap) ast t :
  repr h ast t -> shape t -> weight t + 2 <= fuel ->
  exists r h' s,
    saturation fuel h ast = Ok (r, h') /\
    repr h' r s /\ red t s /\ normal s /\ shape s.
Proof.
  intros Ha Hs Hf. unfold saturation.
  destruct (deepcopy_top h ast t fuel Ha ltac:(lia))
    as (current & memo & h1 & E0 & K0 & Rc).
  destruct (deepcopy_frame (length h) fuel _ _ _ _ _ _ E0 (copy_inv_fresh h))
    as (_ & (_ & _ & W1) & Hcur).
  rewrite E0. cbn [mbind result_bind].
  destruct fuel as [|n]; [lia|].
  rewrite sat_loop_unfold. cbn [differs mbind result_bind].
  destruct (pass_spec (length h) (S n) h1 current t Rc Hs ltac:(lia) W1
              ltac:(lia))
    as (p' & memo' & h2 & c' & h3 & t' & E1 & E2 & Rp & Rc' & D & Pr & W3 & Hc').
  rewrite E1. cbn [mbind result_bind]. rewrite E2. cbn [mbind result_bind].
  destruct (sat_loop_spec (length h) (S n) n h3 p' c' t t' Rp Rc'
              (red_shape _ _ D Hs) D Pr ltac:(lia) ltac:(lia) W3 Hc')
    as (r & h' & s & E3 & Rs & Ds & Ns).
  exists r, h', s. split; [exact E3|]. split; [exact Rs|].
  assert (red t s) by eauto using red_trans.
  split; [auto|]. split; [exact Ns|]. eapply red_shape; eauto.
Qed.

(** Whatever the store holds, the loop leaves the caller's part of it
    alone. *)
Lemma sat_loop_frame (n0 fuel : nat) :
  forall n (h : heap) prev current r h',
    sat_loop n fuel h prev current = Ok (r, h') ->
    within (fun a => n0 <= a) h -> n0 <= current -> n0 <= length h ->
    forall a, a < n0 -> h' !! a = h !! a.
Proof.
  induction n as [|n IH]; intros h prev current r h' H Hin Hc Hl a Ha;
    [discriminate|].
  rewrite sat_loop_unfold in H.
  destruct (differs fuel h prev current) as [d| |]; cbn [mbind result_bind] in H;
    try discriminate H.
  destruct d; [|injection H as <- <-; reflexivity].
  destruct (deepcopy fuel ∅ h current) as [[[p memo] h1]| |] eqn:E1;
    cbn [mbind result_bind] in H; try discriminate H.
  destruct (rewrite fuel h1 current) as [[c' h2]| |] eqn:E2;
    cbn [mbind result_bind] in H; try discriminate H.
  destruct (deepcopy_frame n0 fuel _ _ _ _ _ _ E1) as (K1 & (L1 & _ & W1) & _).
  { split; [lia|]. split; [|exact Hin].
    intros x b E. rewrite lookup_empty in E. discriminate. }
  destruct (rewrite_frame (fun a => n0 <= a) fuel _ _ _ _ E2 W1 Hc)
    as (W2 & Hc' & _ & F2 & L2); [intros x Hx; lia|].
  rewrite (IH _ _ _ _ _ H W2 Hc' ltac:(lia) a Ha).
  rewrite F2 by lia. apply K1. lia.
Qed.

Lemma saturation_frame (fuel : nat) (h : heap) ast r h' :
  saturation fuel h ast = Ok (r, h') -> keeps h h'.
Proof.
  unfold saturation. intros H a Ha.
  destruct (deepcopy fuel ∅ h ast) as [[[current memo] h1]| |] eqn:E0;
    cbn [mbind result_bind] in H; try discriminate H.
  destruct (deepcopy_frame (length h) fuel _ _ _ _ _ _ E0 (copy_inv_fresh h))
    as (K0 & (L1 & _ & W1) & Hcur).
  rewrite (sat_loop_frame (length h) fuel _ _ _ _ _ _ H W1 ltac:(lia) L1 a Ha).
  apply K0, Ha.
Qed.

(** ** Tokenizer *)

Local Open Scope string_scope.

Lemma drop_while_length p s : String.length (drop_while p s) <= String.length s.
Proof.
  induction s as [|c s IH]; simpl; [lia|]. destruct (p c); simpl; lia.
Qed.

Lemma findall_fuel n : forall m s,
  String.length s <= n -> String.length s <= m -> findall n s = findall m s.
Proof.
  induction n as [|n IH]; intros m s Hn Hm.
  - destruct s; [|simpl in Hn; lia]. destruct m; reflexivity.
  - destruct s as [|c rest]; [destruct m; reflexivity|].
    destruct m as [|m]; [simpl in Hm; lia|]. simpl in Hn, Hm. simpl.
    pose proof (drop_while_length is_digit rest).
    pose proof (drop_while_length is_alpha rest).
    destruct (is_digit c); [f_equal; apply IH; lia|].
    destruct (is_alpha c); [f_equal; apply IH; lia|].
    destruct (is_punct c); [f_equal|]; apply IH; lia.
Qed.

Lemma tokenize_cons c rest :
  tokenize (String c rest) =
  if is_digit c then
    String c (take_while is_digit rest) :: tokenize (drop_while is_digit rest)
  else if is_alpha c then
    String c (take_while is_alpha rest) :: tokenize (drop_while is_alpha rest)
  else if is_punct c then String c EmptyString :: tokenize rest
  else tokenize rest.
Proof.
  unfold tokenize. simpl.
  pose proof (drop_while_length is_digit rest).
  pose proof (drop_while_length is_alpha rest).
  destruct (is_digit c); [f_equal; apply findall_fuel; lia|].
  destruct (is_alpha c); [f_equal; apply findall_fuel; lia|].
  reflexivity.
Qed.

Lemma take_while_app p v rest :
  all_chars p v = true ->
  match rest with EmptyString => True | String c _ => p c = false end ->
  take_while p (v ++ rest) = v /\ drop_while p (v ++ rest) = rest.
Proof.
  intros Hv Hr. induction v as [|c v IH]; simpl in *.
  - destruct rest as [|c r]; simpl; [auto|]. rewrite Hr. auto.
  - apply andb_prop in Hv as [Hc Hv]. rewrite Hc.
    destruct (IH Hv) as [-> ->]. auto.
Qed.

Lemma alpha_not_digit c : is_alpha c = true -> is_digit c = false.
Proof.
  destruct c as [[] [] [] [] [] [] [] []]; intros H;
    try discriminate H; reflexivity.
Qed.

Lemma tokenize_atom v rest :
  isdigit v || isalpha v = true -> delimited rest ->
  tokenize (v ++ rest) = v :: tokenize rest.
Proof.
  intros Hv Hr. destruct v as [|c v]; [discriminate|].
  change (String c v ++ rest) with (String c (v ++ rest)).
  rewrite tokenize_cons.
  unfold isdigit, isalpha in Hv. simpl in Hv.
  destruct (is_digit c) eqn:Dc; simpl in Hv.
  - destruct (is_alpha c) eqn:Ac;
      [apply alpha_not_digit in Ac; congruence|].
    rewrite orb_false_r in Hv.
    destruct (take_while_app is_digit v rest Hv) as [-> ->]; [|reflexivity].
    destruct rest; [exact I|apply Hr].
  - destruct (is_alpha c) eqn:Ac; [|discriminate].
    simpl in Hv.
    destruct (take_while_app is_alpha v rest Hv) as [-> ->]; [|reflexivity].
    destruct rest; [exact I|apply Hr].
Qed.

Lemma append_assoc (a b c : string) : (a ++ b) ++ c = a ++ (b ++ c).
Proof.
  induction a as [|x a IH]; [reflexivity|].
  change (String x ((a ++ b) ++ c) = String x (a ++ (b ++ c))).
  f_equal. exact IH.
Qed.

Lemma append_nil_r (a : string) : a ++ "" = a.
Proof.
  induction a as [|x a IH]; [reflexivity|].
  change (String x (a ++ "") = String x a). f_equal. exact IH.
Qed.

Lemma tokenize_lparen rest : tokenize ("(" ++ rest) = "(" :: tokenize rest.
Proof. change ("(" ++ rest) with (String "("%char rest). apply tokenize_cons. Qed.

Lemma tokenize_rparen rest : tokenize (")" ++ rest) = ")" :: tokenize rest.
Proof. change (")" ++ rest) with (String ")"%char rest). apply tokenize_cons. Qed.

Lemma tokenize_plus rest : tokenize ("+" ++ rest) = "+" :: tokenize rest.
Proof. change ("+" ++ rest) with (String "+"%char rest). apply tokenize_cons. Qed.

Lemma tokenize_star rest : tokenize ("*" ++ rest) = "*" :: tokenize rest.
Proof. change ("*" ++ rest) with (String "*"%char rest). apply tokenize_cons. Qed.

Lemma tokenize_space rest : tokenize (" " ++ rest) = tokenize rest.
Proof. change (" " ++ rest) with (String " "%char rest). apply tokenize_cons. Qed.

Lemma tokenize_print_app (t : tree) : forall rest,
  shape t -> delimited rest ->
  tokenize (print_ast t ++ rest) = (flat t ++ tokenize rest)%list.
Proof.
  induction t as [v|v l IHl r IHr]; intros rest Hs Hr.
  - simpl. apply tokenize_atom; assumption.
  - destruct Hs as (Hv & Hl & Hr').
    cbn [print_ast flat]. rewrite !append_assoc.
    rewrite tokenize_lparen, IHl; [|exact Hl|split; reflexivity].
    rewrite tokenize_space.
    assert (Hop : tokenize (v ++ " " ++ print_ast r ++ ")" ++ rest)
                  = v :: tokenize (" " ++ print_ast r ++ ")" ++ rest))
      by (destruct Hv as [-> | ->]; [apply tokenize_plus|apply tokenize_star]).
    rewrite Hop, tokenize_space, IHr; [|exact Hr'|split; reflexivity].
    rewrite tokenize_rparen.
    cbn [app]. rewrite <- app_assoc. cbn [app]. rewrite <- app_assoc.
    reflexivity.
Qed.

Lemma tokenize_print (t : tree) : shape t -> tokenize (print_ast t) = flat t.
Proof.
  intros Hs. rewrite <- (append_nil_r (print_ast t)).
  rewrite tokenize_print_app; [|exact Hs|exact I].
  apply app_nil_r.
Qed.

(** ** Parser *)

Local Open Scope list_scope.

Lemma parse_factor_S tokens f i :
  parse_factor tokens (S f) i =
  match tokens !! i with
  | None => Raise IndexError
  | Some token =>
    if isdigit token || isalpha token then Ok (Leaf token, i + 1)
    else if String.eqb token "(" then
      '(node, j) ← parse_sum tokens f (i + 1);
      Ok (node, j + 1)
    else Raise (ValueError ("Unexpected token: " +:+ token))
  end.
Proof. reflexivity. Qed.

Lemma parse_term_S tokens f i :
  parse_term tokens (S f) i =
  ('(node, i) ← parse_factor tokens f i; term_loop tokens f node i).
Proof. reflexivity. Qed.

Lemma term_loop_S tokens f node i :
  term_loop tokens (S f) node i =
  if at_op tokens i "*" then
    '(rhs, i) ← parse_factor tokens f (i + 1);
    term_loop tokens f (Node "*" node rhs) i
  else Ok (node, i).
Proof. reflexivity. Qed.

Lemma parse_sum_S tokens f i :
  parse_sum tokens (S f) i =
  ('(node, i) ← parse_term tokens f i; sum_loop tokens f node i).
Proof. reflexivity. Qed.

Lemma sum_loop_S tokens f node i :
  sum_loop tokens (S f) node i =
  if at_op tokens i "+" then
    '(rhs, i) ← parse_term tokens f (i + 1);
    sum_loop tokens f (Node "+" node rhs) i
  else Ok (node, i).
Proof. reflexivity. Qed.

(** Every tree the parser returns has the parser's shape. *)
Lemma parse_shape_all tokens fuel :
  (forall i t j, parse_factor tokens fuel i = Ok (t, j) -> shape t) /\
  (forall i t j, parse_term tokens fuel i = Ok (t, j) -> shape t) /\
  (forall node i t j, shape node ->
                      term_loop tokens fuel node i = Ok (t, j) -> shape t) /\
  (forall i t j, parse_sum tokens fuel i = Ok (t, j) -> shape t) /\
  (forall node i t j, shape node ->
                      sum_loop tokens fuel node i = Ok (t, j) -> shape t).
Proof.
  induction fuel as [|f (IHf & IHt & IHtl & IHs & IHsl)].
  { split; [|split; [|split; [|split]]]; intros; discriminate. }
  split; [|split; [|split; [|split]]].
  - intros i t j H. rewrite parse_factor_S in H.
    destruct (tokens !! i) as [token|]; [|discriminate].
    destruct (isdigit token || isalpha token) eqn:Ea.
    { injection H as <- <-. exact Ea. }
    destruct (String.eqb token "("); [|discriminate].
    destruct (parse_sum tokens f (i + 1)) as [[node j']| |] eqn:E;
      cbn [mbind result_bind] in H; try discriminate H.
    injection H as <- <-. eauto.
  - intros i t j H. rewrite parse_term_S in H.
    destruct (parse_factor tokens f i) as [[node j']| |] eqn:E;
      cbn [mbind result_bind] in H; try discriminate H.
    eauto.
  - intros node i t j Hn H. rewrite term_loop_S in H.
    destruct (at_op tokens i "*"); [|injection H as <- <-; exact Hn].
    destruct (parse_factor tokens f (i + 1)) as [[rhs j']| |] eqn:E;
      cbn [mbind result_bind] in H; try discriminate H.
    eapply IHtl; [|exact H]. simpl. eauto.
  - intros i t j H. rewrite parse_sum_S in H.
    destruct (parse_term tokens f i) as [[node j']| |] eqn:E;
      cbn [mbind result_bind] in H; try discriminate H.
    eauto.
  - intros node i t j Hn H. rewrite sum_loop_S in H.
    destruct (at_op tokens i "+"); [|injection H as <- <-; exact Hn].
    destruct (parse_term tokens f (i + 1)) as [[rhs j']| |] eqn:E;
      cbn [mbind result_bind] in H; try discriminate H.
    eapply IHsl; [|exact H]. simpl. eauto.
Qed.

Lemma parse_shape tokens fuel t :
  parse_expression tokens fuel = Ok t -> shape t.
Proof.
  unfold parse_expression. intros H.
  destruct (parse_sum tokens fuel 0) as [[node j]| |] eqn:E;
    cbn [mbind result_bind] in H; try discriminate H.
  injection H as <-.
  destruct (parse_shape_all tokens fuel) as (_ & _ & _ & Hs & _).
  eapply Hs, E.
Qed.

Lemma need_pos t : 1 <= need t.
Proof. destruct t; simpl; lia. Qed.

Lemma at_op_Some tokens j v op :
  tokens !! j = Some v -> at_op tokens j op = String.eqb v op.
Proof.
  intros H. unfold at_op. rewrite H.
  apply lookup_lt_Some in H. apply Nat.ltb_lt in H. rewrite H. reflexivity.
Qed.

Lemma at_op_end tokens j op : length tokens <= j -> at_op tokens j op = false.
Proof.
  intros H. unfold at_op. apply Nat.ltb_ge in H. rewrite H. reflexivity.
Qed.

(** A group: [(], a factor, an operator, a factor, and then anything that
    is not an operator.  What follows is skipped unread. *)
Lemma parse_group tokens v l r i jl jr fuel :
  tokens !! i = Some "(" ->
  (forall f, need l <= f -> parse_factor tokens f (i + 1) = Ok (l, jl)) ->
  tokens !! jl = Some v -> v = "+" \/ v = "*" ->
  (forall f, need r <= f -> parse_factor tokens f (jl + 1) = Ok (r, jr)) ->
  at_op tokens jr "*" = false -> at_op tokens jr "+" = false ->
  need (Node v l r) <= fuel ->
  parse_factor tokens fuel i = Ok (Node v l r, jr + 1).
Proof.
  intros Hi Hl Hv Hop Hr Hs Hp Hf. simpl in Hf.
  pose proof (need_pos l). pose proof (need_pos r).
  destruct fuel as [|[|[|[|[|f]]]]]; try lia.
  rewrite parse_factor_S, Hi.
  change (isdigit "(" || isalpha "(") with false.
  change (String.eqb "(" "(") with true. cbn iota.
  rewrite parse_sum_S, parse_term_S, Hl by lia. cbn [mbind result_bind].
  rewrite term_loop_S, (at_op_Some _ _ _ _ Hv).
  destruct Hop as [-> | ->].
  - change (String.eqb "+" "*") with false. cbn iota. cbn [mbind result_bind].
    rewrite sum_loop_S, (at_op_Some _ _ _ _ Hv).
    change (String.eqb "+" "+") with true. cbn iota.
    rewrite parse_term_S, Hr by lia. cbn [mbind result_bind].
    rewrite term_loop_S, Hs. cbn [mbind result_bind].
    rewrite sum_loop_S, Hp. reflexivity.
  - change (String.eqb "*" "*") with true. cbn iota.
    rewrite Hr by lia. cbn [mbind result_bind].
    rewrite term_loop_S, Hs. cbn [mbind result_bind].
    rewrite sum_loop_S, Hp. reflexivity.
Qed.

Lemma parse_factor_flat (t : tree) :
  shape t ->
  forall pre post fuel, need t <= fuel ->
    parse_factor (pre ++ flat t ++ post) fuel (length pre)
    = Ok (t, length pre + length (flat t)).
Proof.
  induction t as [v|v l IHl r IHr]; intros Hs pre post fuel Hf.
  - destruct fuel as [|f]; [simpl in Hf; lia|].
    rewrite parse_factor_S. simpl in Hs. simpl.
    rewrite list_lookup_middle by reflexivity. rewrite Hs. reflexivity.
  - destruct Hs as (Hv & Hsl & Hsr).
    set (jl := length pre + 1 + length (flat l)).
    set (jr := jl + 1 + length (flat r)).
    replace (length pre + length (flat (Node v l r))) with (jr + 1)
      by (unfold jr, jl; simpl; rewrite !length_app; simpl;
          rewrite !length_app; simpl; lia).
    assert (E1 : pre ++ flat (Node v l r) ++ post
                 = (pre ++ ["("]) ++ flat l ++ (v :: flat r ++ ")" :: post)).
    { repeat (progress (simpl; rewrite <- ?app_assoc)). reflexivity. }
    assert (E2 : pre ++ flat (Node v l r) ++ post
                 = (pre ++ "(" :: flat l ++ [v]) ++ flat r ++ (")" :: post)).
    { repeat (progress (simpl; rewrite <- ?app_assoc)). reflexivity. }
    assert (E3 : pre ++ flat (Node v l r) ++ post
                 = (pre ++ "(" :: flat l) ++ v :: (flat r ++ ")" :: post)).
    { repeat (progress (simpl; rewrite <- ?app_assoc)). reflexivity. }
    assert (E4 : pre ++ flat (Node v l r) ++ post
                 = (pre ++ "(" :: flat l ++ v :: flat r) ++ ")" :: post).
    { repeat (progress (simpl; rewrite <- ?app_assoc)). reflexivity. }
    assert (Hclose : (pre ++ flat (Node v l r) ++ post) !! jr = Some ")").
    { rewrite E4. apply list_lookup_middle.
      unfold jr, jl. rewrite !length_app. simpl. rewrite length_app. simpl. lia. }
    apply parse_group with (jl := jl); auto.
    + simpl. apply list_lookup_middle. reflexivity.
    + intros f Hle. rewrite E1.
      replace (length pre + 1) with (length (pre ++ ["("]))
        by (rewrite length_app; reflexivity).
      rewrite IHl by auto. f_equal. f_equal.
      unfold jl. rewrite length_app. reflexivity.
    + rewrite E3. apply list_lookup_middle.
      unfold jl. rewrite length_app. simpl. lia.
    + intros f Hle. rewrite E2.
      replace (jl + 1) with (length (pre ++ "(" :: flat l ++ [v]))
        by (unfold jl; rewrite !length_app; simpl; rewrite length_app; simpl; lia).
      rewrite IHr by auto. f_equal. f_equal.
      unfold jr, jl. rewrite !length_app. simpl. rewrite length_app. simpl. lia.
    + rewrite (at_op_Some _ _ _ _ Hclose). reflexivity.
    + rewrite (at_op_Some _ _ _ _ Hclose). reflexivity.
Qed.

Lemma parse_top tokens t j k fuel :
  (forall f, k <= f -> parse_factor tokens f 0 = Ok (t, j)) ->
  at_op tokens j "*" = false -> at_op tokens j "+" = false ->
  1 <= k -> k + 2 <= fuel ->
  parse_expression tokens fuel = Ok t.
Proof.
  intros Hf Hs Hp Hk Hfuel.
  destruct fuel as [|[|[|f]]]; try lia.
  unfold parse_expression.
  rewrite parse_sum_S, parse_term_S, Hf by lia. cbn [mbind result_bind].
  rewrite term_loop_S, Hs. cbn [mbind result_bind].
  rewrite sum_loop_S, Hp. reflexivity.
Qed.

Lemma parse_flat (t : tree) fuel :
  shape t -> need t + 2 <= fuel -> parse_expression (flat t) fuel = Ok t.
Proof.
  intros Hs Hf.
  apply parse_top with (j := length (flat t)) (k := need t);
    auto using at_op_end, need_pos.
  intros f Hle.
  pose proof (parse_factor_flat t Hs [] [] f Hle) as H.
  simpl in H. rewrite app_nil_r in H. exact H.
Qed.

Lemma parse_unclosed v l r fuel :
  shape (Node v l r) -> need (Node v l r) + 2 <= fuel ->
  parse_expression (unclosed v l r) fuel = Ok (Node v l r).
Proof.
  intros (Hv & Hl & Hr) Hf. unfold unclosed.
  set (jl := 1 + length (flat l)).
  set (jr := jl + 1 + length (flat r)).
  assert (Hlen : length ("(" :: flat l ++ v :: flat r) = jr)
    by (unfold jr, jl; simpl; rewrite length_app; simpl; lia).
  apply parse_top with (j := jr + 1) (k := need (Node v l r));
    try (apply at_op_end; lia); auto using need_pos.
  intros f Hle. apply parse_group with (jl := jl); auto.
  - intros f' Hle'.
    pose proof (parse_factor_flat l Hl ["("] (v :: flat r) f' Hle') as H.
    simpl in H. exact H.
  - change ("(" :: flat l ++ v :: flat r)
      with (("(" :: flat l) ++ v :: flat r).
    apply list_lookup_middle. reflexivity.
  - intros f' Hle'.
    pose proof (parse_factor_flat r Hr ("(" :: flat l ++ [v]) [] f' Hle') as H.
    rewrite app_nil_r in H. simpl in H.
    rewrite <- app_assoc in H. simpl in H.
    replace (jl + 1) with (S (length (flat l ++ [v])))
      by (unfold jl; rewrite length_app; simpl; lia).
    rewrite H. f_equal. f_equal. unfold jr, jl.
    rewrite length_app. simpl. lia.
  - apply at_op_end. lia.
  - apply at_op_end. lia.
Qed.

Lemma tokenize_print_unclosed v l r :
  shape (Node v l r) -> tokenize (print_unclosed v l r) = unclosed v l r.
Proof.
  intros (Hv & Hl & Hr). unfold print_unclosed, unclosed.
  rewrite tokenize_lparen, tokenize_print_app; [|exact Hl|split; reflexivity].
  rewrite tokenize_space.
  assert (Hop : tokenize (v +:+ " " +:+ print_ast r)
                = v :: tokenize (" " +:+ print_ast r))
    by (destruct Hv as [-> | ->]; [apply tokenize_plus|apply tokenize_star]).
  rewrite Hop, tokenize_space, tokenize_print by exact Hr. reflexivity.
Qed.

(** ** Cost under the rules that do not expand *)

Lemma contract_cases v l r :
  contract v l r = l \/ contract v l r = r \/
  (exists s, contract v l r = Leaf s) \/ contract v l r = expand v l r.
Proof.
  unfold contract.
  repeat match goal with
  | |- context [if ?b then _ else _] => destruct b
  end; eauto.
Qed.

Lemma expand_cases v l r :
  expand v l r = Node v l r \/
  (v = "*" /\ exists b c, r = Node "+" b c /\
                          expand v l r = Node "+" (Node "*" l b) (Node "*" l c)).
Proof.
  unfold expand. destruct r as [w|w b c]; [auto|].
  destruct (String.eqb v "*") eqn:Ev; [|auto].
  destruct (String.eqb w "+") eqn:Ew; [|auto].
  apply String.eqb_eq in Ev as ->. apply String.eqb_eq in Ew as ->.
  right. eauto.
Qed.

Lemma contract_no_sum v l r :
  has_sum (Node v l r) = false -> has_sum (contract v l r) = false.
Proof.
  intros H. assert (H' := H). simpl in H'.
  apply orb_false_elim in H' as [H' Hr]. apply orb_false_elim in H' as [Hv Hl].
  destruct (contract_cases v l r) as [-> | [-> | [[s ->] | ->]]]; auto.
  destruct (expand_cases v l r) as [-> | (_ & b & c & -> & _)]; [exact H|].
  discriminate Hr.
Qed.

Lemma step_no_sum t t' : step t t' -> has_sum t = false -> has_sum t' = false.
Proof.
  induction 1 as [v l r|v l l' r _ IH|v l r r' _ IH]; intros H.
  - apply contract_no_sum, H.
  - simpl in *. apply orb_false_elim in H as [H Hr].
    apply orb_false_elim in H as [Hv Hl]. rewrite Hv, Hr, IH; auto.
  - simpl in *. apply orb_false_elim in H as [H Hr].
    apply orb_false_elim in H as [Hv Hl]. rewrite Hv, Hl, IH; auto.
Qed.

Lemma contract_no_expansion v l r :
  sum_under_product (Node v l r) = false ->
  sum_under_product (contract v l r) = false /\
  cost (contract v l r) <= cost (Node v l r).
Proof.
  intros H. assert (H' := H). simpl in H'.
  apply orb_false_elim in H' as [H' Hr]. apply orb_false_elim in H' as [Hv Hl].
  destruct (contract_cases v l r) as [-> | [-> | [[s ->] | ->]]];
    try (simpl; split; [auto|lia]).
  destruct (expand_cases v l r) as [-> | (-> & b & c & -> & _)];
    [split; [exact H|lia]|].
  discriminate Hv.
Qed.

Lemma step_no_expansion t t' :
  step t t' -> sum_under_product t = false ->
  sum_under_product t' = false /\ cost t' <= cost t.
Proof.
  induction 1 as [v l r|v l l' r _ IH|v l r r' Hs IH]; intros H.
  - apply contract_no_expansion, H.
  - simpl in *. apply orb_false_elim in H as [H Hr].
    apply orb_false_elim in H as [Hv Hl]. destruct (IH Hl) as [-> Hc].
    rewrite Hv, Hr. split; [reflexivity|lia].
  - simpl in *. apply orb_false_elim in H as [H Hr].
    apply orb_false_elim in H as [Hv Hl]. destruct (IH Hr) as [-> Hc].
    rewrite Hl. split; [|lia].
    destruct (String.eqb v "*"); [|reflexivity]. simpl in Hv.
    rewrite (step_no_sum _ _ Hs Hv). reflexivity.
Qed.

Lemma red_no_expansion t t' :
  red t t' -> sum_under_product t = false ->
  sum_under_product t' = false /\ cost t' <= cost t.
Proof.
  induction 1 as [t|t u w Hs _ IH]; intros H; [split; [exact H|lia]|].
  destruct (step_no_expansion _ _ Hs H) as [Hu Hc].
  destruct (IH Hu) as [Hw Hc']. split; [exact Hw|lia].
Qed.

(** ** The rules of the code are the rule list of the specification *)

Lemma root_literal s t :
  shape t -> isdigit s || isalpha s = true ->
  String.eqb (root t) s = is_literal s t.
Proof.
  intros Hs Ha. destruct t as [w|w l r]; [reflexivity|].
  destruct Hs as ([-> | ->] & _); cbn [root is_literal];
    apply String.eqb_neq; intros <-; discriminate Ha.
Qed.

(** On the trees of the parser the rules of the code are the rules of
    the specification, in the same order. *)
Lemma contract_spec_contract v l r :
  shape (Node v l r) -> contract v l r = spec_contract v l r.
Proof.
  intros (Hv & Hl & Hr).
  unfold contract, spec_contract, spec_priority, first_match,
    spec_add_zero_right, spec_add_zero_left, spec_mul_one_right,
    spec_mul_one_left, spec_mul_zero, spec_fold, spec_distribute, expand.
  rewrite !(String.eqb_sym "0").
  rewrite !(root_literal "0"), !(root_literal "1") by (assumption || reflexivity).
  destruct Hv as [-> | ->];
    rewrite ?String.eqb_refl;
    change (String.eqb "+" "*") with false;
    change (String.eqb "*" "+") with false;
    cbn [andb].
  - destruct (is_literal "0" r); [reflexivity|].
    destruct (is_literal "0" l); [reflexivity|].
    destruct l as [a|a l1 l2], r as [b|b r1 r2]; cbn [root];
      try (destruct Hl as ([-> | ->] & _));
      try (destruct Hr as ([-> | ->] & _));
      try reflexivity;
      try (destruct (isdigit a); reflexivity);
      try (destruct (isdigit b); reflexivity).
    destruct (isdigit a && isdigit b); reflexivity.
  - destruct (is_literal "1" r); [reflexivity|].
    destruct (is_literal "1" l); [reflexivity|].
    destruct (is_literal "0" l || is_literal "0" r); [reflexivity|].
    destruct l as [a|a l1 l2], r as [b|b r1 r2]; cbn [root];
      try (destruct Hl as ([-> | ->] & _));
      try (destruct Hr as ([-> | ->] & _));
      try reflexivity;
      try (destruct (isdigit a); reflexivity);
      try (destruct (isdigit b); reflexivity).
    destruct (isdigit a && isdigit b); reflexivity.
Qed.

(** ** More fuel changes no outcome

    A run that ends, with a value or with an exception, ends the same way
    with more fuel: the fuel only bounds how far the model follows the
    program. *)

Lemma bind_mono {A B : Type} (m1 m2 : result A) (k1 k2 : A -> result B) :
  (settled m1 -> m2 = m1) ->
  (forall a, m1 = Ok a -> settled (k1 a) -> k2 a = k1 a) ->
  settled (m1 ≫= k1) -> m2 ≫= k2 = m1 ≫= k1.
Proof.
  intros Hm Hk Hs. destruct m1 as [a|e|].
  - rewrite Hm by discriminate. apply Hk; [reflexivity|exact Hs].
  - rewrite Hm by discriminate. reflexivity.
  - exfalso. apply Hs. reflexivity.
Qed.

Lemma bind_same {A B : Type} (m : result A) (k1 k2 : A -> result B) :
  (forall a, m = Ok a -> settled (k1 a) -> k2 a = k1 a) ->
  settled (m ≫= k1) -> m ≫= k2 = m ≫= k1.
Proof. intros Hk. apply bind_mono; auto. Qed.

Lemma parse_mono tokens n :
  (forall m i, n <= m -> settled (parse_factor tokens n i) ->
               parse_factor tokens m i = parse_factor tokens n i) /\
  (forall m i, n <= m -> settled (parse_term tokens n i) ->
               parse_term tokens m i = parse_term tokens n i) /\
  (forall m node i, n <= m -> settled (term_loop tokens n node i) ->
                    term_loop tokens m node i = term_loop tokens n node i) /\
  (forall m i, n <= m -> settled (parse_sum tokens n i) ->
               parse_sum tokens m i = parse_sum tokens n i) /\
  (forall m node i, n <= m -> settled (sum_loop tokens n node i) ->
                    sum_loop tokens m node i = sum_loop tokens n node i).
Proof.
  induction n as [|n (IHf & IHt & IHtl & IHs & IHsl)].
  { split; [|split; [|split; [|split]]]; intros; exfalso; auto. }
  split; [|split; [|split; [|split]]].
  - intros [|m] i Hle Hs; [lia|]. rewrite !parse_factor_S in *.
    destruct (tokens !! i) as [token|]; [|reflexivity].
    destruct (isdigit token || isalpha token); [reflexivity|].
    destruct (String.eqb token "("); [|reflexivity].
    apply bind_mono; [apply IHs; lia| |exact Hs]. intros [node j] _ _. reflexivity.
  - intros [|m] i Hle Hs; [lia|]. rewrite !parse_term_S in *.
    apply bind_mono; [apply IHf; lia| |exact Hs].
    intros [node j] _ Hk. apply IHtl; [lia|exact Hk].
  - intros [|m] node i Hle Hs; [lia|]. rewrite !term_loop_S in *.
    destruct (at_op tokens i "*"); [|reflexivity].
    apply bind_mono; [apply IHf; lia| |exact Hs].
    intros [rhs j] _ Hk. apply IHtl; [lia|exact Hk].
  - intros [|m] i Hle Hs; [lia|]. rewrite !parse_sum_S in *.
    apply bind_mono; [apply IHt; lia| |exact Hs].
    intros [node j] _ Hk. apply IHsl; [lia|exact Hk].
  - intros [|m] node i Hle Hs; [lia|]. rewrite !sum_loop_S in *.
    destruct (at_op tokens i "+"); [|reflexivity].
    apply bind_mono; [apply IHt; lia| |exact Hs].
    intros [rhs j] _ Hk. apply IHsl; [lia|exact Hk].
Qed.

Lemma parse_expression_mono tokens n m :
  n <= m -> settled (parse_expression tokens n) ->
  parse_expression tokens m = parse_expression tokens n.
Proof.
  intros Hle Hs. unfold parse_expression in *.
  apply bind_mono; [|intros [node j] _ _; reflexivity|exact Hs].
  apply (parse_mono tokens n), Hle.
Qed.

Lemma rewrite_mono n : forall m (h : heap) node,
  n <= m -> settled (rewrite n h node) -> rewrite m h node = rewrite n h node.
Proof.
  induction n as [|n IH]; intros m h node Hle Hs; [exfalso; auto|].
  destruct m as [|m]; [lia|]. rewrite !rewrite_unfold in *.
  apply bind_same; [|exact Hs]. intros c _ Hs1.
  destruct (left c) as [l|]; [|reflexivity].
  apply bind_mono; [apply IH; lia| |exact Hs1]. intros [l' h1] _ Hs2.
  apply bind_same; [|exact Hs2]. intros h1' _ Hs3.
  apply bind_same; [|exact Hs3]. intros c2 _ Hs4.
  apply bind_same; [|exact Hs4]. intros r _ Hs5.
  apply bind_mono; [apply IH; lia| |exact Hs5]. intros [r' h2] _ Hs6.
  reflexivity.
Qed.

Lemma deepcopy_mono n : forall m memo (h : heap) x,
  n <= m -> settled (deepcopy n memo h x) ->
  deepcopy m memo h x = deepcopy n memo h x.
Proof.
  induction n as [|n IH]; intros m memo h x Hle Hs; [exfalso; auto|].
  destruct m as [|m]; [lia|]. rewrite !deepcopy_unfold in *.
  destruct (memo !! x); [reflexivity|].
  apply bind_same; [|exact Hs]. intros c _ Hs1.
  unfold new_empty in *. cbv zeta in *.
  apply bind_mono; [| |exact Hs1].
  { destruct (left c) as [l|]; [|reflexivity]. intros Hs2.
    apply bind_mono; [apply IH; lia| |exact Hs2]. intros [[? ?] ?] _ _.
    reflexivity. }
  intros [[lo memo2] h2] _ Hs2.
  apply bind_mono; [| |exact Hs2].
  { destruct (right c) as [r|]; [|reflexivity]. intros Hs3.
    apply bind_mono; [apply IH; lia| |exact Hs3]. intros [[? ?] ?] _ _.
    reflexivity. }
  intros [[ro memo3] h3] _ _. reflexivity.
Qed.

Lemma node_eq_mono n : forall m (h : heap) a b,
  n <= m -> settled (node_eq n h a b) -> node_eq m h a b = node_eq n h a b.
Proof.
  induction n as [|n IH]; intros m h a b Hle Hs; [exfalso; auto|].
  destruct m as [|m]; [lia|]. simpl in *.
  apply bind_same; [|exact Hs]. intros ca _ Hs1.
  apply bind_same; [|exact Hs1]. intros cb _ Hs2.
  destruct (String.eqb (value ca) (value cb)); [|reflexivity].
  cbn [py_and] in *.
  apply bind_mono; [| |exact Hs2].
  { destruct (left ca), (left cb); try reflexivity. apply IH. lia. }
  intros [|] _ Hs3; [|reflexivity]. cbn [py_and] in *.
  destruct (right ca), (right cb); try reflexivity. apply IH; [lia|exact Hs3].
Qed.

Lemma cost_mono n : forall m (h : heap) a,
  n <= m -> settled (Obj.cost n h a) -> Obj.cost m h a = Obj.cost n h a.
Proof.
  induction n as [|n IH]; intros m h a Hle Hs; [exfalso; auto|].
  destruct m as [|m]; [lia|]. simpl in *.
  apply bind_same; [|exact Hs]. intros c _ Hs1.
  destruct (left c) as [l|]; [|reflexivity].
  apply bind_mono; [apply IH; lia| |exact Hs1]. intros cl _ Hs2.
  apply bind_same; [|exact Hs2]. intros r _ Hs3.
  apply bind_mono; [apply IH; lia| |exact Hs3]. reflexivity.
Qed.

Lemma print_ast_mono n : forall m (h : heap) a,
  n <= m -> settled (Obj.print_ast n h a) ->
  Obj.print_ast m h a = Obj.print_ast n h a.
Proof.
  induction n as [|n IH]; intros m h a Hle Hs; [exfalso; auto|].
  destruct m as [|m]; [lia|]. simpl in *.
  apply bind_same; [|exact Hs]. intros c _ Hs1.
  destruct (left c) as [l|]; [|reflexivity].
  apply bind_mono; [apply IH; lia| |exact Hs1]. intros pl _ Hs2.
  apply bind_same; [|exact Hs2]. intros r _ Hs3.
  apply bind_mono; [apply IH; lia| |exact Hs3]. reflexivity.
Qed.

Lemma sat_loop_mono n : forall n' fuel fuel' (h : heap) prev current,
  n <= n' -> fuel <= fuel' -> settled (sat_loop n fuel h prev current) ->
  sat_loop n' fuel' h prev current = sat_loop n fuel h prev current.
Proof.
  induction n as [|n IH]; intros n' fuel fuel' h prev current Hn Hf Hs;
    [exfalso; auto|].
  destruct n' as [|n']; [lia|]. rewrite !sat_loop_unfold in *.
  apply bind_mono; [| |exact Hs].
  { unfold differs. destruct prev as [p|]; [|reflexivity]. intros Hs1.
    apply bind_mono; [apply node_eq_mono; exact Hf| |exact Hs1]. reflexivity. }
  intros [|] _ Hs1; [|reflexivity].
  apply bind_mono; [apply deepcopy_mono; exact Hf| |exact Hs1].
  intros [[p memo] h1] _ Hs2.
  apply bind_mono; [apply rewrite_mono; exact Hf| |exact Hs2].
  intros [c' h2] _ Hs3. apply IH; [lia|exact Hf|exact Hs3].
Qed.

Lemma saturation_mono n m (h : heap) ast :
  n <= m -> settled (saturation n h ast) -> saturation m h ast = saturation n h ast.
Proof.
  intros Hle Hs. unfold saturation in *.
  apply bind_mono; [apply deepcopy_mono; exact Hle| |exact Hs].
  intros [[current memo] h1] _ Hs1. apply sat_loop_mono; auto.
Qed.

Lemma run_mono n m expr :
  n <= m -> settled (run n expr) -> run m expr = run n expr.
Proof.
  intros Hle Hs. unfold run in *.
  apply bind_mono; [apply parse_expression_mono; exact Hle| |exact Hs].
  intros ast _ Hs1. destruct (store ast []) as [a h].
  apply bind_mono; [apply print_ast_mono; exact Hle| |exact Hs1].
  intros po _ Hs2.
  apply bind_mono; [apply saturation_mono; exact Hle| |exact Hs2].
  intros [opt h'] _ Hs3.
  apply bind_mono; [apply print_ast_mono; exact Hle| |exact Hs3].
  intros pn _ Hs4.
  apply bind_mono; [apply cost_mono; exact Hle| |exact Hs4].
  intros cb _ Hs5.
  apply bind_mono; [apply cost_mono; exact Hle| |exact Hs5].
  reflexivity.
Qed.

(** * The claims *)

Lemma never_raises {A : Type} (f : nat -> result A) :
  (forall n m, n <= m -> settled (f n) -> f m = f n) ->
  forall n v, f n = Ok v -> forall m e, f m <> Raise e.
Proof.
  intros Hmono n v Hn m e Hm.
  destruct (Nat.le_gt_cases n m) as [Hle|Hgt].
  - rewrite (Hmono n m Hle) in Hm; [congruence|]. unfold settled. congruence.
  - rewrite (Hmono m n) in Hn; [congruence|lia|]. unfold settled. congruence.
Qed.

(** ** C1 *)

(** C1, as stated, fails: the input "(a+b", whose group is never closed,
    is parsed to the tree (a + b); whatever the fuel, no exception is
    raised. *)
Lemma unclosed_paren_counterexample :
  parse_expression (tokenize "(a+b") 7 = Ok (Node "+" (Leaf "a") (Leaf "b")) /\
  forall fuel e, parse_expression (tokenize "(a+b") fuel <> Raise e.
Proof.
  split; [reflexivity|].
  apply (never_raises (parse_expression (tokenize "(a+b"))) with (n := 7)
    (v := Node "+" (Leaf "a") (Leaf "b")); [|reflexivity].
  intros n m. apply parse_expression_mono.
Qed.

(** C1, amended: a group that is never closed is accepted.  For every
    operator tree the parser can build, its printed text without the
    closing parenthesis parses to that same tree: the parser steps over
    the position after a group without reading it. *)
Theorem unclosed_group_is_accepted (v : string) (l r : tree) (fuel : nat) :
  shape (Node v l r) -> need (Node v l r) + 2 <= fuel ->
  parse_expression (tokenize (print_unclosed v l r)) fuel = Ok (Node v l r).
Proof.
  intros Hs Hf. rewrite tokenize_print_unclosed by exact Hs.
  apply parse_unclosed; assumption.
Qed.

Lemma unclosed_group_is_accepted_witness :
  (shape (Node "+" (Leaf "a") (Leaf "b")) /\
   need (Node "+" (Leaf "a") (Leaf "b")) + 2 <= 7) /\
  parse_expression
    (tokenize (print_unclosed "+" (Leaf "a") (Leaf "b"))) 7
  = Ok (Node "+" (Leaf "a") (Leaf "b")).
Proof.
  assert (Hs : shape (Node "+" (Leaf "a") (Leaf "b")))
    by (simpl; repeat split; auto).
  assert (Hf : need (Node "+" (Leaf "a") (Leaf "b")) + 2 <= 7)
    by (simpl; lia).
  split; [split; assumption|].
  apply (unclosed_group_is_accepted "+" (Leaf "a") (Leaf "b") 7 Hs Hf).
Defined.

(** ** C2 *)




(** ** C3 *)

(** C3, as stated, fails on the two costs: for "a*(b+c)" the optimized
    tree prints as claimed, but it has 7 nodes, not 5, and the parsed tree
    has 5 nodes, not 4. *)
Lemma distributive_scenario_counterexample :
  exists r, run 30 "a*(b+c)" = Ok r /\
            optimized r = "((a * b) + (a * c))"%string /\
            cost_after r <> 5 /\ cost_before r <> 4.
Proof.
  eexists. split; [vm_compute; reflexivity|].
  split; [reflexivity|]. split; discriminate.
Qed.

(** C3, amended: for "a*(b+c)" the pipeline prints the parsed tree as
    "(a * (b + c))" with cost 5 and the saturated tree as
    "((a * b) + (a * c))" with cost 7. *)
Theorem distributive_scenario (fuel : nat) :
  30 <= fuel ->
  run fuel "a*(b+c)"
  = Ok (mkReport "(a * (b + c))" "((a * b) + (a * c))" 5 7).
Proof.
  intros Hf. rewrite (run_mono 30 fuel _ Hf); [vm_compute; reflexivity|].
  vm_compute. discriminate.
Qed.

Lemma distributive_scenario_witness :
  30 <= 31 /\
  run 31 "a*(b+c)" = Ok (mkReport "(a * (b + c))" "((a * b) + (a * c))" 5 7).
Proof.
  assert (H : 30 <= 31) by lia.
  split; [exact H|]. apply (distributive_scenario 31 H).
Defined.

(** ** C4 *)

(** C4, as stated, fails: the tree of "p*q*((b+c)*1)" has no [*] node
    whose right child is a [+] node, yet saturation takes its cost from
    9 to 11: the sum reaches the right-hand side of the product once
    [x * 1 -> x] has fired. *)
Lemma cost_monotonicity_counterexample :
  exists t r,
    parse_expression (tokenize "p*q*((b+c)*1)") 12 = Ok t /\
    product_over_sum t = false /\
    run 40 "p*q*((b+c)*1)" = Ok r /\
    cost_before r = 9 /\ cost_after r = 11.
Proof.
  eexists _, _. split; [vm_compute; reflexivity|].
  split; [reflexivity|]. split; [vm_compute; reflexivity|].
  split; reflexivity.
Qed.

(** C4, amended: for every parsed tree in which no [+] node occurs
    anywhere inside the right operand of a [*] node, the cost of the
    saturated tree is at most the cost of the tree. *)
Theorem cost_monotone_without_sum_under_product
  (tokens : list string) (pf : nat) (t : tree) (h0 : heap) (a : nat)
  (h : heap) (fuel : nat) :
  parse_expression tokens pf = Ok t -> sum_under_product t = false ->
  store t h0 = (a, h) -> weight t + 2 <= fuel ->
  exists r h' s,
    saturation fuel h a = Ok (r, h') /\ repr h' r s /\
    Obj.cost fuel h' a = Ok (cost t) /\ Obj.cost fuel h' r = Ok (cost s) /\
    cost s <= cost t.
Proof.
  intros Hp Hns Hst Hf.
  pose proof (parse_shape _ _ _ Hp) as Hs.
  destruct (store_spec _ _ _ _ Hst) as [_ Ha].
  destruct (saturation_spec fuel h a t Ha Hs Hf)
    as (r & h' & s & E & Rs & D & _ & _).
  pose proof (saturation_frame _ _ _ _ _ E) as K.
  pose proof (red_weight_le _ _ D) as W.
  destruct (red_no_expansion _ _ D Hns) as [_ Hc].
  exists r, h', s. split; [exact E|]. split; [exact Rs|].
  split; [apply cost_spec; [eapply repr_keeps; eauto|lia]|].
  split; [apply cost_spec; [exact Rs|lia]|exact Hc].
Qed.

Lemma cost_monotone_without_sum_under_product_witness :
  (parse_expression (tokenize "x+0") 5 = Ok demo_sum /\
   sum_under_product demo_sum = false /\
   store demo_sum [] = (2, snd (store demo_sum [])) /\
   weight demo_sum + 2 <= 10) /\
  exists r h' s,
    saturation 10 (snd (store demo_sum [])) 2 = Ok (r, h') /\ repr h' r s /\
    Obj.cost 10 h' 2 = Ok (cost demo_sum) /\ Obj.cost 10 h' r = Ok (cost s) /\
    cost s <= cost demo_sum.
Proof.
  assert (H1 : parse_expression (tokenize "x+0") 5 = Ok demo_sum) by reflexivity.
  assert (H2 : sum_under_product demo_sum = false) by reflexivity.
  assert (H3 : store demo_sum [] = (2, snd (store demo_sum []))) by reflexivity.
  assert (H4 : weight demo_sum + 2 <= 10) by (simpl; lia).
  split; [repeat split; assumption|].
  apply (cost_monotone_without_sum_under_product _ _ _ _ _ _ _ H1 H2 H3 H4).
Defined.

(** ** C5 *)

(** C5: for every tree produced by the parser the saturation driver
    returns; fuel [weight t + 2], which also bounds the number of passes,
    is enough, and the tree returned is a fixpoint of the rules. *)
Theorem saturation_terminates
  (tokens : list string) (pf : nat) (t : tree) (h0 : heap) (a : nat)
  (h : heap) (fuel : nat) :
  parse_expression tokens pf = Ok t -> store t h0 = (a, h) ->
  weight t + 2 <= fuel ->
  exists r h' s, saturation fuel h a = Ok (r, h') /\ repr h' r s /\ normal s.
Proof.
  intros Hp Hst Hf.
  pose proof (parse_shape _ _ _ Hp) as Hs.
  destruct (store_spec _ _ _ _ Hst) as [_ Ha].
  destruct (saturation_spec fuel h a t Ha Hs Hf)
    as (r & h' & s & E & Rs & _ & Ns & _).
  exists r, h', s. auto.
Qed.

Lemma saturation_terminates_witness :
  (parse_expression (tokenize "a*(b+c)") 8 = Ok demo_product /\
   store demo_product [] = (4, snd (store demo_product [])) /\
   weight demo_product + 2 <= 23) /\
  exists r h' s,
    saturation 23 (snd (store demo_product [])) 4 = Ok (r, h') /\
    repr h' r s /\ normal s.
Proof.
  assert (H1 : parse_expression (tokenize "a*(b+c)") 8 = Ok demo_product)
    by reflexivity.
  assert (H2 : store demo_product [] = (4, snd (store demo_product [])))
    by reflexivity.
  assert (H3 : weight demo_product + 2 <= 23) by (simpl; lia).
  split; [repeat split; assumption|].
  apply (saturation_terminates _ _ _ _ _ _ _ H1 H2 H3).
Defined.

(** ** C6 *)

(** C6: saturating the saturated tree of a parsed input returns a tree
    that [__eq__] finds equal to it. *)
Theorem saturation_idempotent
  (tokens : list string) (pf : nat) (t : tree) (h0 : heap) (a : nat)
  (h : heap) (fuel : nat) :
  parse_expression tokens pf = Ok t -> store t h0 = (a, h) ->
  weight t + 2 <= fuel ->
  exists r1 h1 r2 h2,
    saturation fuel h a = Ok (r1, h1) /\
    saturation fuel h1 r1 = Ok (r2, h2) /\
    node_eq fuel h2 r2 r1 = Ok true /\
    exists s, repr h2 r1 s /\ repr h2 r2 s.
Proof.
  intros Hp Hst Hf.
  pose proof (parse_shape _ _ _ Hp) as Hs.
  destruct (store_spec _ _ _ _ Hst) as [_ Ha].
  destruct (saturation_spec fuel h a t Ha Hs Hf)
    as (r1 & h1 & s & E1 & R1 & D1 & N1 & S1).
  pose proof (red_weight_le _ _ D1) as W1.
  destruct (saturation_spec fuel h1 r1 s R1 S1 ltac:(lia))
    as (r2 & h2 & s2 & E2 & R2 & D2 & _ & _).
  assert (s2 = s) by (apply normal_red; assumption). subst s2.
  pose proof (repr_keeps _ _ _ _ (saturation_frame _ _ _ _ _ E2) R1) as R1'.
  destruct (node_eq_spec fuel h2 r2 r1 s s R2 R1' ltac:(lia))
    as (res & E & Hres).
  assert (res = true) by (apply Hres; reflexivity). subst res.
  exists r1, h1, r2, h2. split; [exact E1|]. split; [exact E2|].
  split; [exact E|]. exists s. auto.
Qed.

Lemma saturation_idempotent_witness :
  (parse_expression (tokenize "a*(b+c)") 8 = Ok demo_product /\
   store demo_product [] = (4, snd (store demo_product [])) /\
   weight demo_product + 2 <= 23) /\
  exists r1 h1 r2 h2,
    saturation 23 (snd (store demo_product [])) 4 = Ok (r1, h1) /\
    saturation 23 h1 r1 = Ok (r2, h2) /\
    node_eq 23 h2 r2 r1 = Ok true /\
    exists s, repr h2 r1 s /\ repr h2 r2 s.
Proof.
  assert (H1 : parse_expression (tokenize "a*(b+c)") 8 = Ok demo_product)
    by reflexivity.
  assert (H2 : store demo_product [] = (4, snd (store demo_product [])))
    by reflexivity.
  assert (H3 : weight demo_product + 2 <= 23) by (simpl; lia).
  split; [repeat split; assumption|].
  apply (saturation_idempotent _ _ _ _ _ _ _ H1 H2 H3).
Defined.

(** ** C7 *)

(** C7: for every tree [t] produced by the parser, tokenizing and parsing
    the printed form of [t] gives [t] back; the printed form is what
    [print_ast] returns on the objects of [t], wherever they are stored. *)
Theorem print_parse_roundtrip
  (tokens : list string) (pf : nat) (t : tree) (fuel : nat) :
  parse_expression tokens pf = Ok t -> need t + 2 <= fuel ->
  parse_expression (tokenize (print_ast t)) fuel = Ok t /\
  forall h0 : heap,
    Obj.print_ast (weight t) (snd (store t h0)) (fst (store t h0))
    = Ok (print_ast t).
Proof.
  intros Hp Hf. pose proof (parse_shape _ _ _ Hp) as Hs. split.
  - rewrite tokenize_print by exact Hs. apply parse_flat; assumption.
  - intros h0. destruct (store t h0) as [a h] eqn:E.
    destruct (store_spec _ _ _ _ E) as [_ Ha].
    apply print_ast_spec; [exact Ha|lia].
Qed.

Lemma print_parse_roundtrip_witness :
  (parse_expression (tokenize "a*(b+c)") 8 = Ok demo_product /\
   need demo_product + 2 <= 11) /\
  parse_expression (tokenize (print_ast demo_product)) 11 = Ok demo_product /\
  forall h0 : heap,
    Obj.print_ast (weight demo_product) (snd (store demo_product h0))
      (fst (store demo_product h0))
    = Ok (print_ast demo_product).
Proof.
  assert (H1 : parse_expression (tokenize "a*(b+c)") 8 = Ok demo_product)
    by reflexivity.
  assert (H2 : need demo_product + 2 <= 11) by (simpl; lia).
  split; [split; assumption|].
  apply (print_parse_roundtrip _ _ _ _ H1 H2).
Defined.

(** ** C8 *)

(** C8: the call of [rewrite] at an operator node first rewrites the left
    child and assigns it, then the right child and assigns it; what it
    returns is what the rules return on the node so updated, which reads
    as the replacement of the first rule of the specification's list
    that matches the rewritten children [tl'] and [tr'], and is the node
    itself, in the store as the two assignments left it, when no rule
    matches. *)
Theorem rewrite_children_then_first_rule
  (h : heap) (node : nat) (v : string) (l r : nat) (tl tr : tree)
  (fuel : nat) :
  cell h node = Some (mkNode v (Some l) (Some r)) ->
  repr h l tl -> repr h r tr -> shape (Node v tl tr) ->
  weight (Node v tl tr) <= S fuel ->
  exists l' h1 r' h2 tl' tr' res h3,
    let h2' := <[node := Some (mkNode v (Some l') (Some r'))]> h2 in
    rewrite fuel h l = Ok (l', h1) /\
    rewrite fuel (<[node := Some (mkNode v (Some l') (Some r))]> h1) r
      = Ok (r', h2) /\
    repr h2' l' tl' /\ repr h2' r' tr' /\
    rewrite (S fuel) h node = rules h2' node /\
    rules h2' node = Ok (res, h3) /\
    match first_match spec_priority v tl' tr' with
    | Some t' => repr h3 res t'
    | None => res = node /\ h3 = h2'
    end.
Proof.
  intros Hc Hl Hr Hs Hw.
  destruct (rewrite_node fuel (rewrite_spec fuel) h node v l r tl tr
              Hc Hl Hr Hs Hw)
    as (l' & h1 & r' & h2 & tl' & tr' & res & ext & E1 & E2 & Rl & Rr & _
        & Eru & Ere & Rres & Hid & _ & Dl & Dr & _ & _).
  exists l', h1, r', h2, tl', tr', res,
         (<[node := Some (mkNode v (Some l') (Some r'))]> h2 ++ ext).
  cbv zeta.
  split; [exact E1|]. split; [exact E2|]. split; [exact Rl|].
  split; [exact Rr|]. split; [congruence|]. split; [exact Eru|].
  assert (Hs' : shape (Node v tl' tr')).
  { destruct Hs as (Hv & Hsl & Hsr).
    split; [exact Hv|]. split; eapply red_shape; eauto. }
  pose proof (contract_spec_contract v tl' tr' Hs') as Ec.
  unfold spec_contract in Ec.
  destruct (first_match spec_priority v tl' tr') as [t'|].
  - rewrite <- Ec. exact Rres.
  - destruct (Hid Ec) as [-> ->]. split; [reflexivity|apply app_nil_r].
Qed.

Lemma rewrite_children_then_first_rule_witness :
  (cell demo_heap 4 = Some (mkNode "*" (Some 0) (Some 3)) /\
   repr demo_heap 0 (Leaf "a") /\
   repr demo_heap 3 (Node "+" (Leaf "b") (Leaf "c")) /\
   shape demo_product /\ weight demo_product <= S 21) /\
  exists l' h1 r' h2 tl' tr' res h3,
    let h2' := <[4 := Some (mkNode "*" (Some l') (Some r'))]> h2 in
    rewrite 21 demo_heap 0 = Ok (l', h1) /\
    rewrite 21 (<[4 := Some (mkNode "*" (Some l') (Some 3))]> h1) 3
      = Ok (r', h2) /\
    repr h2' l' tl' /\ repr h2' r' tr' /\
    rewrite (S 21) demo_heap 4 = rules h2' 4 /\
    rules h2' 4 = Ok (res, h3) /\
    match first_match spec_priority "*" tl' tr' with
    | Some t' => repr h3 res t'
    | None => res = 4 /\ h3 = h2'
    end.
Proof.
  assert (H1 : cell demo_heap 4 = Some (mkNode "*" (Some 0) (Some 3)))
    by reflexivity.
  assert (H2 : repr demo_heap 0 (Leaf "a")) by reflexivity.
  assert (H3 : repr demo_heap 3 (Node "+" (Leaf "b") (Leaf "c")))
    by (exists 1, 2; repeat split; reflexivity).
  assert (H4 : shape demo_product) by (simpl; repeat split; auto).
  assert (H5 : weight demo_product <= S 21) by (simpl; lia).
  split; [exact (conj H1 (conj H2 (conj H3 (conj H4 H5))))|].
  apply (rewrite_children_then_first_rule demo_heap 4 "*" 0 3 (Leaf "a")
           (Node "+" (Leaf "b") (Leaf "c")) 21 H1 H2 H3 H4 H5).
Defined.

(** ** C9 *)



(** ** C10 *)

(** C10: a call of [saturation] that returns has written to no object
    that existed before the call; the tree it was given reads afterwards
    as it read before. *)
Theorem saturation_leaves_original
  (fuel : nat) (h : heap) (ast r : nat) (h' : heap) :
  saturation fuel h ast = Ok (r, h') ->
  (forall x, x < length h -> h' !! x = h !! x) /\
  forall t, repr h ast t -> repr h' ast t.
Proof.
  intros E. pose proof (saturation_frame _ _ _ _ _ E) as K.
  split; [exact K|]. intros t. apply repr_keeps, K.
Qed.

Lemma saturation_leaves_original_witness :
  exists r h',
    saturation 23 demo_heap 4 = Ok (r, h') /\
    ((forall x, x < length demo_heap -> h' !! x = demo_heap !! x) /\
     forall t, repr demo_heap 4 t -> repr h' 4 t).
Proof.
  eexists _, _. split; [vm_compute; reflexivity|].
  eapply (saturation_leaves_original 23 demo_heap 4).
  vm_compute. reflexivity.
Defined.

(** * Further properties

    Properties of the tokenizer, the parser, the rewrite pass, the
    driver and the runs that the source shows, beyond the claims. *)

(** ** Tokenizer *)

Local Open Scope string_scope.

Lemma all_chars_take_while p s : all_chars p (take_while p s) = true.
Proof.
  induction s as [|c s IH]; simpl; [reflexivity|].
  destruct (p c) eqn:E; simpl; [rewrite E; exact IH|reflexivity].
Qed.

Lemma take_drop_while p s : take_while p s ++ drop_while p s = s.
Proof.
  induction s as [|c s IH]; simpl; [reflexivity|].
  destruct (p c); [|reflexivity].
  change (String c (take_while p s ++ drop_while p s) = String c s).
  f_equal. exact IH.
Qed.

Lemma punct_not_digit c : is_punct c = true -> is_digit c = false.
Proof.
  destruct c as [[] [] [] [] [] [] [] []]; intros H;
    try discriminate H; reflexivity.
Qed.

Lemma punct_not_alpha c : is_punct c = true -> is_alpha c = false.
Proof.
  destruct c as [[] [] [] [] [] [] [] []]; intros H;
    try discriminate H; reflexivity.
Qed.

Lemma findall_token_ok n : forall s, Forall (fun tok => token_ok tok = true) (findall n s).
Proof.
  induction n as [|n IH]; intros s; [constructor|].
  destruct s as [|c rest]; [constructor|]. simpl.
  destruct (is_digit c) eqn:Dc.
  { constructor; [|apply IH]. unfold token_ok, isdigit. simpl.
    rewrite Dc, all_chars_take_while. reflexivity. }
  destruct (is_alpha c) eqn:Ac.
  { constructor; [|apply IH]. unfold token_ok, isdigit, isalpha. simpl.
    rewrite Dc, Ac, all_chars_take_while. reflexivity. }
  destruct (is_punct c) eqn:Pc; [|apply IH].
  constructor; [|apply IH]. unfold token_ok, isdigit, isalpha. simpl.
  rewrite Dc, Ac, Pc. reflexivity.
Qed.


Lemma filter_chars_app p a b :
  filter_chars p (a ++ b) = filter_chars p a ++ filter_chars p b.
Proof.
  induction a as [|c a IH]; [reflexivity|].
  change (String c a ++ b) with (String c (a ++ b)). simpl.
  destruct (p c); [|exact IH].
  change (String c (filter_chars p (a ++ b))
          = String c (filter_chars p a ++ filter_chars p b)).
  f_equal. exact IH.
Qed.

Lemma filter_chars_all p q s :
  (forall c, q c = true -> p c = true) -> all_chars q s = true ->
  filter_chars p s = s.
Proof.
  intros Hpq. induction s as [|c s IH]; simpl; [reflexivity|].
  intros H. apply andb_prop in H as [Hc Hs]. rewrite (Hpq _ Hc).
  f_equal. auto.
Qed.

Lemma filter_run p q rest :
  (forall c, q c = true -> p c = true) ->
  filter_chars p rest
  = take_while q rest ++ filter_chars p (drop_while q rest).
Proof.
  intros Hpq.
  rewrite <- (take_drop_while q rest) at 1.
  rewrite filter_chars_app.
  rewrite (filter_chars_all p q _ Hpq (all_chars_take_while q rest)).
  reflexivity.
Qed.

Lemma tokenize_join_filter n : forall s,
  String.length s <= n ->
  join_empty (tokenize s) = filter_chars is_token_char s.
Proof.
  induction n as [|n IH]; intros s Hn.
  { destruct s; [reflexivity|simpl in Hn; lia]. }
  destruct s as [|c rest]; [reflexivity|]. simpl in Hn.
  rewrite tokenize_cons. unfold is_token_char at 1. simpl.
  pose proof (drop_while_length is_digit rest).
  pose proof (drop_while_length is_alpha rest).
  destruct (is_digit c) eqn:Dc.
  { cbn [orb join_empty]. rewrite IH by lia.
    change (String c (take_while is_digit rest) ++ ?x)
      with (String c (take_while is_digit rest ++ x)).
    f_equal. symmetry. apply filter_run.
    intros d Hd. unfold is_token_char. rewrite Hd. reflexivity. }
  destruct (is_alpha c) eqn:Ac.
  { cbn [orb join_empty]. rewrite IH by lia.
    change (String c (take_while is_alpha rest) ++ ?x)
      with (String c (take_while is_alpha rest ++ x)).
    f_equal. symmetry. apply filter_run.
    intros d Hd. unfold is_token_char. rewrite Hd.
    destruct (is_digit d); reflexivity. }
  destruct (is_punct c) eqn:Pc; cbn [orb join_empty].
  - rewrite IH by lia. reflexivity.
  - apply IH. lia.
Qed.

(** X2: the tokens, put end to end, are the input without the characters
    that are no digit, no letter and none of [+ * / ( ) -]: the tokenizer
    drops those characters silently, and loses or adds nothing else. *)
Theorem tokenize_keeps_token_characters (expr : string) :
  join_empty (tokenize expr) = filter_chars is_token_char expr.
Proof. apply (tokenize_join_filter (String.length expr)). lia. Qed.

Lemma while_separator p s1 c s2 :
  p c = false ->
  take_while p (s1 ++ String c s2) = take_while p s1 /\
  drop_while p (s1 ++ String c s2) = drop_while p s1 ++ String c s2.
Proof.
  intros Hc. induction s1 as [|d s1 IH].
  - simpl. rewrite Hc. auto.
  - change (String d s1 ++ String c s2) with (String d (s1 ++ String c s2)).
    simpl. destruct (p d); [|auto]. destruct IH as [-> ->]. auto.
Qed.

Lemma token_char_false c :
  is_token_char c = false ->
  is_digit c = false /\ is_alpha c = false /\ is_punct c = false.
Proof.
  unfold is_token_char. destruct (is_digit c), (is_alpha c), (is_punct c);
    intros H; try discriminate H; auto.
Qed.

Lemma tokenize_at_separator n : forall s1 c s2,
  String.length s1 <= n -> is_token_char c = false ->
  tokenize (s1 ++ String c s2) = (tokenize s1 ++ tokenize s2)%list.
Proof.
  induction n as [|n IH]; intros s1 c s2 Hn Hc;
    destruct (token_char_false c Hc) as (Dc & Ac & Pc).
  { destruct s1; [|simpl in Hn; lia].
    change ("" ++ String c s2) with (String c s2).
    rewrite tokenize_cons, Dc, Ac, Pc. reflexivity. }
  destruct s1 as [|d s1].
  { change ("" ++ String c s2) with (String c s2).
    rewrite tokenize_cons, Dc, Ac, Pc. reflexivity. }
  simpl in Hn.
  change (String d s1 ++ String c s2) with (String d (s1 ++ String c s2)).
  rewrite !tokenize_cons.
  pose proof (drop_while_length is_digit s1).
  pose proof (drop_while_length is_alpha s1).
  destruct (while_separator is_digit s1 c s2 Dc) as [-> ->].
  destruct (while_separator is_alpha s1 c s2 Ac) as [-> ->].
  destruct (is_digit d); [rewrite IH by (auto; lia); reflexivity|].
  destruct (is_alpha d); [rewrite IH by (auto; lia); reflexivity|].
  destruct (is_punct d); rewrite IH by (auto; lia); reflexivity.
Qed.

(** X3: a character outside the token alphabet (a blank, say) separates:
    the tokens of [s1], the character and [s2] in a row are the tokens of
    [s1] followed by the tokens of [s2]. *)
Theorem tokenize_separator (s1 s2 : string) (c : ascii) :
  is_token_char c = false ->
  tokenize (s1 ++ String c s2) = (tokenize s1 ++ tokenize s2)%list.
Proof. apply (tokenize_at_separator (String.length s1)). lia. Qed.

Lemma tokenize_separator_witness :
  is_token_char " "%char = false /\
  tokenize ("12" ++ String " "%char "34") = (tokenize "12" ++ tokenize "34")%list.
Proof.
  assert (H : is_token_char " "%char = false) by reflexivity.
  split; [exact H|]. apply (tokenize_separator "12" "34" " "%char H).
Defined.

Lemma tokenize_token tok rest :
  token_ok tok = true -> delimited rest ->
  tokenize (tok ++ rest) = tok :: tokenize rest.
Proof.
  intros Hok Hr. unfold token_ok in Hok.
  destruct (isdigit tok || isalpha tok) eqn:Ha.
  { apply tokenize_atom; assumption. }
  simpl in Hok. destruct tok as [|c [|]]; try discriminate Hok.
  simpl in Hok. change (String c "" ++ rest) with (String c rest).
  rewrite tokenize_cons, (punct_not_digit c Hok), (punct_not_alpha c Hok), Hok.
  reflexivity.
Qed.

(** X4: well-formed tokens joined by single blanks tokenize to themselves. *)
Theorem tokenize_join_roundtrip (tokens : list string) :
  Forall (fun tok => token_ok tok = true) tokens ->
  tokenize (join_space tokens) = tokens.
Proof.
  induction 1 as [|tok rest Hok Hrest IH]; [reflexivity|].
  destruct rest as [|tok' rest].
  - simpl. rewrite <- (append_nil_r tok) at 1.
    apply (tokenize_token tok "" Hok I).
  - change (join_space (tok :: tok' :: rest))
      with (tok ++ " " ++ join_space (tok' :: rest)).
    rewrite tokenize_token; [|exact Hok|split; reflexivity].
    rewrite tokenize_space, IH. reflexivity.
Qed.

Lemma tokenize_join_roundtrip_witness :
  Forall (fun tok => token_ok tok = true) ["12"; "ab"; "("; "-"] /\
  tokenize (join_space ["12"; "ab"; "("; "-"]) = ["12"; "ab"; "("; "-"].
Proof.
  assert (H : Forall (fun tok => token_ok tok = true) ["12"; "ab"; "("; "-"])
    by (repeat constructor).
  split; [exact H|]. apply (tokenize_join_roundtrip _ H).
Defined.

(** ** Parser: what it reads, when it ends, what it raises *)

Local Open Scope list_scope.

Lemma at_op_lookup tokens tokens' i op :
  tokens' !! i = tokens !! i -> at_op tokens' i op = at_op tokens i op.
Proof.
  intros H. unfold at_op. rewrite H.
  destruct (tokens !! i) as [tok|] eqn:E; [|rewrite !andb_false_r; reflexivity].
  pose proof (lookup_lt_Some _ _ _ E) as H1.
  pose proof (lookup_lt_Some _ _ _ H) as H2.
  apply Nat.ltb_lt in H1, H2. rewrite H1, H2. reflexivity.
Qed.

Lemma at_op_not tokens i op :
  tokens !! i <> Some op -> at_op tokens i op = false.
Proof.
  intros H. unfold at_op. destruct (tokens !! i) as [tok|];
    [|apply andb_false_r].
  destruct (String.eqb tok op) eqn:E; [|apply andb_false_r].
  apply String.eqb_eq in E. congruence.
Qed.

Lemma at_op_true tokens i op :
  at_op tokens i op = true -> tokens !! i = Some op.
Proof.
  unfold at_op. intros H. apply andb_prop in H as [_ H].
  destruct (tokens !! i) as [tok|]; [|discriminate].
  apply String.eqb_eq in H. congruence.
Qed.

(** The parser reads the tokens it consumes and one token of lookahead. *)
Lemma parse_prefix tokens fuel :
  (forall i t j, parse_factor tokens fuel i = Ok (t, j) ->
     i < j /\
     forall tokens', (forall k, k < j -> tokens' !! k = tokens !! k) ->
                     parse_factor tokens' fuel i = Ok (t, j)) /\
  (forall i t j, parse_term tokens fuel i = Ok (t, j) ->
     i < j /\ at_op tokens j "*" = false /\
     forall tokens', (forall k, k < j -> tokens' !! k = tokens !! k) ->
                     at_op tokens' j "*" = false ->
                     parse_term tokens' fuel i = Ok (t, j)) /\
  (forall node i t j, term_loop tokens fuel node i = Ok (t, j) ->
     i <= j /\ at_op tokens j "*" = false /\
     forall tokens', (forall k, k < j -> tokens' !! k = tokens !! k) ->
                     at_op tokens' j "*" = false ->
                     term_loop tokens' fuel node i = Ok (t, j)) /\
  (forall i t j, parse_sum tokens fuel i = Ok (t, j) ->
     i < j /\ at_op tokens j "*" = false /\ at_op tokens j "+" = false /\
     forall tokens', (forall k, k < j -> tokens' !! k = tokens !! k) ->
                     at_op tokens' j "*" = false ->
                     at_op tokens' j "+" = false ->
                     parse_sum tokens' fuel i = Ok (t, j)) /\
  (forall node i t j, at_op tokens i "*" = false ->
     sum_loop tokens fuel node i = Ok (t, j) ->
     i <= j /\ at_op tokens j "*" = false /\ at_op tokens j "+" = false /\
     forall tokens', (forall k, k < j -> tokens' !! k = tokens !! k) ->
                     at_op tokens' j "*" = false ->
                     at_op tokens' j "+" = false ->
                     sum_loop tokens' fuel node i = Ok (t, j)).
Proof.
  induction fuel as [|f (IHf & IHt & IHtl & IHs & IHsl)].
  { split; [|split; [|split; [|split]]]; intros; discriminate. }
  split; [|split; [|split; [|split]]].
  - intros i t j H. rewrite parse_factor_S in H.
    destruct (tokens !! i) as [token|] eqn:Ei; [|discriminate].
    destruct (isdigit token || isalpha token) eqn:Ea.
    { injection H as <- <-. split; [lia|]. intros tokens' Hag.
      rewrite parse_factor_S, Hag, Ei, Ea by lia. reflexivity. }
    destruct (String.eqb token "(") eqn:Ep; [|discriminate].
    destruct (parse_sum tokens f (i + 1)) as [[node j']| |] eqn:E;
      cbn [mbind result_bind] in H; try discriminate H.
    injection H as <- <-.
    destruct (IHs _ _ _ E) as (Hlt & Hs & Hp & Htr).
    split; [lia|]. intros tokens' Hag.
    rewrite parse_factor_S, Hag, Ei, Ea, Ep by lia.
    rewrite (Htr tokens'); [reflexivity| | |].
    + intros k Hk. apply Hag. lia.
    + rewrite (at_op_lookup tokens tokens') by (apply Hag; lia). exact Hs.
    + rewrite (at_op_lookup tokens tokens') by (apply Hag; lia). exact Hp.
  - intros i t j H. rewrite parse_term_S in H.
    destruct (parse_factor tokens f i) as [[node i1]| |] eqn:E;
      cbn [mbind result_bind] in H; try discriminate H.
    destruct (IHf _ _ _ E) as (Hlt & Htr).
    destruct (IHtl _ _ _ _ H) as (Hle & Hs & Htr2).
    split; [lia|]. split; [exact Hs|]. intros tokens' Hag Hs'.
    rewrite parse_term_S, (Htr tokens'); [|intros k Hk; apply Hag; lia].
    cbn [mbind result_bind]. apply Htr2; assumption.
  - intros node i t j H. rewrite term_loop_S in H.
    destruct (at_op tokens i "*") eqn:Eop.
    2: { injection H as <- <-. split; [lia|]. split; [exact Eop|].
         intros tokens' Hag Hs'. rewrite term_loop_S, Hs'. reflexivity. }
    destruct (parse_factor tokens f (i + 1)) as [[rhs i2]| |] eqn:E;
      cbn [mbind result_bind] in H; try discriminate H.
    destruct (IHf _ _ _ E) as (Hlt & Htr).
    destruct (IHtl _ _ _ _ H) as (Hle & Hs & Htr2).
    split; [lia|]. split; [exact Hs|]. intros tokens' Hag Hs'.
    rewrite term_loop_S, (at_op_lookup tokens tokens'), Eop by (apply Hag; lia).
    rewrite (Htr tokens'); [|intros k Hk; apply Hag; lia].
    cbn [mbind result_bind]. apply Htr2; assumption.
  - intros i t j H. rewrite parse_sum_S in H.
    destruct (parse_term tokens f i) as [[node i1]| |] eqn:E;
      cbn [mbind result_bind] in H; try discriminate H.
    destruct (IHt _ _ _ E) as (Hlt & Hs1 & Htr).
    destruct (IHsl _ _ _ _ Hs1 H) as (Hle & Hs & Hp & Htr2).
    split; [lia|]. split; [exact Hs|]. split; [exact Hp|].
    intros tokens' Hag Hs' Hp'.
    rewrite parse_sum_S, (Htr tokens'); [| intros k Hk; apply Hag; lia |].
    + cbn [mbind result_bind]. apply Htr2; assumption.
    + destruct (decide (i1 = j)) as [->|Hne]; [exact Hs'|].
      rewrite (at_op_lookup tokens tokens') by (apply Hag; lia). exact Hs1.
  - intros node i t j Hi H. rewrite sum_loop_S in H.
    destruct (at_op tokens i "+") eqn:Eop.
    2: { injection H as <- <-. split; [lia|]. split; [exact Hi|].
         split; [exact Eop|].
         intros tokens' Hag Hs' Hp'. rewrite sum_loop_S, Hp'. reflexivity. }
    destruct (parse_term tokens f (i + 1)) as [[rhs i2]| |] eqn:E;
      cbn [mbind result_bind] in H; try discriminate H.
    destruct (IHt _ _ _ E) as (Hlt & Hs1 & Htr).
    destruct (IHsl _ _ _ _ Hs1 H) as (Hle & Hs & Hp & Htr2).
    split; [lia|]. split; [exact Hs|]. split; [exact Hp|].
    intros tokens' Hag Hs' Hp'.
    rewrite sum_loop_S, (at_op_lookup tokens tokens'), Eop by (apply Hag; lia).
    rewrite (Htr tokens'); [| intros k Hk; apply Hag; lia |].
    + cbn [mbind result_bind]. apply Htr2; assumption.
    + destruct (decide (i2 = j)) as [->|Hne]; [exact Hs'|].
      rewrite (at_op_lookup tokens tokens') by (apply Hag; lia). exact Hs1.
Qed.

(** X5: a parse that returns a tree has read the tokens before some
    position [j] and looked at the token at [j], which is no [*] and no
    [+].  Every token list with the same tokens before [j], and no [*] or
    [+] at [j], parses to the same tree: what follows is ignored. *)
Theorem parser_reads_a_prefix (tokens : list string) (fuel : nat) (t : tree) :
  parse_expression tokens fuel = Ok t ->
  exists j, 0 < j /\
    tokens !! j <> Some "*" /\ tokens !! j <> Some "+" /\
    forall tokens',
      (forall k, k < j -> tokens' !! k = tokens !! k) ->
      tokens' !! j <> Some "*" -> tokens' !! j <> Some "+" ->
      parse_expression tokens' fuel = Ok t.
Proof.
  unfold parse_expression. intros H.
  destruct (parse_sum tokens fuel 0) as [[node j]| |] eqn:E;
    cbn [mbind result_bind] in H; try discriminate H.
  injection H as ->.
  destruct (parse_prefix tokens fuel) as (_ & _ & _ & Hs & _).
  destruct (Hs _ _ _ E) as (Hlt & Hst & Hpl & Htr).
  exists j. split; [exact Hlt|].
  split. { intros Hj. rewrite (at_op_Some _ _ _ _ Hj) in Hst. discriminate. }
  split. { intros Hj. rewrite (at_op_Some _ _ _ _ Hj) in Hpl. discriminate. }
  intros tokens' Hag Hs' Hp'.
  rewrite (Htr tokens' Hag); [reflexivity| |]; apply at_op_not; assumption.
Qed.

Lemma parser_reads_a_prefix_witness :
  parse_expression ["a"; "+"; "b"; "-"; "c"] 5
    = Ok (Node "+" (Leaf "a") (Leaf "b")) /\
  exists j, 0 < j /\
    ["a"; "+"; "b"; "-"; "c"] !! j <> Some "*" /\
    ["a"; "+"; "b"; "-"; "c"] !! j <> Some "+" /\
    forall tokens',
      (forall k, k < j -> tokens' !! k = ["a"; "+"; "b"; "-"; "c"] !! k) ->
      tokens' !! j <> Some "*" -> tokens' !! j <> Some "+" ->
      parse_expression tokens' 5 = Ok (Node "+" (Leaf "a") (Leaf "b")).
Proof.
  assert (H : parse_expression ["a"; "+"; "b"; "-"; "c"] 5
              = Ok (Node "+" (Leaf "a") (Leaf "b"))) by reflexivity.
  split; [exact H|]. apply (parser_reads_a_prefix _ _ _ H).
Defined.

Lemma settled_bind {A B : Type} (m : result A) (k : A -> result B) :
  settled m -> (forall a, m = Ok a -> settled (k a)) -> settled (m ≫= k).
Proof.
  intros Hm Hk. destruct m as [a|e|]; cbn.
  - apply Hk. reflexivity.
  - discriminate.
  - exfalso. apply Hm. reflexivity.
Qed.

Lemma parse_factor_end tokens fuel i x :
  length tokens <= i -> parse_factor tokens fuel i <> Ok x.
Proof.
  intros Hi. destruct fuel as [|f]; [discriminate|].
  rewrite parse_factor_S, (lookup_ge_None_2 _ _ Hi). discriminate.
Qed.

Lemma parse_term_end tokens fuel i x :
  length tokens <= i -> parse_term tokens fuel i <> Ok x.
Proof.
  intros Hi. destruct fuel as [|f]; [discriminate|].
  rewrite parse_term_S. intros H.
  destruct (parse_factor tokens f i) as [a| |] eqn:E; try discriminate H.
  exact (parse_factor_end _ _ _ _ Hi E).
Qed.

(** The parser terminates: with [m] tokens left to read, the calls nest
    at most [4 * m + 3] deep. *)
Lemma parse_settles tokens m :
  (forall i fuel, length tokens - i <= m -> 4 * m + 1 <= fuel ->
     settled (parse_factor tokens fuel i)) /\
  (forall i fuel, length tokens - i <= m -> 4 * m + 2 <= fuel ->
     settled (parse_term tokens fuel i)) /\
  (forall node i fuel, length tokens - i <= m -> 4 * m + 1 <= fuel ->
     settled (term_loop tokens fuel node i)) /\
  (forall i fuel, length tokens - i <= m -> 4 * m + 3 <= fuel ->
     settled (parse_sum tokens fuel i)) /\
  (forall node i fuel, length tokens - i <= m -> 4 * m + 2 <= fuel ->
     settled (sum_loop tokens fuel node i)).
Proof.
  assert (Hend : forall i fuel, length tokens <= i ->
            parse_factor tokens (S fuel) i = Raise IndexError).
  { intros i fuel Hi. rewrite parse_factor_S.
    rewrite (lookup_ge_None_2 _ _ Hi). reflexivity. }
  induction m as [|m (IHf & IHt & IHtl & IHs & IHsl)].
  - assert (Hf : forall i fuel, length tokens - i <= 0 -> 1 <= fuel ->
              settled (parse_factor tokens fuel i)).
    { intros i [|fuel] Hi Hfu; [lia|]. rewrite Hend by lia. discriminate. }
    assert (Htl : forall node i fuel, length tokens - i <= 0 -> 1 <= fuel ->
              settled (term_loop tokens fuel node i)).
    { intros node i [|fuel] Hi Hfu; [lia|]. rewrite term_loop_S.
      rewrite at_op_end by lia. discriminate. }
    assert (Hsl : forall node i fuel, length tokens - i <= 0 -> 1 <= fuel ->
              settled (sum_loop tokens fuel node i)).
    { intros node i [|fuel] Hi Hfu; [lia|]. rewrite sum_loop_S.
      rewrite at_op_end by lia. discriminate. }
    assert (Ht : forall i fuel, length tokens - i <= 0 -> 2 <= fuel ->
              settled (parse_term tokens fuel i)).
    { intros i [|[|fuel]] Hi Hfu; try lia. rewrite parse_term_S.
      rewrite Hend by lia. discriminate. }
    split; [|split; [|split; [|split]]].
    + intros; apply Hf; lia.
    + intros; apply Ht; lia.
    + intros; apply Htl; lia.
    + intros i [|[|[|fuel]]] Hi Hfu; try lia.
      rewrite parse_sum_S, parse_term_S, Hend by lia. discriminate.
    + intros; apply Hsl; lia.
  - assert (Hf : forall i fuel, length tokens - i <= S m ->
              4 * S m + 1 <= fuel -> settled (parse_factor tokens fuel i)).
    { intros i [|fuel] Hi Hfu; [lia|]. rewrite parse_factor_S.
      destruct (tokens !! i) as [token|]; [|discriminate].
      destruct (isdigit token || isalpha token); [discriminate|].
      destruct (String.eqb token "("); [|discriminate].
      apply settled_bind; [apply IHs; lia|]. intros [node j] _. discriminate. }
    assert (Htl : forall node i fuel, length tokens - i <= S m ->
              4 * S m + 1 <= fuel -> settled (term_loop tokens fuel node i)).
    { intros node i [|fuel] Hi Hfu; [lia|]. rewrite term_loop_S.
      destruct (at_op tokens i "*"); [|discriminate].
      apply settled_bind; [apply IHf; lia|]. intros [rhs j] E.
      destruct (parse_prefix tokens fuel) as (Hp & _).
      destruct (Hp _ _ _ E) as [Hlt _]. apply IHtl; lia. }
    assert (Ht : forall i fuel, length tokens - i <= S m ->
              4 * S m + 2 <= fuel -> settled (parse_term tokens fuel i)).
    { intros i [|fuel] Hi Hfu; [lia|]. rewrite parse_term_S.
      apply settled_bind; [apply Hf; lia|]. intros [node j] E.
      destruct (parse_prefix tokens fuel) as (Hp & _).
      destruct (Hp _ _ _ E) as [Hlt _].
      destruct (Nat.le_gt_cases (length tokens) i).
      - exfalso. exact (parse_factor_end _ _ _ _ H E).
      - apply IHtl; lia. }
    assert (Hsl : forall node i fuel, length tokens - i <= S m ->
              4 * S m + 2 <= fuel -> settled (sum_loop tokens fuel node i)).
    { intros node i [|fuel] Hi Hfu; [lia|]. rewrite sum_loop_S.
      destruct (at_op tokens i "+"); [|discriminate].
      apply settled_bind; [apply IHt; lia|]. intros [rhs j] E.
      destruct (parse_prefix tokens fuel) as (_ & Hp & _).
      destruct (Hp _ _ _ E) as [Hlt _]. apply IHsl; lia. }
    split; [exact Hf|]. split; [exact Ht|]. split; [exact Htl|].
    split; [|exact Hsl].
    intros i [|fuel] Hi Hfu; [lia|]. rewrite parse_sum_S.
    apply settled_bind; [apply Ht; lia|]. intros [node j] E.
    destruct (parse_prefix tokens fuel) as (_ & Hp & _).
    destruct (Hp _ _ _ E) as [Hlt _].
    destruct (Nat.le_gt_cases (length tokens) i).
    + exfalso. exact (parse_term_end _ _ _ _ H E).
    + apply IHsl; lia.
Qed.

(** X6: the parser terminates on every token list.  The calls nest at most
    [4 * len(tokens) + 3] deep: with that much fuel the run ends, with a
    tree or with an exception, and more fuel gives the same result. *)
Theorem parser_terminates (tokens : list string) (fuel : nat) :
  4 * length tokens + 3 <= fuel ->
  parse_expression tokens fuel <> OutOfFuel /\
  forall fuel', fuel <= fuel' ->
    parse_expression tokens fuel' = parse_expression tokens fuel.
Proof.
  intros Hf.
  assert (Hs : settled (parse_expression tokens fuel)).
  { unfold parse_expression.
    apply settled_bind; [|intros [node j] _; discriminate].
    apply (parse_settles tokens (length tokens)); lia. }
  split; [exact Hs|]. intros fuel' Hle.
  apply parse_expression_mono; assumption.
Qed.

Lemma parser_terminates_witness :
  4 * length ["("; "a"; "+"] + 3 <= 15 /\
  parse_expression ["("; "a"; "+"] 15 <> OutOfFuel /\
  forall fuel', 15 <= fuel' ->
    parse_expression ["("; "a"; "+"] fuel' = parse_expression ["("; "a"; "+"] 15.
Proof.
  assert (H : 4 * length ["("; "a"; "+"] + 3 <= 15) by (simpl; lia).
  split; [exact H|]. apply (parser_terminates _ _ H).
Defined.

Lemma parse_raises tokens fuel :
  (forall i e, parse_factor tokens fuel i = Raise e -> parse_error tokens e) /\
  (forall i e, parse_term tokens fuel i = Raise e -> parse_error tokens e) /\
  (forall node i e, term_loop tokens fuel node i = Raise e ->
                    parse_error tokens e) /\
  (forall i e, parse_sum tokens fuel i = Raise e -> parse_error tokens e) /\
  (forall node i e, sum_loop tokens fuel node i = Raise e ->
                    parse_error tokens e).
Proof.
  induction fuel as [|f (IHf & IHt & IHtl & IHs & IHsl)].
  { split; [|split; [|split; [|split]]]; intros; discriminate. }
  split; [|split; [|split; [|split]]].
  - intros i e H. rewrite parse_factor_S in H.
    destruct (tokens !! i) as [token|] eqn:Ei.
    2: { injection H as <-. left. reflexivity. }
    destruct (isdigit token || isalpha token) eqn:Ea; [discriminate|].
    destruct (String.eqb token "(") eqn:Ep.
    + destruct (parse_sum tokens f (i + 1)) as [[node j']| |] eqn:E;
        cbn [mbind result_bind] in H; try discriminate H.
      injection H as <-. eauto.
    + injection H as <-. right. exists token.
      split; [eapply list_elem_of_lookup_2; eauto|].
      split; [exact Ea|]. split; [|reflexivity].
      intros ->. discriminate Ep.
  - intros i e H. rewrite parse_term_S in H.
    destruct (parse_factor tokens f i) as [[node j']| |] eqn:E;
      cbn [mbind result_bind] in H; try discriminate H; [eauto|].
    injection H as <-. eauto.
  - intros node i e H. rewrite term_loop_S in H.
    destruct (at_op tokens i "*"); [|discriminate].
    destruct (parse_factor tokens f (i + 1)) as [[rhs j']| |] eqn:E;
      cbn [mbind result_bind] in H; try discriminate H; [eauto|].
    injection H as <-. eauto.
  - intros i e H. rewrite parse_sum_S in H.
    destruct (parse_term tokens f i) as [[node j']| |] eqn:E;
      cbn [mbind result_bind] in H; try discriminate H; [eauto|].
    injection H as <-. eauto.
  - intros node i e H. rewrite sum_loop_S in H.
    destruct (at_op tokens i "+"); [|discriminate].
    destruct (parse_term tokens f (i + 1)) as [[rhs j']| |] eqn:E;
      cbn [mbind result_bind] in H; try discriminate H; [eauto|].
    injection H as <-. eauto.
Qed.

Lemma parse_expression_raises tokens fuel e :
  parse_expression tokens fuel = Raise e -> parse_error tokens e.
Proof.
  unfold parse_expression. intros H.
  destruct (parse_sum tokens fuel 0) as [[node j]| |] eqn:E;
    cbn [mbind result_bind] in H; try discriminate H.
  injection H as <-.
  destruct (parse_raises tokens fuel) as (_ & _ & _ & Hs & _). eauto.
Qed.

(** X7: the parser raises nothing but IndexError and
    ValueError("Unexpected token: " + tok), where [tok] is a token of the
    input that is no number, no identifier and not the opening
    parenthesis. *)
Theorem parser_raises_index_or_value_error
  (tokens : list string) (fuel : nat) (e : exn) :
  parse_expression tokens fuel = Raise e ->
  e = IndexError \/
  exists tok, tok ∈ tokens /\ isdigit tok = false /\ isalpha tok = false /\
              tok <> "(" /\ e = ValueError ("Unexpected token: " ++ tok).
Proof.
  intros H. destruct (parse_expression_raises _ _ _ H)
    as [->|(tok & Hin & Ha & Hp & ->)]; [left; reflexivity|].
  right. exists tok. apply orb_false_elim in Ha as [Hd Hal]. auto.
Qed.

Lemma parser_raises_index_or_value_error_witness :
  parse_expression ["a"; "+"; ")"] 6 = Raise (ValueError "Unexpected token: )") /\
  (ValueError "Unexpected token: )" = IndexError \/
   exists tok, tok ∈ ["a"; "+"; ")"] /\ isdigit tok = false /\
               isalpha tok = false /\ tok <> "(" /\
               ValueError "Unexpected token: )"
               = ValueError ("Unexpected token: " ++ tok)).
Proof.
  assert (H : parse_expression ["a"; "+"; ")"] 6
              = Raise (ValueError "Unexpected token: )")) by reflexivity.
  split; [exact H|]. apply (parser_raises_index_or_value_error _ _ _ H).
Defined.

Lemma slice_split (tokens : list string) i k j :
  i <= k -> k <= j -> slice tokens i j = slice tokens i k ++ slice tokens k j.
Proof.
  intros H1 H2. unfold slice.
  replace (j - i) with ((k - i) + (j - k)) by lia.
  rewrite <- take_take_drop, drop_drop.
  replace (i + (k - i)) with k by lia. reflexivity.
Qed.

Lemma slice_one (tokens : list string) i tok :
  tokens !! i = Some tok -> slice tokens i (i + 1) = [tok].
Proof.
  intros H. unfold slice. replace (i + 1 - i) with 1 by lia.
  rewrite (drop_S _ _ _ H). reflexivity.
Qed.

Lemma slice_sublist_l (tokens : list string) i k j l :
  i <= k -> k <= j -> l `sublist_of` slice tokens k j ->
  l `sublist_of` slice tokens i j.
Proof.
  intros H1 H2 H. rewrite (slice_split tokens i k j H1 H2).
  apply sublist_inserts_l, H.
Qed.

Lemma slice_sublist_r (tokens : list string) i k j l :
  i <= k -> k <= j -> l `sublist_of` slice tokens i k ->
  l `sublist_of` slice tokens i j.
Proof.
  intros H1 H2 H. rewrite (slice_split tokens i k j H1 H2).
  apply sublist_inserts_r, H.
Qed.

Lemma slice_sublist_app (tokens : list string) i k j l1 l2 :
  i <= k -> k <= j ->
  l1 `sublist_of` slice tokens i k -> l2 `sublist_of` slice tokens k j ->
  l1 ++ l2 `sublist_of` slice tokens i j.
Proof.
  intros H1 H2 Ha Hb. rewrite (slice_split tokens i k j H1 H2).
  apply sublist_app; assumption.
Qed.

(** The operands of the tree are tokens of the input, in their order. *)
Lemma parse_leaves tokens fuel :
  (forall i t j, parse_factor tokens fuel i = Ok (t, j) ->
     leaves t `sublist_of` slice tokens i j) /\
  (forall i t j, parse_term tokens fuel i = Ok (t, j) ->
     leaves t `sublist_of` slice tokens i j) /\
  (forall node i0 i t j, i0 <= i ->
     leaves node `sublist_of` slice tokens i0 i ->
     term_loop tokens fuel node i = Ok (t, j) ->
     leaves t `sublist_of` slice tokens i0 j) /\
  (forall i t j, parse_sum tokens fuel i = Ok (t, j) ->
     leaves t `sublist_of` slice tokens i j) /\
  (forall node i0 i t j, i0 <= i ->
     leaves node `sublist_of` slice tokens i0 i ->
     sum_loop tokens fuel node i = Ok (t, j) ->
     leaves t `sublist_of` slice tokens i0 j).
Proof.
  induction fuel as [|f (IHf & IHt & IHtl & IHs & IHsl)].
  { split; [|split; [|split; [|split]]]; intros; discriminate. }
  destruct (parse_prefix tokens f) as (Pf & Pt & Ptl & Ps & Psl).
  split; [|split; [|split; [|split]]].
  - intros i t j H. rewrite parse_factor_S in H.
    destruct (tokens !! i) as [token|] eqn:Ei; [|discriminate].
    destruct (isdigit token || isalpha token) eqn:Ea.
    { injection H as <- <-. rewrite (slice_one _ _ _ Ei). reflexivity. }
    destruct (String.eqb token "("); [|discriminate].
    destruct (parse_sum tokens f (i + 1)) as [[node j']| |] eqn:E;
      cbn [mbind result_bind] in H; try discriminate H.
    injection H as <- <-. destruct (Ps _ _ _ E) as [Hlt _].
    apply (slice_sublist_l tokens i (i + 1)); [lia|lia|].
    apply (slice_sublist_r tokens (i + 1) j'); [lia|lia|]. eauto.
  - intros i t j H. rewrite parse_term_S in H.
    destruct (parse_factor tokens f i) as [[node i1]| |] eqn:E;
      cbn [mbind result_bind] in H; try discriminate H.
    destruct (Pf _ _ _ E) as [Hlt _].
    eapply IHtl; [|eapply IHf, E|exact H]. lia.
  - intros node i0 i t j Hle Hn H. rewrite term_loop_S in H.
    destruct (at_op tokens i "*").
    2: { injection H as <- <-. exact Hn. }
    destruct (parse_factor tokens f (i + 1)) as [[rhs i2]| |] eqn:E;
      cbn [mbind result_bind] in H; try discriminate H.
    destruct (Pf _ _ _ E) as [Hlt _].
    eapply (IHtl _ i0 i2); [lia| |exact H]. simpl.
    apply (slice_sublist_app tokens i0 i i2); [lia|lia|exact Hn|].
    apply (slice_sublist_l tokens i (i + 1)); [lia|lia|]. eauto.
  - intros i t j H. rewrite parse_sum_S in H.
    destruct (parse_term tokens f i) as [[node i1]| |] eqn:E;
      cbn [mbind result_bind] in H; try discriminate H.
    destruct (Pt _ _ _ E) as [Hlt _].
    eapply IHsl; [|eapply IHt, E|exact H]. lia.
  - intros node i0 i t j Hle Hn H. rewrite sum_loop_S in H.
    destruct (at_op tokens i "+").
    2: { injection H as <- <-. exact Hn. }
    destruct (parse_term tokens f (i + 1)) as [[rhs i2]| |] eqn:E;
      cbn [mbind result_bind] in H; try discriminate H.
    destruct (Pt _ _ _ E) as [Hlt _].
    eapply (IHsl _ i0 i2); [lia| |exact H]. simpl.
    apply (slice_sublist_app tokens i0 i i2); [lia|lia|exact Hn|].
    apply (slice_sublist_l tokens i (i + 1)); [lia|lia|]. eauto.
Qed.

(** X8: the tree the parser returns has numbers and identifiers at its
    leaves and [+] or [*] at its inner nodes, and its leaves, read from
    left to right, are tokens of the input in the order of the input: no
    operand is invented, repeated or moved. *)
Theorem parsed_tree_is_made_of_the_tokens
  (tokens : list string) (fuel : nat) (t : tree) :
  parse_expression tokens fuel = Ok t ->
  shape t /\ leaves t `sublist_of` tokens.
Proof.
  intros H. split; [eapply parse_shape, H|].
  unfold parse_expression in H.
  destruct (parse_sum tokens fuel 0) as [[node j]| |] eqn:E;
    cbn [mbind result_bind] in H; try discriminate H.
  injection H as ->.
  destruct (parse_leaves tokens fuel) as (_ & _ & _ & Hs & _).
  transitivity (slice tokens 0 j); [eauto|].
  unfold slice. rewrite drop_0. apply sublist_take.
Qed.

Lemma parsed_tree_is_made_of_the_tokens_witness :
  parse_expression ["("; "a"; "b"; "*"; "c"] 6
    = Ok (Node "*" (Leaf "a") (Leaf "c")) /\
  shape (Node "*" (Leaf "a") (Leaf "c")) /\
  leaves (Node "*" (Leaf "a") (Leaf "c")) `sublist_of` ["("; "a"; "b"; "*"; "c"].
Proof.
  assert (H : parse_expression ["("; "a"; "b"; "*"; "c"] 6
              = Ok (Node "*" (Leaf "a") (Leaf "c"))) by reflexivity.
  split; [exact H|]. apply (parsed_tree_is_made_of_the_tokens _ _ _ H).
Defined.

(** ** Parser: an operator with nothing after it *)

Lemma parse_factor_more tokens f i x :
  parse_factor tokens f i = Ok x -> parse_factor tokens (S f) i = Ok x.
Proof.
  intros H. destruct (parse_mono tokens f) as (M & _).
  rewrite M; [exact H|lia|]. rewrite H. discriminate.
Qed.

Lemma parse_term_more tokens f i x :
  parse_term tokens f i = Ok x -> parse_term tokens (S f) i = Ok x.
Proof.
  intros H. destruct (parse_mono tokens f) as (_ & M & _).
  rewrite M; [exact H|lia|]. rewrite H. discriminate.
Qed.

(** A [*] where the parse ended, with nothing after it: the loop of
    [parse_term] asks for a factor past the end of the list. *)
Lemma parse_dangling_star tokens fuel :
  (forall i t j, parse_term tokens fuel i = Ok (t, j) ->
     forall tokens', (forall k, k < j -> tokens' !! k = tokens !! k) ->
       tokens' !! j = Some "*" -> tokens' !! (j + 1) = None ->
       parse_term tokens' (S fuel) i = Raise IndexError) /\
  (forall node i t j, term_loop tokens fuel node i = Ok (t, j) ->
     forall tokens', (forall k, k < j -> tokens' !! k = tokens !! k) ->
       tokens' !! j = Some "*" -> tokens' !! (j + 1) = None ->
       term_loop tokens' (S fuel) node i = Raise IndexError) /\
  (forall i t j, parse_sum tokens fuel i = Ok (t, j) ->
     forall tokens', (forall k, k < j -> tokens' !! k = tokens !! k) ->
       tokens' !! j = Some "*" -> tokens' !! (j + 1) = None ->
       parse_sum tokens' (S fuel) i = Raise IndexError) /\
  (forall node i t j, at_op tokens i "*" = false ->
     sum_loop tokens fuel node i = Ok (t, j) -> i < j ->
     forall tokens', (forall k, k < j -> tokens' !! k = tokens !! k) ->
       tokens' !! j = Some "*" -> tokens' !! (j + 1) = None ->
       sum_loop tokens' (S fuel) node i = Raise IndexError).
Proof.
  induction fuel as [|f (IHt & IHtl & IHs & IHsl)].
  { split; [|split; [|split]]; intros; discriminate. }
  destruct (parse_prefix tokens f) as (Pf & Pt & Ptl & Ps & Psl).
  split; [|split; [|split]].
  - intros i t j H tokens' Hag Hj Hend. rewrite parse_term_S in H.
    destruct (parse_factor tokens f i) as [[node i1]| |] eqn:E;
      cbn [mbind result_bind] in H; try discriminate H.
    destruct (Pf _ _ _ E) as (_ & Htr). destruct (Ptl _ _ _ _ H) as (Hle & _).
    rewrite parse_term_S.
    rewrite (parse_factor_more tokens' f i (node, i1))
      by (apply Htr; intros k Hk; apply Hag; lia).
    cbn [mbind result_bind]. eauto.
  - intros node i t j H tokens' Hag Hj Hend. rewrite term_loop_S in H.
    rewrite term_loop_S.
    destruct (at_op tokens i "*") eqn:Eop.
    + destruct (parse_factor tokens f (i + 1)) as [[rhs i2]| |] eqn:E;
        cbn [mbind result_bind] in H; try discriminate H.
      destruct (Pf _ _ _ E) as (Hlt & Htr).
      destruct (Ptl _ _ _ _ H) as (Hle & _).
      rewrite (at_op_lookup tokens tokens'), Eop by (apply Hag; lia).
      rewrite (parse_factor_more tokens' f (i + 1) (rhs, i2))
        by (apply Htr; intros k Hk; apply Hag; lia).
      cbn [mbind result_bind]. eauto.
    + injection H as <- <-.
      rewrite (at_op_Some _ _ _ _ Hj), String.eqb_refl.
      rewrite parse_factor_S, Hend. reflexivity.
  - intros i t j H tokens' Hag Hj Hend. rewrite parse_sum_S in H.
    destruct (parse_term tokens f i) as [[node i1]| |] eqn:E;
      cbn [mbind result_bind] in H; try discriminate H.
    destruct (Pt _ _ _ E) as (_ & Hs1 & Htr).
    destruct (Psl _ _ _ _ Hs1 H) as (Hle & _).
    rewrite parse_sum_S.
    destruct (decide (i1 = j)) as [->|Hne].
    + rewrite (IHt _ _ _ E tokens' Hag Hj Hend). reflexivity.
    + rewrite (parse_term_more tokens' f i (node, i1)).
      * cbn [mbind result_bind]. eapply IHsl; eauto. lia.
      * apply Htr; [intros k Hk; apply Hag; lia|].
        rewrite (at_op_lookup tokens tokens') by (apply Hag; lia). exact Hs1.
  - intros node i t j Hi H Hlt tokens' Hag Hj Hend. rewrite sum_loop_S in H.
    rewrite sum_loop_S.
    destruct (at_op tokens i "+") eqn:Eop.
    2: { injection H as <- <-. lia. }
    destruct (parse_term tokens f (i + 1)) as [[rhs i2]| |] eqn:E;
      cbn [mbind result_bind] in H; try discriminate H.
    destruct (Pt _ _ _ E) as (_ & Hs1 & Htr).
    destruct (Psl _ _ _ _ Hs1 H) as (Hle & _).
    rewrite (at_op_lookup tokens tokens'), Eop by (apply Hag; lia).
    destruct (decide (i2 = j)) as [->|Hne].
    + rewrite (IHt _ _ _ E tokens' Hag Hj Hend). reflexivity.
    + rewrite (parse_term_more tokens' f (i + 1) (rhs, i2)).
      * cbn [mbind result_bind]. eapply IHsl; eauto. lia.
      * apply Htr; [intros k Hk; apply Hag; lia|].
        rewrite (at_op_lookup tokens tokens') by (apply Hag; lia). exact Hs1.
Qed.

(** A [+] where the parse ended, with nothing after it: the loop of
    [parse_sum] asks for a term past the end of the list. *)
Lemma parse_dangling_plus tokens fuel :
  (forall i t j, parse_sum tokens fuel i = Ok (t, j) ->
     forall tokens', (forall k, k < j -> tokens' !! k = tokens !! k) ->
       tokens' !! j = Some "+" -> tokens' !! (j + 1) = None ->
       parse_sum tokens' (S (S fuel)) i = Raise IndexError) /\
  (forall node i t j, at_op tokens i "*" = false ->
     sum_loop tokens fuel node i = Ok (t, j) ->
     forall tokens', (forall k, k < j -> tokens' !! k = tokens !! k) ->
       tokens' !! j = Some "+" -> tokens' !! (j + 1) = None ->
       sum_loop tokens' (S (S fuel)) node i = Raise IndexError).
Proof.
  induction fuel as [|f (IHs & IHsl)].
  { split; intros; discriminate. }
  destruct (parse_prefix tokens f) as (Pf & Pt & Ptl & Ps & Psl).
  assert (Hstar : forall tokens' i2 j,
            (forall k, k < j -> tokens' !! k = tokens !! k) ->
            tokens' !! j = Some "+" -> i2 <= j ->
            at_op tokens i2 "*" = false -> at_op tokens' i2 "*" = false).
  { intros tokens' i2 j Hag Hj Hle Hs1.
    destruct (decide (i2 = j)) as [->|Hne].
    - rewrite (at_op_Some _ _ _ _ Hj). reflexivity.
    - rewrite (at_op_lookup tokens tokens') by (apply Hag; lia). exact Hs1. }
  split.
  - intros i t j H tokens' Hag Hj Hend. rewrite parse_sum_S in H.
    destruct (parse_term tokens f i) as [[node i1]| |] eqn:E;
      cbn [mbind result_bind] in H; try discriminate H.
    destruct (Pt _ _ _ E) as (_ & Hs1 & Htr).
    destruct (Psl _ _ _ _ Hs1 H) as (Hle & _).
    rewrite parse_sum_S.
    rewrite (parse_term_more tokens' (S f) i (node, i1)).
    + cbn [mbind result_bind]. eauto.
    + apply parse_term_more, Htr; [intros k Hk; apply Hag; lia|].
      eapply Hstar; eauto.
  - intros node i t j Hi H tokens' Hag Hj Hend. rewrite sum_loop_S in H.
    rewrite sum_loop_S.
    destruct (at_op tokens i "+") eqn:Eop.
    + destruct (parse_term tokens f (i + 1)) as [[rhs i2]| |] eqn:E;
        cbn [mbind result_bind] in H; try discriminate H.
      destruct (Pt _ _ _ E) as (Hlt & Hs1 & Htr).
      destruct (Psl _ _ _ _ Hs1 H) as (Hle & _).
      rewrite (at_op_lookup tokens tokens'), Eop by (apply Hag; lia).
      rewrite (parse_term_more tokens' (S f) (i + 1) (rhs, i2)).
      * cbn [mbind result_bind]. eauto.
      * apply parse_term_more, Htr; [intros k Hk; apply Hag; lia|].
        eapply Hstar; eauto.
    + injection H as <- <-.
      rewrite (at_op_Some _ _ _ _ Hj), String.eqb_refl.
      rewrite parse_term_S, parse_factor_S, Hend. reflexivity.
Qed.

(** X9: when [parse_sum] consumes a token list to its end, the same tokens
    followed by one [+] or [*] make [parse_expression] raise IndexError:
    the operator asks for an operand past the end of the list. *)
Theorem dangling_operator_raises_index_error
  (tokens : list string) (fuel : nat) (t : tree) (op : string) :
  parse_sum tokens fuel 0 = Ok (t, length tokens) ->
  op = "+" \/ op = "*" ->
  parse_expression (tokens ++ [op]) (fuel + 2) = Raise IndexError.
Proof.
  intros H Hop. unfold parse_expression.
  assert (Hag : forall k, k < length tokens ->
                          (tokens ++ [op]) !! k = tokens !! k)
    by (intros k Hk; apply lookup_app_l, Hk).
  assert (Hj : (tokens ++ [op]) !! length tokens = Some op)
    by (apply list_lookup_middle; reflexivity).
  assert (Hend : (tokens ++ [op]) !! (length tokens + 1) = None)
    by (apply lookup_ge_None_2; rewrite length_app; simpl; lia).
  replace (fuel + 2) with (S (S fuel)) by lia.
  destruct Hop as [-> | ->].
  - destruct (parse_dangling_plus tokens fuel) as (Hs & _).
    rewrite (Hs _ _ _ H _ Hag Hj Hend). reflexivity.
  - destruct (parse_dangling_star tokens fuel) as (_ & _ & Hs & _).
    destruct (parse_mono (tokens ++ ["*"]) (S fuel)) as (_ & _ & _ & M & _).
    rewrite M; [|lia|]; rewrite (Hs _ _ _ H _ Hag Hj Hend);
      [reflexivity|discriminate].
Qed.

Lemma dangling_operator_raises_index_error_witness :
  (parse_sum ["a"; "*"; "b"] 5 0 = Ok (Node "*" (Leaf "a") (Leaf "b"),
                                      length ["a"; "*"; "b"]) /\
   ("+" = "+" \/ "+" = "*")) /\
  parse_expression (["a"; "*"; "b"] ++ ["+"]) (5 + 2) = Raise IndexError.
Proof.
  assert (H1 : parse_sum ["a"; "*"; "b"] 5 0
               = Ok (Node "*" (Leaf "a") (Leaf "b"), length ["a"; "*"; "b"]))
    by reflexivity.
  assert (H2 : "+" = "+" \/ "+" = "*") by (left; reflexivity).
  split; [split; assumption|].
  apply (dangling_operator_raises_index_error _ _ _ _ H1 H2).
Defined.

(** ** Parser: sums of products *)

Lemma at_op_after op pre post :
  not_next op post -> at_op (pre ++ post) (length pre) op = false.
Proof.
  intros H. destruct post as [|tok post].
  - apply at_op_end. rewrite app_nil_r. lia.
  - rewrite (at_op_Some _ _ tok) by (apply list_lookup_middle; reflexivity).
    apply String.eqb_neq, H.
Qed.

Lemma at_op_here op pre post :
  at_op (pre ++ op :: post) (length pre) op = true.
Proof.
  rewrite (at_op_Some _ _ op) by (apply list_lookup_middle; reflexivity).
  apply String.eqb_refl.
Qed.

Lemma term_loop_factors (fs : list tree) :
  Forall shape fs ->
  forall pre post node, not_next "*" post ->
  exists N, forall f, N <= f ->
    term_loop (pre ++ flat_map (fun g => "*" :: flat g) fs ++ post) f node
      (length pre)
    = Ok (foldl (Node "*") node fs,
          length pre + length (flat_map (fun g => "*" :: flat g) fs)).
Proof.
  induction 1 as [|g fs Hg Hfs IH]; intros pre post node Hpost.
  - exists 1. intros [|f] Hf; [lia|]. cbn [flat_map foldl app length].
    rewrite term_loop_S, at_op_after by exact Hpost.
    rewrite Nat.add_0_r. reflexivity.
  - destruct (IH (pre ++ "*" :: flat g) post (Node "*" node g) Hpost) as [N HN].
    exists (S (Nat.max N (need g))). intros [|f] Hf; [lia|].
    set (rest := flat_map (fun g => "*" :: flat g) fs) in *.
    remember (pre ++ flat_map (fun g => "*" :: flat g) (g :: fs) ++ post)
      as tokens eqn:Et.
    assert (E1 : tokens = pre ++ "*" :: (flat g ++ rest ++ post)).
    { subst tokens. simpl. rewrite <- app_assoc. reflexivity. }
    assert (E2 : tokens = (pre ++ ["*"]) ++ flat g ++ (rest ++ post)).
    { rewrite E1, <- !app_assoc. reflexivity. }
    assert (E3 : tokens = (pre ++ "*" :: flat g) ++ rest ++ post).
    { rewrite E1, <- !app_assoc. reflexivity. }
    assert (Hfac : parse_factor tokens f (length pre + 1)
                   = Ok (g, length (pre ++ "*" :: flat g))).
    { rewrite E2.
      replace (length pre + 1) with (length (pre ++ ["*"]))
        by (rewrite length_app; reflexivity).
      rewrite parse_factor_flat by (auto; lia).
      f_equal. f_equal. rewrite !length_app. simpl. lia. }
    rewrite term_loop_S, E1 at 1. rewrite at_op_here.
    rewrite Hfac. cbn [mbind result_bind]. rewrite E3, HN by lia.
    cbn [foldl flat_map]. fold rest. f_equal. f_equal.
    rewrite ?length_app. simpl. rewrite ?length_app. lia.
Qed.

Lemma parse_term_product (p : product) pre post :
  product_ok p -> not_next "*" post ->
  exists N, forall f, N <= f ->
    parse_term (pre ++ product_tokens p ++ post) f (length pre)
    = Ok (product_tree p, length pre + length (product_tokens p)).
Proof.
  intros [Hf Hfs] Hpost. destruct p as [g fs]. simpl in Hf, Hfs.
  unfold product_tokens, product_tree. cbn [fst snd].
  destruct (term_loop_factors fs Hfs (pre ++ flat g) post g Hpost) as [N HN].
  exists (S (Nat.max N (need g))). intros [|f] Hle; [lia|].
  rewrite parse_term_S.
  rewrite <- (app_assoc (flat g)).
  rewrite parse_factor_flat by (auto; lia). cbn [mbind result_bind].
  rewrite (app_assoc pre (flat g)).
  replace (length pre + length (flat g)) with (length (pre ++ flat g))
    by (rewrite length_app; reflexivity).
  rewrite HN by lia. f_equal. f_equal. rewrite !length_app. lia.
Qed.

Lemma not_next_products (qs : list product) post :
  not_next "*" post ->
  not_next "*" (flat_map (fun q => "+" :: product_tokens q) qs ++ post).
Proof. intros H. destruct qs; [exact H|simpl; discriminate]. Qed.

Lemma sum_loop_products (qs : list product) :
  Forall product_ok qs ->
  forall pre post node, not_next "*" post -> not_next "+" post ->
  exists N, forall f, N <= f ->
    sum_loop (pre ++ flat_map (fun q => "+" :: product_tokens q) qs ++ post) f
      node (length pre)
    = Ok (foldl (fun acc q => Node "+" acc (product_tree q)) node qs,
          length pre
          + length (flat_map (fun q => "+" :: product_tokens q) qs)).
Proof.
  induction 1 as [|q qs Hq Hqs IH]; intros pre post node Hs Hp.
  - exists 1. intros [|f] Hf; [lia|]. cbn [flat_map foldl app length].
    rewrite sum_loop_S, at_op_after by exact Hp.
    rewrite Nat.add_0_r. reflexivity.
  - set (rest := flat_map (fun q => "+" :: product_tokens q) qs).
    destruct (IH (pre ++ "+" :: product_tokens q) post
                (Node "+" node (product_tree q)) Hs Hp) as [N HN].
    destruct (parse_term_product q (pre ++ ["+"]) (rest ++ post) Hq
                (not_next_products qs post Hs)) as [M HM].
    exists (S (Nat.max N M)). intros [|f] Hf; [lia|].
    remember (pre ++ flat_map (fun q => "+" :: product_tokens q) (q :: qs)
              ++ post) as tokens eqn:Et.
    assert (E1 : tokens = pre ++ "+" :: (product_tokens q ++ rest ++ post)).
    { subst tokens. simpl. rewrite <- app_assoc. reflexivity. }
    assert (E2 : tokens = (pre ++ ["+"]) ++ product_tokens q ++ (rest ++ post)).
    { rewrite E1, <- !app_assoc. reflexivity. }
    assert (E3 : tokens = (pre ++ "+" :: product_tokens q) ++ rest ++ post).
    { rewrite E1, <- !app_assoc. reflexivity. }
    assert (Hterm : parse_term tokens f (length pre + 1)
                    = Ok (product_tree q,
                          length (pre ++ "+" :: product_tokens q))).
    { rewrite E2.
      replace (length pre + 1) with (length (pre ++ ["+"]))
        by (rewrite length_app; reflexivity).
      rewrite HM by lia.
      f_equal. f_equal. rewrite !length_app. simpl. lia. }
    rewrite sum_loop_S, E1 at 1. rewrite at_op_here.
    rewrite Hterm. cbn [mbind result_bind]. rewrite E3, HN by lia.
    cbn [foldl flat_map]. fold rest. f_equal. f_equal.
    rewrite ?length_app. simpl. rewrite ?length_app. lia.
Qed.

Lemma parse_sum_of_products (p : product) (qs : list product) :
  product_ok p -> Forall product_ok qs ->
  exists N, forall f, N <= f ->
    parse_expression (sum_tokens p qs) f = Ok (sum_tree p qs).
Proof.
  intros Hp Hqs. unfold sum_tokens, sum_tree.
  set (rest := flat_map (fun q => "+" :: product_tokens q) qs).
  destruct (parse_term_product p [] (rest ++ []) Hp
              (not_next_products qs [] I)) as [M HM].
  destruct (sum_loop_products qs Hqs (product_tokens p) [] (product_tree p) I I)
    as [N HN].
  exists (S (Nat.max N M)). intros [|f] Hf; [lia|].
  unfold parse_expression. rewrite parse_sum_S.
  simpl in HM. rewrite app_nil_r in HM. rewrite HM by lia.
  cbn [mbind result_bind]. fold rest in HN. rewrite app_nil_r in HN.
  rewrite HN by lia. reflexivity.
Qed.

Lemma parse_sum_tokens (p : product) (qs : list product) (fuel : nat) :
  product_ok p -> Forall product_ok qs ->
  4 * length (sum_tokens p qs) + 3 <= fuel ->
  parse_expression (sum_tokens p qs) fuel = Ok (sum_tree p qs).
Proof.
  intros Hp Hqs Hf.
  destruct (parse_sum_of_products p qs Hp Hqs) as [N HN].
  assert (Hs : settled (parse_expression (sum_tokens p qs) fuel)).
  { unfold parse_expression.
    apply settled_bind; [|intros [node j] _; discriminate].
    apply (parse_settles _ (length (sum_tokens p qs))); lia. }
  rewrite <- (parse_expression_mono _ fuel (Nat.max N fuel)) by (auto; lia).
  apply HN. lia.
Qed.

(** X10: a sum of products of factors, written without parentheses around
    the products, parses to the tree that groups each product first and
    nests products and sums to the left: [*] binds tighter than [+], and
    both associate to the left.  A factor is an atom or a printed
    group. *)
Theorem parser_precedence_and_associativity
  (p : product) (qs : list product) (fuel : nat) :
  product_ok p -> Forall product_ok qs ->
  4 * length (sum_tokens p qs) + 3 <= fuel ->
  parse_expression (sum_tokens p qs) fuel = Ok (sum_tree p qs).
Proof. apply parse_sum_tokens. Qed.

Lemma parser_precedence_and_associativity_witness :
  (product_ok (Leaf "a", [Leaf "b"; Leaf "c"]) /\
   Forall product_ok [(Leaf "d", [Leaf "e"]); (Leaf "f", [])] /\
   4 * length (sum_tokens (Leaf "a", [Leaf "b"; Leaf "c"])
                 [(Leaf "d", [Leaf "e"]); (Leaf "f", [])]) + 3 <= 50) /\
  parse_expression ["a"; "*"; "b"; "*"; "c"; "+"; "d"; "*"; "e"; "+"; "f"] 50
  = Ok (Node "+"
          (Node "+" (Node "*" (Node "*" (Leaf "a") (Leaf "b")) (Leaf "c"))
                    (Node "*" (Leaf "d") (Leaf "e")))
          (Leaf "f")).
Proof.
  assert (H1 : product_ok (Leaf "a", [Leaf "b"; Leaf "c"])).
  { split; [reflexivity|]. repeat constructor. }
  assert (H2 : Forall product_ok [(Leaf "d", [Leaf "e"]); (Leaf "f", [])]).
  { repeat constructor. }
  assert (H3 : 4 * length (sum_tokens (Leaf "a", [Leaf "b"; Leaf "c"])
                 [(Leaf "d", [Leaf "e"]); (Leaf "f", [])]) + 3 <= 50)
    by (simpl; lia).
  split; [exact (conj H1 (conj H2 H3))|].
  apply (parser_precedence_and_associativity _ _ 50 H1 H2 H3).
Defined.

(** ** The value of a tree *)

Lemma to_N_str (n : N) : to_N (str n) = n.
Proof.
  unfold to_N. rewrite (int_to_N _ (isdigit_str n)).
  unfold to_N, int. rewrite isdigit_str. unfold str.
  assert (Hn : N.to_uint n <> Nil).
  { destruct n; [discriminate|apply DecimalPos.Unsigned.to_uint_nonnil]. }
  assert (E : NilZero.string_of_uint (N.to_uint n)
              = NilEmpty.string_of_uint (N.to_uint n)).
  { unfold NilZero.string_of_uint. destruct (N.to_uint n); congruence. }
  rewrite E, NilEmpty.usu. apply DecimalN.Unsigned.of_to.
Qed.

Lemma is_literal_eq s t : is_literal s t = true -> t = Leaf s.
Proof.
  destruct t as [w|]; [|discriminate]. simpl. intros H.
  apply String.eqb_eq in H. congruence.
Qed.

Lemma first_match_eval env v l r t' :
  v = "+" \/ v = "*" ->
  first_match spec_priority v l r = Some t' ->
  eval env t' = eval env (Node v l r).
Proof.
  intros Hv.
  unfold spec_priority, first_match, spec_add_zero_right, spec_add_zero_left,
    spec_mul_one_right, spec_mul_one_left, spec_mul_zero, spec_fold,
    spec_distribute.
  destruct Hv as [-> | ->];
    rewrite ?String.eqb_refl;
    change (String.eqb "+" "*") with false;
    change (String.eqb "*" "+") with false;
    cbn [andb eval];
    rewrite ?String.eqb_refl;
    change (String.eqb "*" "+") with false; cbn iota.
  - destruct (is_literal "0" r) eqn:Er.
    { intros [= <-]. apply is_literal_eq in Er as ->. simpl. lia. }
    destruct (is_literal "0" l) eqn:El.
    { intros [= <-]. apply is_literal_eq in El as ->. simpl. lia. }
    destruct l as [a|], r as [b|]; try discriminate.
    destruct (isdigit a) eqn:Da, (isdigit b) eqn:Db; try discriminate.
    intros [= <-]. cbn [andb eval]. rewrite isdigit_str, Da, Db, to_N_str.
    lia.
  - destruct (is_literal "1" r) eqn:Er.
    { intros [= <-]. apply is_literal_eq in Er as ->. simpl. lia. }
    destruct (is_literal "1" l) eqn:El.
    { intros [= <-]. apply is_literal_eq in El as ->. simpl. lia. }
    destruct (is_literal "0" l || is_literal "0" r) eqn:Ez.
    { intros [= <-]. apply orb_prop in Ez as [Ez|Ez];
        apply is_literal_eq in Ez as ->; simpl; lia. }
    destruct l as [a|la l1 l2], r as [b|rb r1 r2].
    + destruct (isdigit a) eqn:Da, (isdigit b) eqn:Db; try discriminate.
      intros [= <-]. cbn [andb eval]. rewrite isdigit_str, Da, Db, to_N_str.
      lia.
    + destruct (String.eqb rb "+") eqn:Erb; [|discriminate].
      intros [= <-]. cbn [eval]. rewrite Erb.
      change (String.eqb "+" "+") with true.
      change (String.eqb "*" "+") with false. cbn iota. lia.
    + discriminate.
    + destruct (String.eqb rb "+") eqn:Erb; [|discriminate].
      intros [= <-]. cbn [eval]. rewrite Erb.
      change (String.eqb "+" "+") with true.
      change (String.eqb "*" "+") with false. cbn iota. lia.
Qed.

Lemma contract_eval env v l r :
  shape (Node v l r) -> eval env (contract v l r) = eval env (Node v l r).
Proof.
  intros Hs. rewrite (contract_spec_contract v l r Hs). unfold spec_contract.
  destruct (first_match spec_priority v l r) as [t'|] eqn:E; [|reflexivity].
  destruct Hs as (Hv & _). eapply first_match_eval; eauto.
Qed.

Lemma step_eval env t t' : step t t' -> shape t -> eval env t' = eval env t.
Proof.
  induction 1 as [v l r|v l l' r _ IH|v l r r' _ IH]; intros Hs.
  - apply contract_eval, Hs.
  - destruct Hs as (Hv & Hl & Hr). simpl. rewrite (IH Hl). reflexivity.
  - destruct Hs as (Hv & Hl & Hr). simpl. rewrite (IH Hr). reflexivity.
Qed.

Lemma red_eval env t t' : red t t' -> shape t -> eval env t' = eval env t.
Proof.
  induction 1 as [t|t u w Hs _ IH]; intros Ht; [reflexivity|].
  rewrite IH by (eapply step_shape; eauto). apply step_eval; assumption.
Qed.

(** X12: one call of [rewrite] on an object that reads as a parser tree
    returns an object that reads as a tree of the same value, whatever
    integers the identifiers stand for; and every object of the store
    that read as a parser tree before the call, shared or not, reads
    after it as a tree of the same value. *)
Theorem rewrite_preserves_value
  (h : heap) (node : nat) (t : tree) (fuel : nat) :
  repr h node t -> shape t -> weight t <= fuel ->
  exists node' h' t',
    rewrite fuel h node = Ok (node', h') /\
    repr h' node' t' /\ (forall env, eval env t' = eval env t) /\
    forall x u, repr h x u -> shape u ->
      exists u', repr h' x u' /\ forall env, eval env u' = eval env u.
Proof.
  intros Hn Hs Hw.
  destruct (rewrite_spec fuel h node t Hn Hs Hw)
    as (node' & h' & t1 & t' & E & Ev & R1 & R' & D1 & D2 & _).
  exists node', h', t'. split; [exact E|]. split; [exact R'|]. split.
  - intros env. apply red_eval; [|exact Hs]. eapply red_trans; eauto.
  - intros x u Hx Hu. destruct (Ev x u Hx) as (u' & Hx' & D).
    exists u'. split; [exact Hx'|]. intros env. apply red_eval; assumption.
Qed.

Lemma rewrite_preserves_value_witness :
  (repr demo_heap 4 demo_product /\ shape demo_product /\
   weight demo_product <= 21) /\
  exists node' h' t',
    rewrite 21 demo_heap 4 = Ok (node', h') /\
    repr h' node' t' /\ (forall env, eval env t' = eval env demo_product) /\
    forall x u, repr demo_heap x u -> shape u ->
      exists u', repr h' x u' /\ forall env, eval env u' = eval env u.
Proof.
  assert (H1 : repr demo_heap 4 demo_product).
  { exists 0, 3. split; [reflexivity|]. split; [reflexivity|].
    exists 1, 2. split; [reflexivity|]. split; reflexivity. }
  assert (H2 : shape demo_product).
  { simpl. split; [right; reflexivity|]. split; [reflexivity|].
    split; [left; reflexivity|]. split; reflexivity. }
  assert (H3 : weight demo_product <= 21) by (simpl; lia).
  split; [exact (conj H1 (conj H2 H3))|].
  apply (rewrite_preserves_value demo_heap 4 demo_product 21 H1 H2 H3).
Defined.

(** X14: the tree that [saturation] returns for a parsed tree has the value
    of the parsed tree, whatever integers the identifiers stand for. *)
Theorem saturation_preserves_value
  (tokens : list string) (pf : nat) (t : tree) (h0 : heap) (a : nat)
  (h : heap) (fuel : nat) :
  parse_expression tokens pf = Ok t -> store t h0 = (a, h) ->
  weight t + 2 <= fuel ->
  exists r h' s,
    saturation fuel h a = Ok (r, h') /\ repr h' r s /\
    forall env, eval env s = eval env t.
Proof.
  intros Hp Hst Hf.
  pose proof (parse_shape _ _ _ Hp) as Hs.
  destruct (store_spec _ _ _ _ Hst) as [_ Ha].
  destruct (saturation_spec fuel h a t Ha Hs Hf)
    as (r & h' & s & E & Rs & D & _ & _).
  exists r, h', s. split; [exact E|]. split; [exact Rs|].
  intros env. apply red_eval; assumption.
Qed.

Lemma saturation_preserves_value_witness :
  (parse_expression (tokenize "a*(b+c)") 8 = Ok demo_product /\
   store demo_product [] = (4, demo_heap) /\
   weight demo_product + 2 <= 23) /\
  exists r h' s,
    saturation 23 demo_heap 4 = Ok (r, h') /\ repr h' r s /\
    forall env, eval env s = eval env demo_product.
Proof.
  assert (H1 : parse_expression (tokenize "a*(b+c)") 8 = Ok demo_product)
    by reflexivity.
  assert (H2 : store demo_product [] = (4, demo_heap)) by reflexivity.
  assert (H3 : weight demo_product + 2 <= 23) by (simpl; lia).
  split; [exact (conj H1 (conj H2 H3))|].
  apply (saturation_preserves_value _ _ _ _ _ _ _ H1 H2 H3).
Defined.








Lemma expand_identifiers v l r x :
  x ∈ identifiers (expand v l r) -> x ∈ identifiers (Node v l r).
Proof.
  unfold expand. destruct r as [w|w b c]; [auto|].
  destruct (String.eqb v "*" && String.eqb w "+"); [|auto].
  simpl. rewrite !elem_of_app. tauto.
Qed.

Lemma contract_identifiers v l r x :
  x ∈ identifiers (contract v l r) -> x ∈ identifiers (Node v l r).
Proof.
  pose proof (expand_identifiers v l r x) as He.
  assert (Hd : forall n, x ∈ identifiers (Leaf (str n)) ->
                         x ∈ identifiers (Node v l r)).
  { intros n. simpl. rewrite isdigit_str. intros H. inversion H. }
  assert (Hz : x ∈ identifiers (Leaf "0") -> x ∈ identifiers (Node v l r)).
  { simpl. intros H. inversion H. }
  unfold contract.
  repeat match goal with
  | |- context [if ?b then _ else _] => destruct b
  end;
    first [exact He|apply Hd|exact Hz|simpl; rewrite elem_of_app; auto].
Qed.

Lemma step_identifiers t t' x :
  step t t' -> x ∈ identifiers t' -> x ∈ identifiers t.
Proof.
  induction 1 as [v l r|v l l' r _ IH|v l r r' _ IH].
  - apply contract_identifiers.
  - simpl. rewrite !elem_of_app. tauto.
  - simpl. rewrite !elem_of_app. tauto.
Qed.

Lemma red_identifiers t t' x :
  red t t' -> x ∈ identifiers t' -> x ∈ identifiers t.
Proof. induction 1; eauto using step_identifiers. Qed.

Lemma identifiers_leaves t x : x ∈ identifiers t -> x ∈ leaves t.
Proof.
  induction t as [v|v l IHl r IHr]; simpl.
  - destruct (isdigit v); [intros H; inversion H|auto].
  - rewrite !elem_of_app. tauto.
Qed.

(** X16: every identifier of the saturated tree is an identifier of the
    parsed tree, and a token of the input. *)
Theorem saturation_invents_no_identifier
  (tokens : list string) (pf : nat) (t : tree) (h0 : heap) (a : nat)
  (h : heap) (fuel : nat) :
  parse_expression tokens pf = Ok t -> store t h0 = (a, h) ->
  weight t + 2 <= fuel ->
  exists r h' s,
    saturation fuel h a = Ok (r, h') /\ repr h' r s /\
    forall x, x ∈ identifiers s -> x ∈ identifiers t /\ x ∈ tokens.
Proof.
  intros Hp Hst Hf.
  pose proof (parse_shape _ _ _ Hp) as Hs.
  destruct (store_spec _ _ _ _ Hst) as [_ Ha].
  destruct (saturation_spec fuel h a t Ha Hs Hf)
    as (r & h' & s & E & Rs & D & _ & _).
  exists r, h', s. split; [exact E|]. split; [exact Rs|].
  intros x Hx. pose proof (red_identifiers _ _ _ D Hx) as Hx'.
  split; [exact Hx'|].
  unfold parse_expression in Hp.
  destruct (parse_sum tokens pf 0) as [[node j]| |] eqn:Ep;
    cbn [mbind result_bind] in Hp; try discriminate Hp.
  injection Hp as ->.
  destruct (parse_leaves tokens pf) as (_ & _ & _ & Hl & _).
  pose proof (Hl _ _ _ Ep) as Hsub.
  apply identifiers_leaves in Hx'.
  pose proof (elem_of_sublist _ _ _ Hx' Hsub) as Hx2.
  unfold slice in Hx2. rewrite drop_0 in Hx2.
  exact (elem_of_sublist _ _ _ Hx2 (sublist_take _ _)).
Qed.

Lemma saturation_invents_no_identifier_witness :
  (parse_expression (tokenize "a*(b+c)") 8 = Ok demo_product /\
   store demo_product [] = (4, demo_heap) /\
   weight demo_product + 2 <= 23) /\
  exists r h' s,
    saturation 23 demo_heap 4 = Ok (r, h') /\ repr h' r s /\
    forall x, x ∈ identifiers s ->
              x ∈ identifiers demo_product /\ x ∈ tokenize "a*(b+c)".
Proof.
  assert (H1 : parse_expression (tokenize "a*(b+c)") 8 = Ok demo_product)
    by reflexivity.
  assert (H2 : store demo_product [] = (4, demo_heap)) by reflexivity.
  assert (H3 : weight demo_product + 2 <= 23) by (simpl; lia).
  split; [exact (conj H1 (conj H2 H3))|].
  apply (saturation_invents_no_identifier _ _ _ _ _ _ _ H1 H2 H3).
Defined.

(** ** Normal trees, fresh results, equality *)

Lemma cell_lookup (h : heap) a c : cell h a = Some c -> h !! a = Some (Some c).
Proof.
  unfold cell. destruct (h !! a) as [[c'|]|]; intros H; try discriminate H.
  congruence.
Qed.

(** A pass over a tree on which no rule fires assigns to every operator
    node the children it has, and returns the node it was given. *)
Lemma rewrite_normal (fuel : nat) :
  forall (h : heap) node t,
    repr h node t -> shape t -> normal t -> weight t <= fuel ->
    rewrite fuel h node = Ok (node, h).
Proof.
  induction fuel as [|f IH]; intros h node t Hn Hs Hnf Hw.
  { pose proof (weight_ge t). lia. }
  rewrite rewrite_unfold. destruct t as [v|v tl tr]; simpl in Hn.
  - rewrite (deref_cell _ _ _ Hn). reflexivity.
  - destruct Hn as (l & r & Hc & Hl & Hr).
    assert (Hs' := Hs). destruct Hs' as (Hv & Hsl & Hsr).
    destruct Hnf as (Nl & Nr & Hk).
    destruct (weight_children v tl tr) as [Wl Wr].
    rewrite (deref_cell _ _ _ Hc). cbn [mbind result_bind left].
    rewrite (IH h l tl) by (auto; lia). cbn [mbind result_bind].
    unfold set_left. rewrite (deref_cell _ _ _ Hc).
    cbn [mbind result_bind value right].
    rewrite (list_insert_id h node) by (apply cell_lookup, Hc).
    rewrite (deref_cell _ _ _ Hc). cbn [mbind result_bind right some_ref].
    rewrite (IH h r tr) by (auto; lia). cbn [mbind result_bind].
    unfold set_right. rewrite (deref_cell _ _ _ Hc).
    cbn [mbind result_bind value left].
    rewrite (list_insert_id h node) by (apply cell_lookup, Hc).
    destruct (rules_spec h node v l r tl tr Hc Hl Hr Hs) as (a & ext & E & _ & Hid).
    destruct (Hid Hk) as [-> ->]. rewrite app_nil_r in E. exact E.
Qed.

(** X13: on a tree to which no rule applies anywhere, [rewrite] returns the
    object it was given and leaves the store as it was; and a call of
    [rewrite] whose result reads as the tree it was given was given such
    a tree.  This is what the test [prev != current] of the driver relies
    on. *)
Theorem rewrite_is_the_identity_on_normal_trees
  (h : heap) (node : nat) (t : tree) (fuel : nat) :
  repr h node t -> shape t -> weight t <= fuel ->
  (normal t -> rewrite fuel h node = Ok (node, h)) /\
  (forall node' h', rewrite fuel h node = Ok (node', h') ->
                    repr h' node' t -> normal t).
Proof.
  intros Hn Hs Hw. split.
  - intros Hnf. apply (rewrite_normal fuel h node t); assumption.
  - intros node' h' E R.
    destruct (rewrite_spec fuel h node t Hn Hs Hw)
      as (node2 & h2 & t1 & t' & E2 & _ & _ & R' & _ & _ & _ & P).
    rewrite E in E2. injection E2 as <- <-.
    apply P. eapply repr_fun; eauto.
Qed.

Lemma rewrite_is_the_identity_on_normal_trees_witness :
  (repr demo_heap 3 (Node "+" (Leaf "b") (Leaf "c")) /\
   shape (Node "+" (Leaf "b") (Leaf "c")) /\
   weight (Node "+" (Leaf "b") (Leaf "c")) <= 7) /\
  (normal (Node "+" (Leaf "b") (Leaf "c")) ->
   rewrite 7 demo_heap 3 = Ok (3, demo_heap)) /\
  (forall node' h', rewrite 7 demo_heap 3 = Ok (node', h') ->
                    repr h' node' (Node "+" (Leaf "b") (Leaf "c")) ->
                    normal (Node "+" (Leaf "b") (Leaf "c"))).
Proof.
  assert (H1 : repr demo_heap 3 (Node "+" (Leaf "b") (Leaf "c"))).
  { exists 1, 2. split; [reflexivity|]. split; reflexivity. }
  assert (H2 : shape (Node "+" (Leaf "b") (Leaf "c"))).
  { simpl. split; [left; reflexivity|]. split; reflexivity. }
  assert (H3 : weight (Node "+" (Leaf "b") (Leaf "c")) <= 7) by (simpl; lia).
  split; [exact (conj H1 (conj H2 H3))|].
  apply (rewrite_is_the_identity_on_normal_trees demo_heap 3 _ 7 H1 H2 H3).
Defined.

Lemma sat_loop_region (n0 fuel : nat) :
  forall n (h : heap) prev current r h',
    sat_loop n fuel h prev current = Ok (r, h') ->
    within (fun a => n0 <= a) h -> n0 <= current -> current < length h ->
    within (fun a => n0 <= a) h' /\ n0 <= r /\ r < length h'.
Proof.
  induction n as [|n IH]; intros h prev current r h' H Hin Hc Hl;
    [discriminate|].
  rewrite sat_loop_unfold in H.
  destruct (differs fuel h prev current) as [d| |]; cbn [mbind result_bind] in H;
    try discriminate H.
  destruct d; [|injection H as <- <-; auto].
  destruct (deepcopy fuel ∅ h current) as [[[p memo] h1]| |] eqn:E1;
    cbn [mbind result_bind] in H; try discriminate H.
  destruct (rewrite fuel h1 current) as [[c' h2]| |] eqn:E2;
    cbn [mbind result_bind] in H; try discriminate H.
  destruct (deepcopy_frame n0 fuel _ _ _ _ _ _ E1) as (K1 & (L1 & _ & W1) & _).
  { split; [lia|]. split; [|exact Hin].
    intros x b E. rewrite lookup_empty in E. discriminate. }
  destruct (rewrite_frame (fun a => n0 <= a) fuel _ _ _ _ E2 W1 Hc)
    as (W2 & Hc' & Hlt & _ & _); [intros x Hx; lia|].
  apply (IH _ _ _ _ _ H W2 Hc' Hlt).
Qed.

(** X17: every object reachable from the object that [saturation]
    returns was allocated by the call: the result shares no object with
    the tree it was made from, nor with anything else of the caller. *)
Theorem saturation_result_is_fresh
  (fuel : nat) (h : heap) (ast r : nat) (h' : heap) :
  saturation fuel h ast = Ok (r, h') ->
  forall x, rtc (child h') r x -> length h <= x < length h'.
Proof.
  unfold saturation. intros H.
  destruct (deepcopy fuel ∅ h ast) as [[[current memo] h1]| |] eqn:E0;
    cbn [mbind result_bind] in H; try discriminate H.
  destruct (deepcopy_frame (length h) fuel _ _ _ _ _ _ E0 (copy_inv_fresh h))
    as (K0 & (L1 & _ & W1) & Hcur).
  destruct (sat_loop_region (length h) fuel _ _ _ _ _ _ H W1)
    as (W & Hr & Hlt); [lia|lia|].
  clear H. intros x Hx.
  induction Hx as [r|r y z (c & Hc & Hy) _ IH]; [lia|].
  destruct (W r c y Hr Hc Hy) as [Hy1 Hy2]. apply IH; assumption.
Qed.

Lemma saturation_result_is_fresh_witness :
  exists r h',
    saturation 23 demo_heap 4 = Ok (r, h') /\
    forall x, rtc (child h') r x -> length demo_heap <= x < length h'.
Proof.
  eexists _, _. split; [vm_compute; reflexivity|].
  eapply (saturation_result_is_fresh 23 demo_heap 4).
  vm_compute. reflexivity.
Defined.

(** X18: [__eq__] returns True exactly when the two objects unfold to the
    same tree, whether or not they share objects, and raises nothing. *)
Theorem eq_compares_what_the_objects_unfold_to
  (h : heap) (a b : nat) (ta tb : tree) (fuel : nat) :
  repr h a ta -> repr h b tb -> weight ta <= fuel ->
  exists res, node_eq fuel h a b = Ok res /\ (res = true <-> ta = tb).
Proof. intros Ha Hb Hw. eapply node_eq_spec; eauto. Qed.

Lemma print_ast_injective t u :
  shape t -> shape u -> print_ast t = print_ast u -> t = u.
Proof.
  intros Ht Hu E.
  assert (Ef : flat t = flat u)
    by (rewrite <- (tokenize_print t Ht), <- (tokenize_print u Hu), E;
        reflexivity).
  pose proof (parse_flat t (Nat.max (need t) (need u) + 2) Ht ltac:(lia)) as P1.
  pose proof (parse_flat u (Nat.max (need t) (need u) + 2) Hu ltac:(lia)) as P2.
  rewrite Ef in P1. congruence.
Qed.

(** X19: two objects that read as parser trees are printed as the same text
    exactly when [__eq__] holds between them. *)
Theorem print_ast_tells_apart_what_eq_tells_apart
  (h : heap) (a b : nat) (ta tb : tree) (fuel : nat) :
  repr h a ta -> repr h b tb -> shape ta -> shape tb ->
  weight ta <= fuel -> weight tb <= fuel ->
  exists pa pb res,
    Obj.print_ast fuel h a = Ok pa /\ Obj.print_ast fuel h b = Ok pb /\
    node_eq fuel h a b = Ok res /\ (res = true <-> pa = pb).
Proof.
  intros Ha Hb Hsa Hsb Hwa Hwb.
  destruct (node_eq_spec fuel h a b ta tb Ha Hb Hwa) as (res & E & Hres).
  exists (print_ast ta), (print_ast tb), res.
  split; [apply print_ast_spec; assumption|].
  split; [apply print_ast_spec; assumption|].
  split; [exact E|]. rewrite Hres. split; [congruence|].
  apply print_ast_injective; assumption.
Qed.

Lemma eq_compares_what_the_objects_unfold_to_witness :
  (repr demo_heap 3 (Node "+" (Leaf "b") (Leaf "c")) /\
   repr demo_heap 1 (Leaf "b") /\
   weight (Node "+" (Leaf "b") (Leaf "c")) <= 7) /\
  exists res, node_eq 7 demo_heap 3 1 = Ok res /\
              (res = true <-> Node "+" (Leaf "b") (Leaf "c") = Leaf "b").
Proof.
  assert (H1 : repr demo_heap 3 (Node "+" (Leaf "b") (Leaf "c"))).
  { exists 1, 2. split; [reflexivity|]. split; reflexivity. }
  assert (H2 : repr demo_heap 1 (Leaf "b")) by reflexivity.
  assert (H3 : weight (Node "+" (Leaf "b") (Leaf "c")) <= 7) by (simpl; lia).
  split; [exact (conj H1 (conj H2 H3))|].
  apply (eq_compares_what_the_objects_unfold_to demo_heap 3 1 _ _ 7 H1 H2 H3).
Defined.

Lemma print_ast_tells_apart_what_eq_tells_apart_witness :
  (repr demo_heap 1 (Leaf "b") /\ repr demo_heap 2 (Leaf "c") /\
   shape (Leaf "b") /\ shape (Leaf "c") /\
   weight (Leaf "b") <= 3 /\ weight (Leaf "c") <= 3) /\
  exists pa pb res,
    Obj.print_ast 3 demo_heap 1 = Ok pa /\ Obj.print_ast 3 demo_heap 2 = Ok pb /\
    node_eq 3 demo_heap 1 2 = Ok res /\ (res = true <-> pa = pb).
Proof.
  assert (H1 : repr demo_heap 1 (Leaf "b")) by reflexivity.
  assert (H2 : repr demo_heap 2 (Leaf "c")) by reflexivity.
  assert (H3 : shape (Leaf "b")) by reflexivity.
  assert (H4 : shape (Leaf "c")) by reflexivity.
  assert (H5 : weight (Leaf "b") <= 3) by (simpl; lia).
  assert (H6 : weight (Leaf "c") <= 3) by (simpl; lia).
  split; [exact (conj H1 (conj H2 (conj H3 (conj H4 (conj H5 H6)))))|].
  apply (print_ast_tells_apart_what_eq_tells_apart demo_heap 1 2 _ _ 3
           H1 H2 H3 H4 H5 H6).
Defined.

(** ** A pass on a tree without sharing *)

Lemma tree_at_bounds h a t lo hi : tree_at h a t lo hi -> lo <= a < hi.
Proof. destruct t; intros [H _]; exact H. Qed.

Lemma tree_at_repr h a t : forall lo hi, tree_at h a t lo hi -> repr h a t.
Proof.
  revert a. induction t as [v|v tl IHl tr IHr]; intros a lo hi [_ H].
  - exact H.
  - destruct H as (l & r & mid & Hc & Hl & Hr). exists l, r. eauto.
Qed.

Lemma tree_at_ext (h h' : heap) t :
  forall a lo hi, (forall x, lo <= x < hi -> h' !! x = h !! x) ->
                  tree_at h a t lo hi -> tree_at h' a t lo hi.
Proof.
  induction t as [v|v tl IHl tr IHr]; intros a lo hi Hag [Hb H];
    (split; [exact Hb|]).
  - rewrite <- H. apply cell_ext, Hag, Hb.
  - destruct H as (l & r & mid & Hc & Hl & Hr).
    pose proof (tree_at_bounds _ _ _ _ _ Hl).
    pose proof (tree_at_bounds _ _ _ _ _ Hr).
    exists l, r, mid. split; [|split].
    + rewrite <- Hc. apply cell_ext, Hag, Hb.
    + apply IHl; [|exact Hl]. intros x Hx. apply Hag. lia.
    + apply IHr; [|exact Hr]. intros x Hx. apply Hag. lia.
Qed.

Lemma tree_at_wider h t :
  forall a lo hi hi', hi <= hi' -> tree_at h a t lo hi -> tree_at h a t lo hi'.
Proof.
  destruct t; intros a lo hi hi' Hle [Hb H]; (split; [lia|exact H]).
Qed.

Lemma store_tree_at (t : tree) :
  forall (h0 : heap) a h,
    store t h0 = (a, h) -> tree_at h a t (length h0) (length h).
Proof.
  induction t as [v|v tl IHl tr IHr]; intros h0 a h H; simpl in H.
  - injection H as <- <-. rewrite length_app. simpl.
    split; [lia|apply lookup_new].
  - destruct (store tl h0) as [l h1] eqn:E1.
    destruct (store tr h1) as [r h2] eqn:E2.
    injection H as <- <-.
    pose proof (IHl _ _ _ E1) as Hl. pose proof (IHr _ _ _ E2) as Hr.
    destruct (store_spec _ _ _ _ E1) as [K1 _].
    destruct (store_spec _ _ _ _ E2) as [K2 _].
    pose proof (keeps_length _ _ K1). pose proof (keeps_length _ _ K2).
    rewrite length_app. simpl. split; [lia|].
    exists l, r, (length h1). split; [apply lookup_new|]. split.
    + apply (tree_at_ext h1); [|exact Hl]. intros x Hx.
      rewrite lookup_app_l by lia. apply K2. lia.
    + apply (tree_at_ext h2); [|exact Hr]. intros x Hx.
      apply lookup_app_l. lia.
Qed.

Lemma child_cases h a v l r y :
  cell h a = Some (mkNode v l r) -> child h a y -> l = Some y \/ r = Some y.
Proof. intros Hc (c & Hc' & Hy). rewrite Hc in Hc'. injection Hc' as <-. exact Hy. Qed.

Lemma reach_repr h x : forall a t,
  repr h a t -> rtc (child h) a x -> exists u, repr h x u.
Proof.
  intros a t Ha Hx. revert t Ha.
  induction Hx as [a|a y x Hy _ IH]; intros t Ha; [eauto|].
  destruct t as [v|v tl tr]; simpl in Ha.
  - destruct (child_cases _ _ _ _ _ _ Ha Hy); discriminate.
  - destruct Ha as (l & r & Hc & Hl & Hr).
    destruct (child_cases _ _ _ _ _ _ Hc Hy) as [[= ->]|[= ->]]; eauto.
Qed.

Lemma reach_within h a t : repr h a t -> within (reach h a) h.
Proof.
  intros Ha x c k [Hx|Hx] Hc Hk.
  2: { apply cell_lt in Hc. lia. }
  destruct (reach_repr h x a t Ha Hx) as [u Hu].
  assert (Hch : child h x k) by (exists c; auto).
  split; [left; eapply rtc_r; eauto|].
  destruct u as [v|v tl tr]; simpl in Hu.
  - destruct (child_cases _ _ _ _ _ _ Hu Hch); discriminate.
  - destruct Hu as (l & r & Hc' & Hl & Hr).
    destruct (child_cases _ _ _ _ _ _ Hc' Hch) as [[= ->]|[= ->]];
      eapply repr_lt; eauto.
Qed.

Lemma within_closed (Q : nat -> Prop) h a x :
  within Q h -> Q a -> rtc (child h) a x -> Q x.
Proof.
  intros W Ha Hx. induction Hx as [a|a y x (c & Hc & Hy) _ IH]; [exact Ha|].
  apply IH. apply (W a c y Ha Hc Hy).
Qed.

Lemma tree_at_reach h t :
  forall a lo hi x, tree_at h a t lo hi -> rtc (child h) a x -> lo <= x < hi.
Proof.
  induction t as [v|v tl IHl tr IHr]; intros a lo hi x [Hb H] Hx.
  - destruct Hx as [|a y x Hy _]; [exact Hb|].
    destruct (child_cases _ _ _ _ _ _ H Hy); discriminate.
  - destruct H as (l & r & mid & Hc & Hl & Hr).
    pose proof (tree_at_bounds _ _ _ _ _ Hl).
    pose proof (tree_at_bounds _ _ _ _ _ Hr).
    destruct Hx as [|a y x Hy Hx]; [exact Hb|].
    destruct (child_cases _ _ _ _ _ _ Hc Hy) as [[= ->]|[= ->]].
    + pose proof (IHl _ _ _ _ Hl Hx). lia.
    + pose proof (IHr _ _ _ _ Hr Hx). lia.
Qed.

Lemma pass_shape t : shape t -> shape (pass t).
Proof.
  induction t as [v|v tl IHl tr IHr]; [auto|].
  intros (Hv & Hl & Hr). simpl. apply contract_shape. simpl. auto.
Qed.

Lemma pass_red t : red t (pass t).
Proof.
  induction t as [v|v tl IHl tr IHr]; [apply rtc_refl|].
  simpl. eapply red_trans; [apply red_node; eassumption|apply red_contract].
Qed.

(** What a call of [rewrite] on a tree writes: the objects of the tree
    and objects it allocates. *)
Lemma rewrite_tree_frame fuel (h : heap) a t lo hi a' h' :
  tree_at h a t lo hi -> hi <= length h ->
  rewrite fuel h a = Ok (a', h') ->
  (forall x, x < length h -> ~ lo <= x < hi -> h' !! x = h !! x) /\
  length h <= length h' /\ a' < length h' /\
  (forall x, rtc (child h') a' x -> lo <= x < hi \/ length h <= x).
Proof.
  intros Ht Hhi E. pose proof (tree_at_repr _ _ _ _ _ Ht) as Ha.
  destruct (rewrite_frame (reach h a) fuel _ _ _ _ E (reach_within _ _ _ Ha))
    as (W & Ra & Hlt & F & L).
  { left. apply rtc_refl. }
  { intros x Hx. right. exact Hx. }
  assert (Hin : forall x, reach h a x -> lo <= x < hi \/ length h <= x).
  { intros x [Hx|Hx]; [left; eapply tree_at_reach; eauto|right; exact Hx]. }
  split; [|split; [exact L|split; [exact Hlt|]]].
  - intros x Hx Hn. apply F. intros Hr. apply Hin in Hr. lia.
  - intros x Hx. apply Hin. eapply within_closed; eauto.
Qed.

(** On a tree no object of which is shared, a call of [rewrite] returns
    the term-level pass, and leaves the object it was given with its
    children replaced by their passes. *)
Lemma rewrite_tree (fuel : nat) :
  forall (h : heap) a t lo hi,
    tree_at h a t lo hi -> hi <= length h -> shape t -> weight t <= fuel ->
    exists a' h', rewrite fuel h a = Ok (a', h') /\ repr h' a' (pass t) /\
                  repr h' a (children_passed t).
Proof.
  induction fuel as [|f IH]; intros h a t lo hi Ht Hhi Hs Hw.
  { pose proof (weight_ge t). lia. }
  destruct t as [v|v tl tr].
  - destruct Ht as [_ Hc]. exists a, h.
    rewrite rewrite_unfold, (deref_cell _ _ _ Hc).
    split; [reflexivity|]. split; exact Hc.
  - destruct Ht as (Hb & l & r & mid & Hc & Hl & Hr).
    destruct Hs as (Hv & Hsl & Hsr).
    destruct (weight_children v tl tr) as [Wl Wr].
    pose proof (tree_at_bounds _ _ _ _ _ Hl) as Bl.
    pose proof (tree_at_bounds _ _ _ _ _ Hr) as Br.
    (* the left child *)
    destruct (IH h l tl lo mid Hl ltac:(lia) Hsl ltac:(lia))
      as (l' & h1 & E1 & Rl & _).
    destruct (rewrite_tree_frame f h l tl lo mid l' h1 Hl ltac:(lia) E1)
      as (F1 & L1 & Hl' & In1).
    assert (Hc1 : cell h1 a = Some (mkNode v (Some l) (Some r))).
    { rewrite <- Hc. apply cell_ext, F1; lia. }
    set (h1a := <[a := Some (mkNode v (Some l') (Some r))]> h1).
    assert (Lh1a : length h1a = length h1) by apply length_insert.
    (* the right child *)
    assert (Hr1 : tree_at h1a r tr mid a).
    { apply (tree_at_ext h); [|exact Hr]. intros x Hx. unfold h1a.
      rewrite list_lookup_insert_ne by lia. apply F1; lia. }
    destruct (IH h1a r tr mid a Hr1 ltac:(lia) Hsr ltac:(lia))
      as (r' & h2 & E2 & Rr & _).
    destruct (rewrite_tree_frame f h1a r tr mid a r' h2 Hr1 ltac:(lia) E2)
      as (F2 & L2 & Hr' & In2).
    assert (Hc2 : cell h2 a = Some (mkNode v (Some l') (Some r))).
    { rewrite (cell_ext h2 h1a) by (apply F2; lia).
      apply cell_insert_eq. lia. }
    set (h2a := <[a := Some (mkNode v (Some l') (Some r'))]> h2).
    (* the children in the store the rules see *)
    assert (Rl' : repr h2a l' (pass tl)).
    { apply (repr_region (fun x => rtc (child h1) l' x) h1 h2a
               ltac:(intros x c k Hx Hcx Hk;
                     destruct (reach_within _ _ _ Rl x c k (or_introl Hx) Hcx Hk)
                       as [[?|?] ?]; [auto|lia])).
      - intros x Hx Hlt. destruct (In1 x Hx) as [Hx1|Hx1].
        + unfold h2a. rewrite list_lookup_insert_ne by lia.
          rewrite F2 by lia. unfold h1a.
          apply list_lookup_insert_ne. lia.
        + unfold h2a. rewrite list_lookup_insert_ne by lia.
          rewrite F2 by lia. unfold h1a.
          apply list_lookup_insert_ne. lia.
      - apply rtc_refl.
      - exact Rl. }
    assert (Rr' : repr h2a r' (pass tr)).
    { apply (repr_region (fun x => rtc (child h2) r' x) h2 h2a
               ltac:(intros x c k Hx Hcx Hk;
                     destruct (reach_within _ _ _ Rr x c k (or_introl Hx) Hcx Hk)
                       as [[?|?] ?]; [auto|lia])).
      - intros x Hx Hlt. unfold h2a. apply list_lookup_insert_ne.
        destruct (In2 x Hx); lia.
      - apply rtc_refl.
      - exact Rr. }
    assert (Hc2a : cell h2a a = Some (mkNode v (Some l') (Some r')))
      by (apply cell_insert_eq; lia).
    assert (Hs' : shape (Node v (pass tl) (pass tr)))
      by (simpl; auto using pass_shape).
    destruct (rules_spec h2a a v l' r' (pass tl) (pass tr) Hc2a Rl' Rr' Hs')
      as (res & ext & Eru & Rres & _).
    exists res, (h2a ++ ext).
    split; [|split; [exact Rres|apply repr_app; exists l', r'; auto]].
    rewrite rewrite_unfold, (deref_cell _ _ _ Hc).
    cbn [mbind result_bind left]. rewrite E1. cbn [mbind result_bind].
    unfold set_left. rewrite (deref_cell _ _ _ Hc1).
    cbn [mbind result_bind value right]. fold h1a.
    rewrite (deref_cell h1a a (mkNode v (Some l') (Some r)))
      by (apply cell_insert_eq; lia).
    cbn [mbind result_bind right some_ref]. rewrite E2.
    cbn [mbind result_bind]. unfold set_right. rewrite (deref_cell _ _ _ Hc2).
    cbn [mbind result_bind value left]. fold h2a. exact Eru.
Qed.

(** X20: on the objects of a freshly parsed tree a call of [rewrite]
    returns an object that reads as the bottom-up pass of the tree: the
    rules are tried once at each node whose children have been passed.
    The call works in place: the root object it was given reads
    afterwards as the root with its children passed. *)
Theorem first_pass_is_the_bottom_up_pass
  (tokens : list string) (pf : nat) (t : tree) (h0 : heap) (a : nat)
  (h : heap) (fuel : nat) :
  parse_expression tokens pf = Ok t -> store t h0 = (a, h) ->
  weight t <= fuel ->
  exists r h', rewrite fuel h a = Ok (r, h') /\ repr h' r (pass t) /\
               repr h' a (children_passed t).
Proof.
  intros Hp Hst Hf. pose proof (parse_shape _ _ _ Hp) as Hs.
  apply (rewrite_tree fuel h a t (length h0) (length h)); auto.
  apply store_tree_at, Hst.
Qed.

Lemma first_pass_is_the_bottom_up_pass_witness :
  (parse_expression (tokenize "a*(b+c)") 8 = Ok demo_product /\
   store demo_product [] = (4, demo_heap) /\
   weight demo_product <= 21) /\
  exists r h', rewrite 21 demo_heap 4 = Ok (r, h') /\
               repr h' r (pass demo_product) /\
               repr h' 4 (children_passed demo_product).
Proof.
  assert (H1 : parse_expression (tokenize "a*(b+c)") 8 = Ok demo_product)
    by reflexivity.
  assert (H2 : store demo_product [] = (4, demo_heap)) by reflexivity.
  assert (H3 : weight demo_product <= 21) by (simpl; lia).
  split; [exact (conj H1 (conj H2 H3))|].
  apply (first_pass_is_the_bottom_up_pass _ _ _ _ _ _ _ H1 H2 H3).
Defined.

(** ** Runs *)

(** The run on an input that parses. *)
Lemma run_spec expr fuel t :
  parse_expression (tokenize expr) fuel = Ok t -> weight t + 2 <= fuel ->
  exists s,
    run fuel expr = Ok (mkReport (print_ast t) (print_ast s) (cost t) (cost s)) /\
    red t s /\ normal s /\ shape s.
Proof.
  intros Hp Hf. pose proof (parse_shape _ _ _ Hp) as Hs.
  unfold run. cbv zeta. rewrite Hp. cbn [mbind result_bind].
  destruct (store t []) as [a h] eqn:Est.
  destruct (store_spec _ _ _ _ Est) as [_ Ha].
  destruct (saturation_spec fuel h a t Ha Hs Hf)
    as (r & h' & s & E & Rs & D & Ns & Ss).
  pose proof (red_weight_le _ _ D) as W.
  pose proof (repr_keeps _ _ _ _ (saturation_frame _ _ _ _ _ E) Ha) as Ha'.
  rewrite (print_ast_spec fuel h a t Ha) by lia. cbn [mbind result_bind].
  rewrite E. cbn [mbind result_bind].
  rewrite (print_ast_spec fuel h' r s Rs) by lia. cbn [mbind result_bind].
  rewrite (cost_spec fuel h' a t Ha') by lia. cbn [mbind result_bind].
  rewrite (cost_spec fuel h' r s Rs) by lia. cbn [mbind result_bind].
  exists s. auto.
Qed.

Lemma run_Ok expr fuel rep :
  run fuel expr = Ok rep ->
  exists t s,
    parse_expression (tokenize expr) fuel = Ok t /\
    rep = mkReport (print_ast t) (print_ast s) (cost t) (cost s) /\
    red t s /\ normal s /\ shape s /\ shape t.
Proof.
  intros H.
  destruct (parse_expression (tokenize expr) fuel) as [t| |] eqn:Hp;
    try (unfold run in H; cbv zeta in H; rewrite Hp in H; discriminate H).
  set (F := Nat.max fuel (weight t + 2)).
  assert (HpF : parse_expression (tokenize expr) F = Ok t).
  { rewrite (parse_expression_mono _ fuel F), Hp; [reflexivity|lia|].
    rewrite Hp. discriminate. }
  destruct (run_spec expr F t HpF ltac:(lia)) as (s & E & D & Ns & Ss).
  rewrite (run_mono fuel F) in E; [|lia|rewrite H; discriminate].
  exists t, s. split; [reflexivity|]. split; [congruence|].
  eauto using parse_shape.
Qed.





(** X22: the optimized text of a report is a fixpoint of the run: run on
    it, the program prints it back as original and as optimized, with the
    cost after as both costs. *)
Theorem run_on_its_own_output (expr : string) (fuel : nat) (rep : report) :
  run fuel expr = Ok rep ->
  exists N, forall fuel', N <= fuel' ->
    run fuel' (optimized rep)
    = Ok (mkReport (optimized rep) (optimized rep)
                   (cost_after rep) (cost_after rep)).
Proof.
  intros H. destruct (run_Ok _ _ _ H) as (t & s & _ & -> & D & Ns & Ss & _).
  cbn [optimized cost_after].
  exists (Nat.max (need s + 2) (weight s + 2)). intros fuel' Hle.
  assert (Hp : parse_expression (tokenize (print_ast s)) fuel' = Ok s).
  { rewrite tokenize_print by exact Ss. apply parse_flat; [exact Ss|lia]. }
  destruct (run_spec _ fuel' s Hp ltac:(lia)) as (s2 & E & D2 & _).
  assert (s2 = s) by (apply normal_red; assumption). subst s2. exact E.
Qed.

Lemma run_on_its_own_output_witness :
  run 30 "a*(b+c)" = Ok (mkReport "(a * (b + c))" "((a * b) + (a * c))" 5 7) /\
  exists N, forall fuel', N <= fuel' ->
    run fuel' "((a * b) + (a * c))"
    = Ok (mkReport "((a * b) + (a * c))" "((a * b) + (a * c))" 7 7).
Proof.
  assert (H : run 30 "a*(b+c)"
              = Ok (mkReport "(a * (b + c))" "((a * b) + (a * c))" 5 7))
    by (vm_compute; reflexivity).
  split; [exact H|]. apply (run_on_its_own_output _ _ _ H).
Defined.

Lemma token_ok_nonempty tok : token_ok tok = true -> tok <> "".
Proof. intros H ->. discriminate H. Qed.

Lemma tokenize_blank expr :
  filter_chars is_token_char expr = "" -> tokenize expr = [].
Proof.
  intros H. rewrite <- (tokenize_join_filter (String.length expr)) in H by lia.
  pose proof (findall_token_ok (String.length expr) expr) as F.
  fold (tokenize expr) in F.
  destruct (tokenize expr) as [|tok rest]; [reflexivity|].
  inversion F as [|? ? Hok _]; subst.
  apply token_ok_nonempty in Hok. simpl in H.
  destruct tok; [congruence|discriminate H].
Qed.

(** X11: an input without any digit, letter or punctuation of the token
    pattern (the empty string, blanks) has no tokens, and the run raises
    IndexError on it. *)
Theorem blank_input_raises_index_error (expr : string) (fuel : nat) :
  filter_chars is_token_char expr = "" -> 3 <= fuel ->
  tokenize expr = [] /\ run fuel expr = Raise IndexError.
Proof.
  intros H Hf. pose proof (tokenize_blank expr H) as Ht.
  split; [exact Ht|]. unfold run. cbv zeta. rewrite Ht.
  destruct fuel as [|[|[|f]]]; try lia. reflexivity.
Qed.

Lemma blank_input_raises_index_error_witness :
  (filter_chars is_token_char "  " = "" /\ 3 <= 3) /\
  tokenize "  " = [] /\ run 3 "  " = Raise IndexError.
Proof.
  assert (H1 : filter_chars is_token_char "  " = "") by reflexivity.
  assert (H2 : 3 <= 3) by lia.
  split; [split; assumption|].
  apply (blank_input_raises_index_error "  " 3 H1 H2).
Defined.

Lemma try_test_spec expr fuel t :
  parse_expression (tokenize expr) fuel = Ok t -> weight t + 2 <= fuel ->
  exists s,
    try_test fuel expr
    = (if (cost s <? cost t)%nat then Ok (Optimized (cost t - cost s))
       else if negb (String.eqb (print_ast t) (print_ast s)) then Ok Transformed
       else Ok NoChange) /\
    red t s /\ normal s /\ shape s.
Proof.
  intros Hp Hf. pose proof (parse_shape _ _ _ Hp) as Hs.
  unfold try_test. cbv zeta. rewrite Hp. cbn [mbind result_bind].
  destruct (store t []) as [a h] eqn:Est.
  destruct (store_spec _ _ _ _ Est) as [_ Ha].
  destruct (saturation_spec fuel h a t Ha Hs Hf)
    as (r & h' & s & E & Rs & D & Ns & Ss).
  pose proof (red_weight_le _ _ D) as W.
  rewrite (print_ast_spec fuel h a t Ha) by lia. cbn [mbind result_bind].
  rewrite (cost_spec fuel h a t Ha) by lia. cbn [mbind result_bind].
  rewrite E. cbn [mbind result_bind].
  rewrite (print_ast_spec fuel h' r s Rs) by lia. cbn [mbind result_bind].
  rewrite (cost_spec fuel h' r s Rs) by lia. cbn [mbind result_bind].
  exists s. auto.
Qed.

(** X24: the verdict written for a test whose expression parses to [t] and
    saturates to [s]: NO CHANGE exactly when no rule applies anywhere in
    [t]; OPTIMIZED, with the difference of the costs, exactly when [s]
    costs less than [t]; TRANSFORMED exactly when some rule applies and
    [s] does not cost less than [t] (it may cost more). *)
Theorem test_verdicts (expr : string) (fuel : nat) (t : tree) :
  parse_expression (tokenize expr) fuel = Ok t -> weight t + 2 <= fuel ->
  exists s v,
    run_test fuel expr = Ok v /\ red t s /\ normal s /\
    (v = NoChange <-> normal t) /\
    (v = Transformed <-> ~ normal t /\ cost t <= cost s) /\
    (forall k, v = Optimized k <-> cost s < cost t /\ k = cost t - cost s).
Proof.
  intros Hp Hf. pose proof (parse_shape _ _ _ Hp) as Hs.
  destruct (try_test_spec expr fuel t Hp Hf) as (s & E & D & Ns & Ss).
  assert (Hn : normal t -> s = t) by (intros Nt; apply normal_red; assumption).
  unfold run_test. rewrite E. exists s.
  destruct (cost s <? cost t)%nat eqn:Ec.
  - apply Nat.ltb_lt in Ec. eexists. split; [reflexivity|].
    split; [exact D|]. split; [exact Ns|]. split; [|split].
    + split; [discriminate|]. intros Nt. rewrite (Hn Nt) in Ec. lia.
    + split; [discriminate|]. intros [_ Hle]. lia.
    + intros k. split; [intros [= <-]; auto|]. intros [_ ->]. reflexivity.
  - apply Nat.ltb_ge in Ec.
    destruct (String.eqb (print_ast t) (print_ast s)) eqn:Ep; cbn [negb].
    + apply String.eqb_eq in Ep.
      apply print_ast_injective in Ep; [|assumption..]. subst s.
      eexists. split; [reflexivity|].
      split; [exact D|]. split; [exact Ns|]. split; [|split].
      * tauto.
      * split; [discriminate|]. tauto.
      * intros k. split; [discriminate|]. lia.
    + apply String.eqb_neq in Ep.
      assert (Hnn : ~ normal t) by (intros Nt; rewrite (Hn Nt) in Ep; auto).
      eexists. split; [reflexivity|].
      split; [exact D|]. split; [exact Ns|]. split; [|split].
      * split; [discriminate|]. tauto.
      * tauto.
      * intros k. split; [discriminate|]. lia.
Qed.

Lemma test_verdicts_witness :
  (parse_expression (tokenize "a+b") 9 = Ok (Node "+" (Leaf "a") (Leaf "b")) /\
   weight (Node "+" (Leaf "a") (Leaf "b")) + 2 <= 9) /\
  exists s v,
    run_test 9 "a+b" = Ok v /\ red (Node "+" (Leaf "a") (Leaf "b")) s /\
    normal s /\
    (v = NoChange <-> normal (Node "+" (Leaf "a") (Leaf "b"))) /\
    (v = Transformed <->
     ~ normal (Node "+" (Leaf "a") (Leaf "b")) /\
     cost (Node "+" (Leaf "a") (Leaf "b")) <= cost s) /\
    (forall k, v = Optimized k <->
               cost s < cost (Node "+" (Leaf "a") (Leaf "b")) /\
               k = cost (Node "+" (Leaf "a") (Leaf "b")) - cost s).
Proof.
  assert (H1 : parse_expression (tokenize "a+b") 9
               = Ok (Node "+" (Leaf "a") (Leaf "b"))) by reflexivity.
  assert (H2 : weight (Node "+" (Leaf "a") (Leaf "b")) + 2 <= 9)
    by (simpl; lia).
  split; [split; assumption|].
  apply (test_verdicts "a+b" 9 _ H1 H2).
Defined.

Local Open Scope string_scope.

Lemma isalpha_not_isdigit x : isalpha x = true -> isdigit x = false.
Proof.
  destruct x as [|c x]; [discriminate|]. unfold isalpha, isdigit. simpl.
  intros H. apply andb_prop in H as [Hc _].
  rewrite (alpha_not_digit c Hc). reflexivity.
Qed.

Lemma tokenize_pair a b op :
  isdigit a || isalpha a = true -> isdigit b || isalpha b = true ->
  op = "+" \/ op = "*" ->
  tokenize (a ++ op ++ b) = [a; op; b].
Proof.
  intros Ha Hb Hop.
  rewrite tokenize_atom;
    [|exact Ha|destruct Hop as [-> | ->]; split; reflexivity].
  assert (E : tokenize (op ++ b) = op :: tokenize b)
    by (destruct Hop as [-> | ->]; [apply tokenize_plus|apply tokenize_star]).
  rewrite E. rewrite <- (append_nil_r b) at 1.
  rewrite tokenize_atom; [reflexivity|exact Hb|exact I].
Qed.

Lemma parse_pair a b op fuel :
  isdigit a || isalpha a = true -> isdigit b || isalpha b = true ->
  op = "+" \/ op = "*" -> 15 <= fuel ->
  parse_expression [a; op; b] fuel = Ok (Node op (Leaf a) (Leaf b)).
Proof.
  intros Ha Hb [-> | ->] Hf.
  - apply (parse_sum_tokens (Leaf a, []) [(Leaf b, [])] fuel).
    + split; [exact Ha|constructor].
    + constructor; [split; [exact Hb|constructor]|constructor].
    + simpl. lia.
  - apply (parse_sum_tokens (Leaf a, [Leaf b]) [] fuel).
    + split; [exact Ha|]. constructor; [exact Hb|constructor].
    + constructor.
    + simpl. lia.
Qed.

(** The run on [a op b] when no rule applies to it. *)
Lemma run_normal_pair a b op fuel :
  isdigit a || isalpha a = true -> isdigit b || isalpha b = true ->
  op = "+" \/ op = "*" -> contract op (Leaf a) (Leaf b) = Node op (Leaf a) (Leaf b) ->
  15 <= fuel ->
  run fuel (a ++ op ++ b)
  = Ok (mkReport ("(" ++ a ++ " " ++ op ++ " " ++ b ++ ")")
                 ("(" ++ a ++ " " ++ op ++ " " ++ b ++ ")") 3 3).
Proof.
  intros Ha Hb Hop Hk Hf.
  assert (Hp : parse_expression (tokenize (a ++ op ++ b)) fuel
               = Ok (Node op (Leaf a) (Leaf b))).
  { rewrite tokenize_pair by assumption. apply parse_pair; assumption. }
  assert (Hw : weight (Node op (Leaf a) (Leaf b)) + 2 <= fuel).
  { simpl. destruct (String.eqb op "*"); lia. }
  destruct (run_spec _ fuel _ Hp Hw) as (s & E & D & _).
  assert (s = Node op (Leaf a) (Leaf b)).
  { apply normal_red; [|exact D]. simpl. auto. }
  subst s. exact E.
Qed.

(** X23: the rules for zero and one compare the text of a literal with "0"
    and "1".  For an identifier [x] and a literal [d] other than these
    two texts, the run on [x + d], [x * d], [d + x] and [d * x] reports
    the tree unchanged, with cost 3: also when [d] is 00 or 01. *)
Theorem zero_and_one_are_matched_by_their_text
  (x d op : string) (fuel : nat) :
  isalpha x = true -> isdigit d = true -> d <> "0" -> d <> "1" ->
  op = "+" \/ op = "*" -> 15 <= fuel ->
  run fuel (x ++ op ++ d)
  = Ok (mkReport ("(" ++ x ++ " " ++ op ++ " " ++ d ++ ")")
                 ("(" ++ x ++ " " ++ op ++ " " ++ d ++ ")") 3 3) /\
  run fuel (d ++ op ++ x)
  = Ok (mkReport ("(" ++ d ++ " " ++ op ++ " " ++ x ++ ")")
                 ("(" ++ d ++ " " ++ op ++ " " ++ x ++ ")") 3 3).
Proof.
  intros Hx Hd H0 H1 Hop Hf.
  pose proof (isalpha_not_isdigit x Hx) as Hxd.
  assert (Hx0 : String.eqb x "0" = false)
    by (apply String.eqb_neq; intros ->; discriminate Hx).
  assert (Hx1 : String.eqb x "1" = false)
    by (apply String.eqb_neq; intros ->; discriminate Hx).
  assert (Hx0' : String.eqb "0" x = false)
    by (rewrite String.eqb_sym; exact Hx0).
  apply String.eqb_neq in H0, H1.
  assert (H0' : String.eqb "0" d = false)
    by (rewrite String.eqb_sym; exact H0).
  split; apply run_normal_pair; try assumption;
    try (rewrite Hx, ?orb_true_r; reflexivity);
    try (rewrite Hd; reflexivity);
    unfold contract, expand; cbn [root];
    rewrite ?Hx0, ?Hx1, ?Hx0', ?H0, ?H1, ?H0', ?Hxd, ?Hd;
    cbn [andb orb];
    rewrite ?andb_false_r; reflexivity.
Qed.

Lemma zero_and_one_are_matched_by_their_text_witness :
  (isalpha "x" = true /\ isdigit "00" = true /\ "00" <> "0" /\ "00" <> "1" /\
   ("+" = "+" \/ "+" = "*") /\ 15 <= 15) /\
  run 15 ("x" ++ "+" ++ "00") = Ok (mkReport "(x + 00)" "(x + 00)" 3 3) /\
  run 15 ("00" ++ "+" ++ "x") = Ok (mkReport "(00 + x)" "(00 + x)" 3 3).
Proof.
  assert (H1 : isalpha "x" = true) by reflexivity.
  assert (H2 : isdigit "00" = true) by reflexivity.
  assert (H3 : "00" <> "0") by discriminate.
  assert (H4 : "00" <> "1") by discriminate.
  assert (H5 : "+" = "+" \/ "+" = "*") by (left; reflexivity).
  assert (H6 : 15 <= 15) by lia.
  split; [exact (conj H1 (conj H2 (conj H3 (conj H4 (conj H5 H6)))))|].
  apply (zero_and_one_are_matched_by_their_text "x" "00" "+" 15
           H1 H2 H3 H4 H5 H6).
Defined.
